(** * Space Invaders JS: object pool, game loop and particle effects

    A shallow embedding of the pooling allocator ([src/utils/ObjectPool.js]),
    the fixed-timestep scheduler ([src/core/GameLoop.js]) and the particle
    classes (the particle-system and pooled-particle sources, together with
    [src/effects/ParticleEmitter.js] and [src/effects/ExplosionEffect.js]).

    Conventions of the embedding:
    - JavaScript numbers are idealised as exact rationals ([Q]); counts and
      sizes that the code only ever uses as integers are [Z] or [nat].
    - An object reference is a natural number; the fields of the referenced
      objects live in an explicit store, so aliasing is visible.
    - A method that mutates [this] takes the receiver's state and returns the
      new one; a method that may throw returns a [completion].
    - User-supplied callbacks (factory, reset, update, render) are parameters.
    - Host effects (console, canvas, requestAnimationFrame) are recorded as
      a list of events. *)

From Stdlib Require Import ZArith QArith Qround Qminmax Lqa Lia String.
From Equations Require Import Equations.
From stdpp Require Import gmap list strings.

(** ** JavaScript completions *)

(** [new Error(message)]. *)
Inductive exn : Type :=
| Error (message : string).

Definition message_of (e : exn) : string :=
  match e with Error m => m end.

(** The result of a call: it returns a value or throws. *)
Inductive completion (A : Type) : Type :=
| Return (a : A)
| Throw (e : exn).
Arguments Return {A} a.
Arguments Throw {A} e.

(** [o || d] on an optional number: [undefined] and [0] are falsy. *)
Definition or_default (o : option Z) (d : Z) : Z :=
  match o with
  | Some z => if (z =? 0)%Z then d else z
  | None => d
  end.

(** ** ObjectPool (src/utils/ObjectPool.js) *)

Module ObjectPool.

Section Pool.

(** The fields of a pooled instance. *)
Context {T : Type}.

(** A reference to a pooled instance. *)
Definition Obj : Type := nat.

(** The user's factory. Its [n]-th invocation returns a reference to an
    object together with the fields that object has just been given, or
    throws. *)
Definition Factory : Type := nat -> completion (Obj * T).

(** The user's reset function: it is handed the object, may overwrite its
    fields, and returns normally ([None]) or throws ([Some e]); the first
    component is the fields the object is left with either way. *)
Definition Reset : Type := T -> T * option exn.

(** What lies outside the pool object: the fields of every object, and how
    many times the factory has been invoked so far. *)
Record World : Type := mkWorld {
  heap : gmap Obj T;
  calls : nat
}.

Record PoolConfig : Type := mkPoolConfig {
  factory : option Factory;
  reset : option Reset;
  initialSize : option Z;
  maxSize : option Z;
  autoExpand : option bool
}.

Record Pool : Type := mkPool {
  _factory : Factory;
  _reset : Reset;
  _initialSize : Z;
  _maxSize : Z;
  _autoExpand : bool;
  _pool : list Obj;
  _activeObjects : gset Obj
}.

Definition set_pool (p : Pool) (l : list Obj) : Pool :=
  mkPool (_factory p) (_reset p) (_initialSize p) (_maxSize p) (_autoExpand p)
    l (_activeObjects p).

Definition set_activeObjects (p : Pool) (s : gset Obj) : Pool :=
  mkPool (_factory p) (_reset p) (_initialSize p) (_maxSize p) (_autoExpand p)
    (_pool p) s.

(** [this._factory()]: one more invocation of the factory; a returned
    object is entered in the store with its fresh fields. *)
Definition call_factory (f : Factory) (w : World) : completion Obj * World :=
  match f (calls w) with
  | Return (o, v) => (Return o, mkWorld (<[o := v]> (heap w)) (S (calls w)))
  | Throw e => (Throw e, mkWorld (heap w) (S (calls w)))
  end.

(** The [for] loop of [_initializePool], [n] iterations left. *)
Fixpoint fill (f : Factory) (n : nat) (l : list Obj) (w : World)
  : completion (list Obj) * World :=
  match n with
  | O => (Return l, w)
  | S n' =>
      match call_factory f w with
      | (Return o, w') => fill f n' (l ++ [o]) w'
      | (Throw e, w') => (Throw e, w')
      end
  end.

Definition _initializePool (p : Pool) (w : World) : completion Pool * World :=
  match fill (_factory p) (Z.to_nat (_initialSize p)) (_pool p) w with
  | (Return l, w') => (Return (set_pool p l), w')
  | (Throw e, w') =>
      (Throw (Error (String.append "Failed to initialize object pool: "
                       (message_of e))), w')
  end.

(** [new ObjectPool(config)]. *)
Definition new (config : PoolConfig) (w : World) : completion Pool * World :=
  match factory config with
  | None => (Throw (Error "ObjectPool requires a valid factory function"), w)
  | Some f =>
      let r := match reset config with
               | Some r => r
               | None => fun obj => (obj, None)
               end in
      let isz := Z.max 0 (or_default (initialSize config) 100) in
      let msz := Z.max isz (or_default (maxSize config) 1000) in
      let ae := match autoExpand config with
                | Some false => false
                | _ => true
                end in
      _initializePool (mkPool f r isz msz ae [] ∅) w
  end.

Definition availableSize (p : Pool) : Z := Z.of_nat (length (_pool p)).

Definition activeSize (p : Pool) : Z := Z.of_nat (size (_activeObjects p)).

Definition totalSize (p : Pool) : Z := (availableSize p + activeSize p)%Z.

Definition depleted : exn := Error "Object pool depleted and cannot expand".

Definition not_managed : exn :=
  Error "Attempting to release an object not managed by this pool".

(** [acquire()]. The array [_pool] is a list in index order, so [pop]
    takes its last element. *)
Definition acquire (p : Pool) (w : World) : completion Obj * Pool * World :=
  match _pool p with
  | [] =>
      if negb (_autoExpand p) || (_maxSize p <=? totalSize p)%Z
      then (Throw depleted, p, w)
      else
        match call_factory (_factory p) w with
        | (Return o, w') =>
            (Return o, set_activeObjects p ({[o]} ∪ _activeObjects p), w')
        | (Throw e, w') => (Throw e, p, w')
        end
  | o0 :: l0 =>
      let o := List.last l0 o0 in
      let p' := set_pool p (removelast (o0 :: l0)) in
      (Return o, set_activeObjects p' ({[o]} ∪ _activeObjects p'), w)
  end.

(** [this._reset(object)] on the store. A reference without an entry in
    the store cannot arise in JavaScript; the model leaves the store alone
    there. *)
Definition call_reset (r : Reset) (o : Obj) (w : World) : option exn * World :=
  match heap w !! o with
  | Some v =>
      let '(v', e) := r v in (e, mkWorld (<[o := v']> (heap w)) (calls w))
  | None => (None, w)
  end.

(** [release(object)]. *)
Definition release (o : Obj) (p : Pool) (w : World)
  : completion unit * Pool * World :=
  if decide (o ∈ _activeObjects p) then
    match call_reset (_reset p) o w with
    | (None, w') =>
        let p' := set_activeObjects p (_activeObjects p ∖ {[o]}) in
        (Return tt, set_pool p' (_pool p' ++ [o]), w')
    | (Some e, w') =>
        (Throw (Error (String.append "Failed to release object: "
                         (message_of e))), p, w')
    end
  else (Throw not_managed, p, w).

(** [dispose()]. *)
Definition dispose (p : Pool) : Pool :=
  set_activeObjects (set_pool p []) ∅.

(** The [for (const object of this._activeObjects)] loop of [releaseAll].
    A JavaScript [Set] yields its members in the order they were added,
    which the finite set of the model does not record: [order] is that
    enumeration of the active set, as far as it is still to be visited.
    Deleting the member being visited does not disturb the iteration. *)
Fixpoint release_each (order : list Obj) (p : Pool) (w : World)
  : completion unit * Pool * World :=
  match order with
  | [] => (Return tt, p, w)
  | o :: rest =>
      match release o p w with
      | (Return _, p', w') => release_each rest p' w'
      | (Throw e, p', w') => (Throw e, p', w')
      end
  end.

(** [releaseAll()], with [order] the enumeration of [_activeObjects]. *)
Definition releaseAll (order : list Obj) (p : Pool) (w : World)
  : completion unit * Pool * World :=
  match release_each order p w with
  | (Return _, p', w') => (Return tt, p', w')
  | (Throw e, p', w') =>
      (Throw (Error (String.append "Failed to release all objects: "
                       (message_of e))), p', w')
  end.

(** [order] lists the members of the active set of [p], each once. *)
Definition enumerates (order : list Obj) (p : Pool) : Prop :=
  NoDup order ∧ ∀ o, o ∈ order ↔ o ∈ _activeObjects p.

(** A client of the pool: what it may do between two observations. A
    write stands for the client assigning to the fields of an object it
    holds. *)
Inductive call : Type :=
| Acquire
| Release (o : Obj)
| Write (o : Obj) (v : T).

Definition step (c : call) (pw : Pool * World) : Pool * World :=
  let '(p, w) := pw in
  match c with
  | Acquire => let '(_, p', w') := acquire p w in (p', w')
  | Release o => let '(_, p', w') := release o p w in (p', w')
  | Write o v => (p, mkWorld (<[o := v]> (heap w)) (calls w))
  end.

Definition run (cs : list call) (pw : Pool * World) : Pool * World :=
  foldl (fun st c => step c st) pw cs.


(** A client that builds a pool, acquires an instance, assigns [v] to its
    fields, releases it, acquires again, and reads the fields of what it
    got if that is the same instance. *)
Definition reacquire (config : PoolConfig) (v : T) (w : World) : option T :=
  match new config w with
  | (Return p, w) =>
      match acquire p w with
      | (Return x, p, w) =>
          let w := mkWorld (<[x := v]> (heap w)) (calls w) in
          match release x p w with
          | (Return _, p, w) =>
              match acquire p w with
              | (Return x', _, w) =>
                  if decide (x' = x) then heap w !! x else None
              | _ => None
              end
          | _ => None
          end
      | _ => None
      end
  | _ => None
  end.

(** *** Vocabulary of the pool's properties *)

(** The factory hands out a new object at every call that returns. *)
Definition fresh_factory (f : Factory) : Prop :=
  ∀ i j o v v', f i = Return (o, v) → f j = Return (o, v') → i = j.

(** [o] was built by one of the factory calls numbered [c0] up to (not
    including) [c1]. *)
Definition built (f : Factory) (c0 c1 : nat) (o : Obj) : Prop :=
  ∃ i v, (c0 ≤ i < c1)%nat ∧ f i = Return (o, v).

(** The free list [l] and the active set [A] partition the instances built
    by the factory calls numbered [c0] up to [c]. *)
Definition parts (f : Factory) (c0 : nat) (l : list Obj) (A : gset Obj)
  (c : nat) : Prop :=
  (c0 ≤ c)%nat
  ∧ NoDup l
  ∧ (∀ o, o ∈ l → o ∉ A)
  ∧ (∀ o, o ∈ l ∨ o ∈ A ↔ built f c0 c o).

Definition partitioned (c0 : nat) (p : Pool) (w : World) : Prop :=
  parts (_factory p) c0 (_pool p) (_activeObjects p) (calls w).

End Pool.

(** The call returned rather than threw. *)
Definition returned {A : Type} (r : completion A) : Prop :=
  match r with Return _ => True | Throw _ => False end.

(** *** Sample pools: instances with a single integer field *)

(** A factory whose [i]-th call builds the object [i] with field [0]. *)
Definition counting_factory : @Factory Z := fun i => Return (i, 0%Z).

Definition sample_config : @PoolConfig Z :=
  mkPoolConfig (Some counting_factory) None (Some 2%Z) (Some 3%Z) (Some true).

Definition sample_start : completion (@Pool Z) * @World Z :=
  new sample_config (mkWorld ∅ 0).

Definition sample_pool : @Pool Z :=
  match sample_start with
  | (Return p, _) => p
  | (Throw _, _) => mkPool counting_factory (fun v => (v, None)) 0 0 true [] ∅
  end.

Definition sample_calls : list (@call Z) :=
  [Acquire; Write 1%nat 7%Z; Release 1%nat; Release 5%nat; Acquire; Acquire;
   Acquire; Acquire].


(** A pool of one instance and no configured reset function. *)
Definition plain_config : @PoolConfig Z :=
  mkPoolConfig (Some counting_factory) None (Some 1%Z) (Some 1%Z) (Some false).

(** A pool whose only instance, the object [0] with field [5], is checked
    out; its reset function zeroes the field, or throws on a negative one
    after having overwritten it. *)
Definition zeroing_reset : @Reset Z :=
  fun v =>
    if (v <? 0)%Z then ((-1)%Z, Some (Error "negative")) else (0%Z, None).

Definition checked_out_pool : @Pool Z :=
  mkPool counting_factory zeroing_reset 1 1 false [] {[0%nat]}.

Definition world_with (v : Z) : @World Z := mkWorld {[0%nat := v]} 1.

(** *** Further sample pools *)

(** The pool the constructor builds from [config] in an empty world. *)
Definition built_from (config : @PoolConfig Z) : @Pool Z :=
  match new config (mkWorld ∅ 0) with
  | (Return p, _) => p
  | (Throw _, _) => checked_out_pool
  end.

(** [{ factory, initialSize: 0, maxSize: 50 }]. *)
Definition zero_config : @PoolConfig Z :=
  mkPoolConfig (Some counting_factory) None (Some 0%Z) (Some 50%Z) (Some true).

(** A factory that builds two objects and throws from then on. *)
Definition flaky_factory : @Factory Z :=
  fun i =>
    if (i <? 2)%nat then Return (i, 0%Z) else Throw (Error "out of memory").

Definition flaky_config : @PoolConfig Z :=
  mkPoolConfig (Some flaky_factory) None (Some 5%Z) None None.

(** A pool with the objects 0, 1 and 2 checked out; their fields are 5,
    [v] and 1. *)
Definition busy_pool : @Pool Z :=
  mkPool counting_factory zeroing_reset 3 3 false []
    ({[0%nat]} ∪ ({[1%nat]} ∪ {[2%nat]})).

Definition busy_world (v : Z) : @World Z :=
  mkWorld (<[0%nat := 5%Z]> (<[1%nat := v]> (<[2%nat := 1%Z]> ∅))) 3.

Arguments World T : clear implicits.
Arguments PoolConfig T : clear implicits.
Arguments Pool T : clear implicits.
Arguments Factory T : clear implicits.
Arguments Reset T : clear implicits.
Arguments call T : clear implicits.

End ObjectPool.

(** ** GameLoop (src/core/GameLoop.js) *)

Module GameLoop.

Open Scope Q_scope.

Definition FIXED_TIME_STEP : Q := 1000 / 60.

Definition MAX_FRAME_TIME : Q := 250.

(** What a frame does to the host, in order. *)
Inductive event : Type :=
| update_called (dt : Q)
| clearRect
| render_called (alpha : Q)
| console_error (label : string) (e : exn)
| requestAnimationFrame
| addEventListener
| removeEventListener.

(** *** Arithmetic of the fixed step, needed for the [while] loop to be
    accepted as a total function *)

Lemma div_step (x : Q) : x / FIXED_TIME_STEP == x * (3 # 50).
Proof. unfold Qdiv. change (/ FIXED_TIME_STEP) with (60 # 1000). lra. Qed.

Lemma step_value : FIXED_TIME_STEP == 50 # 3.
Proof. reflexivity. Qed.

Lemma Qfloor_unique (n : Z) (x : Q) :
  inject_Z n <= x -> x < inject_Z n + 1 -> Qfloor x = n.
Proof.
  intros Hlo Hhi.
  pose proof (Qfloor_le x) as Hf. pose proof (Qlt_floor x) as Hc.
  rewrite inject_Z_plus in Hc. change (inject_Z 1) with 1 in Hc.
  assert (H1 : inject_Z n < inject_Z (Qfloor x) + 1) by lra.
  assert (H2 : inject_Z (Qfloor x) < inject_Z n + 1) by lra.
  change 1 with (inject_Z 1) in H1, H2.
  rewrite <- inject_Z_plus in H1, H2.
  rewrite <- Zlt_Qlt in H1, H2. lia.
Qed.

Lemma Qfloor_pred (x : Q) : Qfloor (x - 1) = (Qfloor x - 1)%Z.
Proof.
  pose proof (Qfloor_le x) as Hf. pose proof (Qlt_floor x) as Hc.
  rewrite inject_Z_plus in Hc. change (inject_Z 1) with 1 in Hc.
  replace (Qfloor x - 1)%Z with (Qfloor x + (-1))%Z by lia.
  apply Qfloor_unique; rewrite inject_Z_plus;
    change (inject_Z (-1)) with (-1 # 1); lra.
Qed.

Lemma floor_after_step (acc : Q) :
  Qfloor ((acc - FIXED_TIME_STEP) / FIXED_TIME_STEP)
  = (Qfloor (acc / FIXED_TIME_STEP) - 1)%Z.
Proof.
  rewrite <- Qfloor_pred. apply Qfloor_comp.
  rewrite !div_step, step_value. lra.
Qed.

Lemma floor_ge_1 (acc : Q) :
  FIXED_TIME_STEP <= acc -> (1 <= Qfloor (acc / FIXED_TIME_STEP))%Z.
Proof.
  intros H. change 1%Z with (Qfloor (inject_Z 1)). apply Qfloor_resp_le.
  rewrite div_step. change (inject_Z 1) with 1.
  rewrite step_value in H. lra.
Qed.

Lemma measure_decreases (acc : Q) :
  FIXED_TIME_STEP <= acc ->
  (Z.to_nat (Qfloor ((acc - FIXED_TIME_STEP) / FIXED_TIME_STEP))
   < Z.to_nat (Qfloor (acc / FIXED_TIME_STEP)))%nat.
Proof.
  intros H. rewrite floor_after_step. pose proof (floor_ge_1 acc H). lia.
Qed.

Section Loop.

(** The state the user's callbacks work on (the game and its canvas). *)
Context {G : Type}.

(** A user callback: it is handed a number, changes the game state, and
    returns normally ([None]) or throws ([Some e]). *)
Definition Callback : Type := Q -> G -> G * option exn.

Record GameLoopConfig : Type := mkGameLoopConfig {
  cfg_canvas : bool;  (* config.canvas instanceof HTMLCanvasElement *)
  cfg_update : option Callback;
  cfg_render : option Callback;
  cfg_targetFPS : option Q
}.

Record GameLoop : Type := mkGameLoop {
  update : Callback;
  render : Callback;
  targetFPS : Q;
  frameTime : Q;
  accumulator : Q;
  lastTime : Q;
  running : bool;
  fps : Z;
  frameCount : Z;
  lastFPSUpdate : Q
}.

Definition set_accumulator (g : GameLoop) (a : Q) : GameLoop :=
  mkGameLoop (update g) (render g) (targetFPS g) (frameTime g) a (lastTime g)
    (running g) (fps g) (frameCount g) (lastFPSUpdate g).

Definition set_lastTime (g : GameLoop) (t : Q) : GameLoop :=
  mkGameLoop (update g) (render g) (targetFPS g) (frameTime g) (accumulator g) t
    (running g) (fps g) (frameCount g) (lastFPSUpdate g).

Definition set_running (g : GameLoop) (b : bool) : GameLoop :=
  mkGameLoop (update g) (render g) (targetFPS g) (frameTime g) (accumulator g)
    (lastTime g) b (fps g) (frameCount g) (lastFPSUpdate g).

Definition set_fps (g : GameLoop) (n : Z) : GameLoop :=
  mkGameLoop (update g) (render g) (targetFPS g) (frameTime g) (accumulator g)
    (lastTime g) (running g) n (frameCount g) (lastFPSUpdate g).

Definition set_frameCount (g : GameLoop) (n : Z) : GameLoop :=
  mkGameLoop (update g) (render g) (targetFPS g) (frameTime g) (accumulator g)
    (lastTime g) (running g) (fps g) n (lastFPSUpdate g).

Definition set_lastFPSUpdate (g : GameLoop) (t : Q) : GameLoop :=
  mkGameLoop (update g) (render g) (targetFPS g) (frameTime g) (accumulator g)
    (lastTime g) (running g) (fps g) (frameCount g) t.

(** [new GameLoop(config)], with [_validateConfig]. *)
Definition new (config : option GameLoopConfig)
  : completion GameLoop * list event :=
  match config with
  | None => (Throw (Error "GameLoop configuration is required"), [])
  | Some c =>
      if negb (cfg_canvas c)
      then (Throw (Error "Valid canvas element is required"), [])
      else
        match cfg_update c, cfg_render c with
        | None, _ => (Throw (Error "Update function is required"), [])
        | Some _, None => (Throw (Error "Render function is required"), [])
        | Some u, Some r =>
            let target := match cfg_targetFPS c with
                          | Some q => if Qeq_bool q 0 then 60 else q
                          | None => 60
                          end in
            (Return (mkGameLoop u r target (1000 / target) 0 0 false
                       0%Z 0%Z 0),
             [addEventListener])
        end
  end.

(** [start()]; [now] is what [performance.now()] answers. *)
Definition start (now : Q) (g : GameLoop) : GameLoop * list event :=
  if running g then (g, [])
  else
    (set_lastFPSUpdate (set_lastTime (set_running g true) now) now,
     [requestAnimationFrame]).

(** [stop()]. *)
Definition stop (g : GameLoop) : GameLoop := set_running g false.

(** The [while (this.accumulator >= FIXED_TIME_STEP)] loop of [_loop], with
    its [try]/[catch]. It yields the accumulator and game state it ends
    with, what it did, and the error it rethrew, if any. *)
Equations? update_steps (upd : Callback) (acc : Q) (s : G)
  : Q * G * list event * option exn
  by wf (Z.to_nat (Qfloor (acc / FIXED_TIME_STEP))) lt :=
update_steps upd acc s with Qlt_le_dec acc FIXED_TIME_STEP => {
  | left _ := (acc, s, [], None);
  | right Hge with upd (FIXED_TIME_STEP / 1000) s => {
    | (s', None) :=
        let '(acc', s'', evs, thrown) :=
          update_steps upd (acc - FIXED_TIME_STEP) s' in
        (acc', s'', update_called (FIXED_TIME_STEP / 1000) :: evs, thrown);
    | (s', Some e) :=
        (acc, s',
         [update_called (FIXED_TIME_STEP / 1000);
          console_error "Error in update loop:" e],
         Some e) } }.
Proof. apply measure_decreases. exact Hge. Qed.

(** [_loop(currentTime)]: one scheduled frame. *)
Definition _loop (currentTime : Q) (g : GameLoop) (s : G)
  : GameLoop * G * list event * completion unit :=
  if negb (running g) then (g, s, [], Return tt)
  else
    let frameTime := currentTime - lastTime g in
    let frameTime := Qmin frameTime MAX_FRAME_TIME in
    let g := set_lastTime g currentTime in
    let g := set_frameCount g (frameCount g + 1)%Z in
    let g :=
      if Qle_bool 1000 (currentTime - lastFPSUpdate g)
      then set_lastFPSUpdate (set_frameCount (set_fps g (frameCount g)) 0%Z)
             currentTime
      else g in
    let g := set_accumulator g (accumulator g + frameTime) in
    let '(acc, s, evs, thrown) := update_steps (update g) (accumulator g) s in
    let g := set_accumulator g acc in
    match thrown with
    | Some e => (stop g, s, evs, Throw e)
    | None =>
        let alpha := accumulator g / FIXED_TIME_STEP in
        match render g alpha s with
        | (s, None) =>
            (g, s, evs ++ [clearRect; render_called alpha;
                            requestAnimationFrame], Return tt)
        | (s, Some e) =>
            (stop g, s,
             evs ++ [clearRect; render_called alpha;
                     console_error "Error in render loop:" e], Throw e)
        end
    end.


(** [destroy()]. *)
Definition destroy (g : GameLoop) : GameLoop * list event :=
  (stop g, [removeEventListener]).

Definition getFPS (g : GameLoop) : Z := fps g.

(** A host that invokes the frame callback once for every timestamp of
    [ts], in turn; it keeps what each frame did. (A frame that finds the
    loop stopped does nothing, so it does not matter whether the host would
    still have had a callback to invoke.) *)
Fixpoint frames (ts : list Q) (g : GameLoop) (s : G)
  : GameLoop * G * list (list event) :=
  match ts with
  | [] => (g, s, [])
  | t :: ts' =>
      let '(g', s', evs, _) := _loop t g s in
      let '(g'', s'', evss) := frames ts' g' s' in
      (g'', s'', evs :: evss)
  end.

(** The real time a loop whose last frame was at [last] is handed by
    frames at the timestamps [ts], each delta clamped as [_loop] does. *)
Fixpoint clamped_time (last : Q) (ts : list Q) : Q :=
  match ts with
  | [] => 0
  | t :: ts' => Qmin (t - last) MAX_FRAME_TIME + clamped_time t ts'
  end.

(** The loop [g] with other values in [targetFPS] and [frameTime]. *)
Definition retarget (target time : Q) (g : GameLoop) : GameLoop :=
  mkGameLoop (update g) (render g) target time (accumulator g) (lastTime g)
    (running g) (fps g) (frameCount g) (lastFPSUpdate g).

(** The configuration [c] with another value for the key [targetFPS]. *)
Definition with_targetFPS (target : option Q) (c : GameLoopConfig)
  : GameLoopConfig :=
  mkGameLoopConfig (cfg_canvas c) (cfg_update c) (cfg_render c) target.

(** How many times a frame invoked the update callback, and with what. *)
Definition update_args (evs : list event) : list Q :=
  omap (fun ev => match ev with update_called dt => Some dt | _ => None end)
    evs.

End Loop.

Arguments GameLoop G : clear implicits.
Arguments GameLoopConfig G : clear implicits.
Arguments Callback G : clear implicits.

(** *** Sample loops: the game state counts the updates that completed *)

Definition counting_update : Callback nat := fun _ n => (S n, None).

Definition quiet_render : Callback nat := fun _ n => (n, None).

Definition failing_update : Callback nat :=
  fun _ n => (n, Some (Error "boom")).

Definition failing_render : Callback nat :=
  fun _ n => (n, Some (Error "boom")).

(** A loop with callbacks [u] and [r], started at time 0. *)
Definition started (u r : Callback nat) : GameLoop nat :=
  fst (start 0 (mkGameLoop u r 60 (1000 / 60) 0 0 false 0%Z 0%Z 0)).

Definition sample_loop : GameLoop nat := started counting_update quiet_render.

Definition failing_loop : GameLoop nat := started failing_update quiet_render.

Definition failing_render_loop : GameLoop nat :=
  started counting_update failing_render.


Definition stalled_frame : GameLoop nat * nat * list event * completion unit :=
  _loop 500 sample_loop 0%nat.

Definition failing_frame : GameLoop nat * nat * list event * completion unit :=
  _loop 50 failing_loop 0%nat.

Definition failing_render_frame
  : GameLoop nat * nat * list event * completion unit :=
  _loop 50 failing_render_loop 0%nat.

(** A configuration without [targetFPS], and the loop built from it. *)
Definition counting_config : GameLoopConfig nat :=
  mkGameLoopConfig true (Some counting_update) (Some quiet_render) None.

Definition unstarted : GameLoop nat :=
  mkGameLoop counting_update quiet_render 60 (1000 / 60) 0 0 false 0%Z 0%Z 0.

End GameLoop.

(** ** Host functions of the particle classes *)

(** [Math.PI], [Math.cos], [Math.sin] and [Math.random] are not rational
    functions; the particle classes are embedded over any choice of them.
    [random n] is what the [n]-th call of [Math.random()] answers. *)
Record Host : Type := mkHost {
  Math_PI : Q;
  Math_cos : Q -> Q;
  Math_sin : Q -> Q;
  random : nat -> Q
}.

(** Destructuring with a default: only [undefined] takes the default. *)
Definition default_to {A : Type} (d : A) (o : option A) : A :=
  match o with Some a => a | None => d end.

(** [q || d] on an optional number. *)
Definition or_defaultQ (o : option Q) (d : Q) : Q :=
  match o with
  | Some q => if Qeq_bool q 0 then d else q
  | None => d
  end.

(** A sample host: fixed answers, enough to run the classes. *)
Definition sample_host : Host :=
  mkHost 3%Q (fun _ => 1%Q) (fun _ => 0%Q) (fun _ => 0.5%Q).

(** ** ParticleSystem (the particle-system source) *)

Module ParticleSystem.

Open Scope Q_scope.

Record Config : Type := mkConfig {
  MAX_PARTICLES : Z;
  PARTICLE_LIFETIME : Q;
  BATCH_SIZE : Z;
  OPTIMIZATION_THRESHOLD : Q
}.

Definition DEFAULT_CONFIG : Config := mkConfig 1000 2000 100 60.

(** [options.config]: the keys it overrides. *)
Record ConfigOverrides : Type := mkConfigOverrides {
  o_MAX_PARTICLES : option Z;
  o_PARTICLE_LIFETIME : option Q;
  o_BATCH_SIZE : option Z;
  o_OPTIMIZATION_THRESHOLD : option Q
}.

Record Particle : Type := mkParticle {
  x : Q;
  y : Q;
  velocity : Q;
  angle : Q;
  color : string;
  size : Q;
  lifetime : Q;
  birth : Q;
  dead : bool
}.

(** The system. [particles] is a JavaScript [Set] of objects: every
    [new Particle] is a reference of its own, so adding one always makes the
    set one larger, whatever its fields; the list keeps insertion order. *)
Record ParticleSystem : Type := mkParticleSystem {
  config : Config;
  particles : list Particle;
  lastUpdate : Q;
  isRunning : bool;
  frameCount : Z
}.

Definition particles_size (ps : ParticleSystem) : Z :=
  Z.of_nat (length (particles ps)).

(** [new ParticleSystem(options)]; [canvas] says whether [options.canvas]
    is there, [now] is what [performance.now()] answers. *)
Definition new (canvas : bool) (overrides : option ConfigOverrides) (now : Q)
  : completion ParticleSystem :=
  if negb canvas
  then Throw (Error "ParticleSystem requires a canvas element")
  else
    let d := DEFAULT_CONFIG in
    let c :=
      match overrides with
      | None => d
      | Some o =>
          mkConfig (default_to (MAX_PARTICLES d) (o_MAX_PARTICLES o))
            (default_to (PARTICLE_LIFETIME d) (o_PARTICLE_LIFETIME o))
            (default_to (BATCH_SIZE d) (o_BATCH_SIZE o))
            (default_to (OPTIMIZATION_THRESHOLD d) (o_OPTIMIZATION_THRESHOLD o))
      end in
    Return (mkParticleSystem c [] now false 0%Z).

(** The [options] argument of [createExplosion]. *)
Record ExplosionOptions : Type := mkExplosionOptions {
  opt_count : option Z;
  opt_color : option string;
  opt_size : option Q;
  opt_velocity : option Q
}.

Definition no_options : ExplosionOptions :=
  mkExplosionOptions None None None None.

Section Host.

Variable host : Host.

(** The [for (let i = 0; i < count; i++)] loop of [createExplosion], with
    [n] iterations left before [i] reaches [count]; [draws] counts the
    calls of [Math.random()] so far. *)
Fixpoint explosion_loop (n : nat) (i count : Z) (x y : Q) (color : string)
  (size velocity : Q) (now : Q) (cfg : Config) (parts : list Particle)
  (draws : nat) : list Particle * nat :=
  match n with
  | O => (parts, draws)
  | S n' =>
      if (MAX_PARTICLES cfg <=? Z.of_nat (length parts))%Z
      then (parts, draws)
      else
        let angle := (Math_PI host * 2 * inject_Z i) / inject_Z count in
        let randomVelocity := velocity * (0.5 + random host draws * 0.5) in
        let particle :=
          mkParticle x y randomVelocity angle color size
            (PARTICLE_LIFETIME cfg * (0.8 + random host (S draws) * 0.4))
            now false in
        explosion_loop n' (i + 1)%Z count x y color size velocity now cfg
          (parts ++ [particle]) (S (S draws))
  end.

(** [createExplosion(x, y, options)]. It yields the system, the number of
    random draws, and the lines written with [console.warn]. *)
Definition createExplosion (x y : Q) (options : ExplosionOptions) (now : Q)
  (ps : ParticleSystem) (draws : nat) : ParticleSystem * nat * list string :=
  let count := default_to (BATCH_SIZE (config ps)) (opt_count options) in
  let color := default_to "#FF5733"%string (opt_color options) in
  let size := default_to 2 (opt_size options) in
  let velocity := default_to 200 (opt_velocity options) in
  let warned :=
    if (MAX_PARTICLES (config ps) <? particles_size ps + count)%Z
    then ["Particle limit reached, some particles may be skipped"%string]
    else [] in
  let '(parts, draws') :=
    explosion_loop (Z.to_nat count) 0%Z count x y color size velocity now
      (config ps) (particles ps) draws in
  (mkParticleSystem (config ps) parts (lastUpdate ps) (isRunning ps)
     (frameCount ps),
   draws', warned).

(** [Particle.update(deltaTime)] of the particle class of this source;
    [now] is what [performance.now()] answers. A dead particle returns
    before the clock is read. *)
Definition particle_update (deltaTime now : Q) (p : Particle)
  : bool * Particle :=
  if dead p then (false, p)
  else
    let age := now - birth p in
    if Qle_bool (lifetime p) age
    then (false,
          mkParticle (x p) (y p) (velocity p) (angle p) (color p) (size p)
            (lifetime p) (birth p) true)
    else
      let x' := x p + Math_cos host (angle p) * velocity p
                      * (deltaTime / 1000) in
      let y' := y p + Math_sin host (angle p) * velocity p
                      * (deltaTime / 1000) in
      (true,
       mkParticle x' y' (velocity p * 0.98) (angle p) (color p) (size p)
         (lifetime p) (birth p) false).

(** The clock: [clock n] is what the [n]-th call of [performance.now()]
    answers. *)
Definition Clock : Type := nat -> Q.

(** The [for (const particle of this.particles)] loop of [update];
    [ticks] counts the readings of the clock so far. A particle whose
    [update] returns false is deleted from the set, the others stay in
    their order. *)
Fixpoint update_each (clock : Clock) (deltaTime : Q) (parts : list Particle)
  (ticks : nat) : list Particle * nat :=
  match parts with
  | [] => ([], ticks)
  | p :: rest =>
      let '(alive, p') := particle_update deltaTime (clock ticks) p in
      let '(rest', ticks') :=
        update_each clock deltaTime rest (if dead p then ticks else S ticks) in
      (if alive then p' :: rest' else rest', ticks')
  end.

(** [update()]. *)
Definition update (clock : Clock) (ps : ParticleSystem) (ticks : nat)
  : ParticleSystem * nat :=
  let now := clock ticks in
  let deltaTime := now - lastUpdate ps in
  let '(parts, ticks') :=
    update_each clock deltaTime (particles ps) (S ticks) in
  (mkParticleSystem (config ps) parts now (isRunning ps) (frameCount ps),
   ticks').

(** [Array.from(this.particles).sort((a, b) => a.birth - b.birth)]: the
    members of the set, each with its place in the set as its identity,
    in ascending order of birth; members of equal birth keep their order
    (the sort of the language is stable). *)
Fixpoint insert_by_birth (p : nat * Particle) (l : list (nat * Particle))
  : list (nat * Particle) :=
  match l with
  | [] => [p]
  | q :: l' =>
      if Qle_bool (birth p.2) (birth q.2)
      then p :: q :: l'
      else q :: insert_by_birth p l'
  end.

Definition sort_by_birth (l : list (nat * Particle))
  : list (nat * Particle) :=
  foldr insert_by_birth [] l.

(** The number of particles that [optimize] removes from a set of
    [size]: [Math.floor(size * 0.2)]. *)
Definition optimize_count (size : nat) : nat :=
  Z.to_nat (Qfloor (inject_Z (Z.of_nat size) * 0.2)).

(** [oldestParticles]. *)
Definition oldestParticles (parts : list Particle) : list (nat * Particle) :=
  take (optimize_count (length parts)) (sort_by_birth (imap pair parts)).

(** [optimize()]: the members of [oldestParticles] are deleted from the
    set, the others stay as they are, in their order. *)
Definition optimize (ps : ParticleSystem) : ParticleSystem :=
  if Qle_bool (inject_Z (particles_size ps))
       (inject_Z (MAX_PARTICLES (config ps)) / 2)
  then ps
  else
    let oldest := (oldestParticles (particles ps)).*1 in
    let kept :=
      filter (fun ip : nat * Particle => ip.1 ∉ oldest)
        (imap pair (particles ps)) in
    mkParticleSystem (config ps) kept.*2 (lastUpdate ps) (isRunning ps)
      (frameCount ps).

(** [monitorPerformance()]. A division of 1000 by zero gives [Infinity],
    which is below no threshold. *)
Definition monitorPerformance (clock : Clock) (ps : ParticleSystem)
  (ticks : nat) : ParticleSystem * nat :=
  let elapsed := clock ticks - lastUpdate ps in
  if Qeq_bool elapsed 0 then (ps, S ticks)
  else
    let fps := 1000 / elapsed in
    match Qlt_le_dec fps (OPTIMIZATION_THRESHOLD (config ps)) with
    | left _ => (optimize ps, S ticks)
    | right _ => (ps, S ticks)
    end.

(** What a frame does to the host: it draws the particles of the set and
    asks for the next frame. *)
Inductive event : Type :=
| rendered (parts : list Particle)
| requestAnimationFrame.

(** One call of [animate()]. *)
Definition animate (clock : Clock) (ps : ParticleSystem) (ticks : nat)
  : ParticleSystem * nat * list event :=
  if negb (isRunning ps) then (ps, ticks, [])
  else
    let '(ps1, ticks1) := update clock ps ticks in
    let ps2 :=
      mkParticleSystem (config ps1) (particles ps1) (lastUpdate ps1)
        (isRunning ps1) (frameCount ps1 + 1) in
    let '(ps3, ticks3) :=
      if (Z.rem (frameCount ps2) 60 =? 0)%Z
      then monitorPerformance clock ps2 ticks1
      else (ps2, ticks1) in
    (ps3, ticks3, [rendered (particles ps1); requestAnimationFrame]).

(** [start()], with the first call of [animate]. *)
Definition start (clock : Clock) (ps : ParticleSystem) (ticks : nat)
  : ParticleSystem * nat * list event :=
  if isRunning ps then (ps, ticks, [])
  else
    animate clock
      (mkParticleSystem (config ps) (particles ps) (clock ticks) true
         (frameCount ps))
      (S ticks).

(** [stop()]. *)
Definition stop (ps : ParticleSystem) : ParticleSystem :=
  mkParticleSystem (config ps) (particles ps) (lastUpdate ps) false
    (frameCount ps).

(** [dispose()] (the canvas context it drops is not part of the model). *)
Definition dispose (ps : ParticleSystem) : ParticleSystem :=
  mkParticleSystem (config ps) [] (lastUpdate ps) false (frameCount ps).

(** What a user of the system may do to it. *)
Inductive op : Type :=
| Explode (x y : Q) (options : ExplosionOptions) (now : Q)
| Update
| Dispose.

(** The system together with the calls of [Math.random()] and the
    readings of the clock so far. *)
Definition apply_op (clock : Clock) (o : op)
  (st : ParticleSystem * nat * nat) : ParticleSystem * nat * nat :=
  let '(ps, draws, ticks) := st in
  match o with
  | Explode x y options now =>
      let '(ps', draws', _) := createExplosion x y options now ps draws in
      (ps', draws', ticks)
  | Update => let '(ps', ticks') := update clock ps ticks in (ps', draws, ticks')
  | Dispose => (dispose ps, draws, ticks)
  end.

Definition apply_ops (clock : Clock) (os : list op)
  (st : ParticleSystem * nat * nat) : ParticleSystem * nat * nat :=
  foldl (fun st o => apply_op clock o st) st os.

End Host.

(** *** Sample systems *)

(** [createExplosion(0, 0, { count })]. *)
Definition burst (count : Z) : ExplosionOptions :=
  mkExplosionOptions (Some count) None None None.

(** A system with a cap of five particles, three of them in use. *)
Definition capped_system : ParticleSystem :=
  (createExplosion sample_host 0 0 (burst 3) 0
     (mkParticleSystem (mkConfig 5 2000 100 60) [] 0 false 0%Z) 0).1.1.

(** Six particles born at 30, 10, 20, 10, 50 and 40 ms, under a cap of
    ten; the system is running and has drawn 59 frames. *)
Definition aged_system : ParticleSystem :=
  mkParticleSystem (mkConfig 10 2000 100 60)
    ((fun b => mkParticle 0 0 1 0 "#FF5733" 2 2000 b false)
       <$> [30; 10; 20; 10; 50; 40])
    0 true 59.

(** A clock that advances by 600 ms from one reading to the next. *)
Definition sample_clock : Clock := fun n => inject_Z (Z.of_nat n) * 600.

(** Whether the lifetime of [p] is over at time [t]. *)
Definition expired_at (t : Q) (p : Particle) : bool :=
  Qle_bool (lifetime p) (t - birth p).

Definition unexpired (t : Q) (p : Particle) : Prop := expired_at t p = false.

#[export] Instance unexpired_dec t p : Decision (unexpired t p).
Proof. unfold unexpired. apply _. Defined.

Definition live (p : Particle) : Prop := dead p = false.

(** A clock that never runs backwards. *)
Definition monotone (clock : Clock) : Prop :=
  forall i j, (i <= j)%nat -> clock i <= clock j.

(** In ascending order of birth. *)
Fixpoint by_birth (l : list (nat * Particle)) : Prop :=
  match l with
  | [] => True
  | p :: l' => Forall (fun q => birth p.2 <= birth q.2) l' /\ by_birth l'
  end.

(** The set is within the cap and holds live particles only. *)
Definition within_cap (ps : ParticleSystem) : Prop :=
  (particles_size ps <= Z.max 0 (MAX_PARTICLES (config ps)))%Z
  /\ Forall live (particles ps).

End ParticleSystem.

(** ** ParticleEmitter (src/effects/ParticleEmitter.js) *)

Module ParticleEmitter.

Open Scope Q_scope.

Record Particle : Type := mkParticle {
  x : Q;
  y : Q;
  vx : Q;
  vy : Q;
  life : Q;
  maxLife : Q;
  size : Q;
  color : string;
  opacity : Q
}.

Record ParticleEmitter : Type := mkParticleEmitter {
  e_x : Q;
  e_y : Q;
  e_lifetime : Q;
  e_speed : Q;
  e_size : Q;
  e_color : string;
  e_spread : Q;
  e_gravity : Q;
  e_opacity : Q;
  particles : list Particle;
  isActive : bool;
  lastUpdate : Q
}.

Definition set_particles (em : ParticleEmitter) (l : list Particle)
  : ParticleEmitter :=
  mkParticleEmitter (e_x em) (e_y em) (e_lifetime em) (e_speed em) (e_size em)
    (e_color em) (e_spread em) (e_gravity em) (e_opacity em) l (isActive em)
    (lastUpdate em).

Definition set_isActive (em : ParticleEmitter) (b : bool) : ParticleEmitter :=
  mkParticleEmitter (e_x em) (e_y em) (e_lifetime em) (e_speed em) (e_size em)
    (e_color em) (e_spread em) (e_gravity em) (e_opacity em) (particles em) b
    (lastUpdate em).

Definition set_lastUpdate (em : ParticleEmitter) (t : Q) : ParticleEmitter :=
  mkParticleEmitter (e_x em) (e_y em) (e_lifetime em) (e_speed em) (e_size em)
    (e_color em) (e_spread em) (e_gravity em) (e_opacity em) (particles em)
    (isActive em) t.

Definition particleCount (em : ParticleEmitter) : Z :=
  Z.of_nat (length (particles em)).

Section Host.

Variable host : Host.

(** [createParticle()]. *)
Definition createParticle (em : ParticleEmitter) (draws : nat)
  : ParticleEmitter * nat :=
  let angle := (random host draws * e_spread em * Math_PI host) / 180 in
  let speed := e_speed em * (0.5 + random host (S draws)) in
  let particle :=
    mkParticle (e_x em) (e_y em) (Math_cos host angle * speed)
      (Math_sin host angle * speed) (e_lifetime em) (e_lifetime em)
      (e_size em * (0.8 + random host (S (S draws)) * 0.4)) (e_color em)
      (e_opacity em) in
  (set_particles em (particles em ++ [particle]), S (S (S draws))).

(** What [update] does to one particle. *)
Definition update_particle (em : ParticleEmitter) (deltaTime : Q)
  (p : Particle) : Particle :=
  let x' := x p + vx p * (deltaTime / 16) in
  let y' := y p + vy p * (deltaTime / 16) in
  let vy' := vy p + e_gravity em * (deltaTime / 16) in
  let life' := life p - deltaTime in
  mkParticle x' y' (vx p) vy' life' (maxLife p) (size p) (color p)
    ((life' / maxLife p) * e_opacity em).

(** [update(deltaTime)]. *)
Definition update (deltaTime : Q) (em : ParticleEmitter) : ParticleEmitter :=
  let stepped := map (update_particle em deltaTime) (particles em) in
  let em := set_particles em
              (filter (fun p => negb (Qle_bool (life p) 0)) stepped) in
  match particles em with
  | [] => set_isActive em false
  | _ :: _ => em
  end.

(** [animate()]; the second component says whether it asked for another
    animation frame. *)
Definition animate (now : Q) (em : ParticleEmitter) : ParticleEmitter * bool :=
  if negb (isActive em) then (em, false)
  else
    let deltaTime := now - lastUpdate em in
    let em := set_lastUpdate em now in
    (update deltaTime em, true).

(** The [for] loop of [emit]. *)
Fixpoint emit_loop (n : nat) (em : ParticleEmitter) (draws : nat)
  : ParticleEmitter * nat :=
  match n with
  | O => (em, draws)
  | S n' => let '(em', draws') := createParticle em draws in
            emit_loop n' em' draws'
  end.

(** [emit(count = 1)]. *)
Definition emit (count : option Z) (now : Q) (em : ParticleEmitter)
  (draws : nat) : ParticleEmitter * nat :=
  let count := default_to 1%Z count in
  if (count <? 1)%Z then (em, draws)
  else
    let '(em, draws) := emit_loop (Z.to_nat count) em draws in
    if negb (isActive em)
    then (fst (animate now (set_isActive em true)), draws)
    else (em, draws).

(** [stop()]. *)
Definition stop (em : ParticleEmitter) : ParticleEmitter :=
  set_particles (set_isActive em false) [].

(** What a user and the host do to an emitter: [emit(count)], a frame of
    the animation ([animate], called back by the host), [stop()]. [now]
    is what [performance.now()] answers during the call. *)
Inductive op : Type :=
| Emit (count : option Z) (now : Q)
| Frame (now : Q)
| Stop.

(** The emitter together with the calls of [Math.random()] so far. *)
Definition apply_op (o : op) (st : ParticleEmitter * nat)
  : ParticleEmitter * nat :=
  match o with
  | Emit count now => emit count now st.1 st.2
  | Frame now => ((animate now st.1).1, st.2)
  | Stop => (stop st.1, st.2)
  end.

Definition apply_ops (os : list op) (st : ParticleEmitter * nat)
  : ParticleEmitter * nat :=
  foldl (fun st o => apply_op o st) st os.

End Host.

(** The configuration object of the constructor: a key that is missing
    (or, for [x] and [y], not a number) is [None]. *)
Record EmitterConfig : Type := mkEmitterConfig {
  c_x : option Q;
  c_y : option Q;
  c_lifetime : option Q;
  c_speed : option Q;
  c_size : option Q;
  c_color : option string;
  c_spread : option Q;
  c_gravity : option Q;
  c_opacity : option Q
}.

(** [s || d] on an optional string: the empty string is falsy. *)
Definition or_default_string (o : option string) (d : string) : string :=
  match o with
  | Some EmptyString => d
  | Some s => s
  | None => d
  end.

(** [validateConfig(config)]. *)
Definition validateConfig (c : EmitterConfig) : completion unit :=
  match c_x c, c_y c with
  | Some _, Some _ => Return tt
  | _, _ => Throw (Error "Position (x, y) must be specified as numbers")
  end.

(** [new ParticleEmitter(config)]; [None] is a [config] that is no
    object, [now] is what [performance.now()] answers. *)
Definition new (config : option EmitterConfig) (now : Q)
  : completion ParticleEmitter :=
  match config with
  | None => Throw (Error "ParticleEmitter requires a configuration object")
  | Some c =>
      match validateConfig c with
      | Throw e => Throw e
      | Return _ =>
          Return
            (mkParticleEmitter (default_to 0 (c_x c)) (default_to 0 (c_y c))
               (or_defaultQ (c_lifetime c) 2000) (or_defaultQ (c_speed c) 5)
               (or_defaultQ (c_size c) 5)
               (or_default_string (c_color c) "#ffffff")
               (or_defaultQ (c_spread c) 360) (or_defaultQ (c_gravity c) 0.5)
               (or_defaultQ (c_opacity c) 1) [] false now)
      end
  end.

(** The times of a sequence of calls never run backwards, from [t] on. *)
Fixpoint in_order (t : Q) (os : list op) : Prop :=
  match os with
  | [] => True
  | Emit _ now :: os' => t <= now /\ in_order now os'
  | Frame now :: os' => t <= now /\ in_order now os'
  | Stop :: os' => in_order t os'
  end.

(** The settings of an emitter: what the constructor takes from the
    configuration object. *)
Definition settings (em : ParticleEmitter)
  : Q * Q * Q * Q * Q * string * Q * Q * Q :=
  (e_x em, e_y em, e_lifetime em, e_speed em, e_size em, e_color em,
   e_spread em, e_gravity em, e_opacity em).

(** A particle as [createParticle] makes it. *)
Definition as_built (em : ParticleEmitter) (p : Particle) : Prop :=
  life p = e_lifetime em /\ maxLife p = e_lifetime em
  /\ opacity p = e_opacity em.

(** The particles that [update] keeps. *)
Definition alive (p : Particle) : Prop :=
  Is_true (negb (Qle_bool (life p) 0)).

(** What holds of the particles of an emitter between calls. *)
Definition well_formed (em : ParticleEmitter) : Prop :=
  Forall (fun p => 0 < life p /\ life p <= maxLife p
                   /\ maxLife p = e_lifetime em
                   /\ 0 < opacity p /\ opacity p <= e_opacity em)
    (particles em)
  /\ (isActive em = true <-> particles em <> []).

(** Well formed at time [t], with a positive lifetime and opacity. *)
Definition settled (t : Q) (em : ParticleEmitter) : Prop :=
  well_formed em /\ lastUpdate em <= t
  /\ 0 < e_lifetime em /\ 0 < e_opacity em.

(** *** A sample emitter: running, with two particles *)

Definition running_emitter : ParticleEmitter :=
  (emit_loop sample_host 2
     (mkParticleEmitter 0 0 2000 5 5 "#ffffff" 360 0.5 1 [] true 0) 0).1.

(** An emitter at (10, 20) with no gravity asked for, built at time 0. *)
Definition weightless : EmitterConfig :=
  mkEmitterConfig (Some 10) (Some 20) None None None None None (Some 0) None.

Definition idle_emitter : ParticleEmitter :=
  match new (Some weightless) 0 with
  | Return em => em
  | Throw _ => mkParticleEmitter 0 0 0 0 0 "" 0 0 0 [] false 0
  end.

End ParticleEmitter.

(** ** Particle, the pooled particle class (module effects/Particle) *)

Module Particle.

Open Scope Q_scope.

Record ParticleConfig : Type := mkParticleConfig {
  c_x : option Q;  (* [None]: not a number *)
  c_y : option Q;
  c_size : option Q;
  c_lifetime : option Q;
  c_color : option string;
  c_speed : option Q;
  c_angle : option Q;
  c_gravity : option Q;
  c_alpha : option Q
}.

Record Particle : Type := mkParticle {
  x : Q;
  y : Q;
  vx : Q;
  vy : Q;
  size : Q;
  color : string;
  alpha : Q;
  gravity : Q;
  drag : Q;
  lifetime : Q;
  elapsed : Q;
  active : bool
}.

(** The instances that exist, by reference, and the private static
    [#pool] of the class, an array of references in index order. *)
Record Store : Type := mkStore {
  objs : gmap nat Particle;
  pool : list nat
}.

(** The private static [#poolSize]. *)
Definition poolSize : nat := 1000.

(** [static recycle(particle)]. *)
Definition recycle (particle : nat) (st : Store) : Store :=
  if (length (pool st) <? poolSize)%nat
  then mkStore (objs st) (pool st ++ [particle])
  else st.

(** [constructor()]. *)
Definition constructed : Particle :=
  mkParticle 0 0 0 0 2 "#ffffff" 1 0 0.98 1000 0 false.

Section Host.

Variable host : Host.

(** What [init(config)] does to the fields of [this]. *)
Definition init_fields (config : option ParticleConfig) (p : Particle)
  : completion Particle :=
  match config with
  | None => Throw (Error "Invalid particle configuration")
  | Some c =>
      match c_x c, c_y c with
      | Some x, Some y =>
          let size := default_to 2 (c_size c) in
          let lifetime := default_to 1000 (c_lifetime c) in
          let color := default_to "#ffffff"%string (c_color c) in
          let speed := default_to 1 (c_speed c) in
          let angle := default_to 0 (c_angle c) in
          let gravity := default_to 0 (c_gravity c) in
          let alpha := default_to 1 (c_alpha c) in
          Return (mkParticle x y (Math_cos host angle * speed)
                    (Math_sin host angle * speed) size color alpha gravity
                    (drag p) lifetime 0 true)
      | _, _ => Throw (Error "Particle position (x, y) must be numbers")
      end
  end.

(** [init(config)] on the instance [self]. *)
Definition init (config : option ParticleConfig) (self : nat) (st : Store)
  : completion unit * Store :=
  match objs st !! self with
  | None => (Return tt, st)
  | Some p =>
      match init_fields config p with
      | Return p' => (Return tt, mkStore (<[self := p']> (objs st)) (pool st))
      | Throw e => (Throw e, st)
      end
  end.

(** [static create(config)]: [this.#pool.pop() || new Particle()], then
    [init]. *)
Definition create (config : option ParticleConfig) (st : Store)
  : completion nat * Store :=
  let '(particle, st) :=
    match pool st with
    | [] =>
        let r := fresh (dom (objs st)) in
        (r, mkStore (<[r := constructed]> (objs st)) (pool st))
    | o0 :: l0 =>
        (List.last l0 o0, mkStore (objs st) (removelast (o0 :: l0)))
    end in
  match init config particle st with
  | (Return _, st') => (Return particle, st')
  | (Throw e, st') => (Throw e, st')
  end.

(** [update(deltaTime)] on the instance [self]. *)
Definition update (deltaTime : Q) (self : nat) (st : Store) : bool * Store :=
  match objs st !! self with
  | None => (false, st)
  | Some p =>
      if negb (active p) then (false, st)
      else
        let elapsed' := elapsed p + deltaTime in
        if Qle_bool (lifetime p) elapsed'
        then
          let p' := mkParticle (x p) (y p) (vx p) (vy p) (size p) (color p)
                      (alpha p) (gravity p) (drag p) (lifetime p) elapsed'
                      false in
          (false, recycle self (mkStore (<[self := p']> (objs st)) (pool st)))
        else
          let x' := x p + vx p in
          let y' := y p + vy p in
          let vy' := vy p + gravity p in
          let vx'' := vx p * drag p in
          let vy'' := vy' * drag p in
          let alpha' := 1 - (elapsed' / lifetime p) in
          let p' := mkParticle x' y' vx'' vy'' (size p) (color p) alpha'
                      (gravity p) (drag p) (lifetime p) elapsed' true in
          (true, mkStore (<[self := p']> (objs st)) (pool st))
  end.

(** [destroy()] on the instance [self]. *)
Definition destroy (self : nat) (st : Store) : Store :=
  match objs st !! self with
  | None => st
  | Some p =>
      let p' := mkParticle (x p) (y p) (vx p) (vy p) (size p) (color p)
                  (alpha p) (gravity p) (drag p) (lifetime p) (elapsed p)
                  false in
      recycle self (mkStore (<[self := p']> (objs st)) (pool st))
  end.

(** A caller that updates the instance [self] once per entry of [dts]. *)
Definition updates (dts : list Q) (self : nat) (st : Store) : Store :=
  foldl (fun st dt => snd (update dt self st)) st dts.

(** What the users of the class do with it and with its instances. *)
Inductive op : Type :=
| Create (config : option ParticleConfig)
| Init (config : option ParticleConfig) (self : nat)
| Update (deltaTime : Q) (self : nat)
| Destroy (self : nat).

Definition apply_op (o : op) (st : Store) : Store :=
  match o with
  | Create config => (create config st).2
  | Init config self => (init config self st).2
  | Update deltaTime self => (update deltaTime self st).2
  | Destroy self => destroy self st
  end.

Definition apply_ops (os : list op) (st : Store) : Store :=
  foldl (fun st o => apply_op o st) st os.

End Host.

(** *** Sample particles *)

(** [{ x: 0, y: 0 }], optionally with an initial [alpha]. *)
Definition at_origin (alpha : option Q) : ParticleConfig :=
  mkParticleConfig (Some 0) (Some 0) None None None None None None alpha.

(** The class with one particle created from [config] and nothing in the
    static pool; the particle is the reference [0]. *)
Definition born (config : ParticleConfig) : Store :=
  (create sample_host (Some config) (mkStore ∅ [])).2.

(** The fields that particle starts with. *)
Definition newborn (config : ParticleConfig) : Particle :=
  match init_fields sample_host (Some config) constructed with
  | Return p => p
  | Throw _ => constructed
  end.

(** A particle created with alpha 0.5, after updates of 16, 16 and 0 ms. *)
Definition mature : Particle :=
  match
    objs (updates [16; 16; 0] 0%nat (born (at_origin (Some 0.5)))) !! 0%nat
  with
  | Some p => p
  | None => constructed
  end.

(** The same particle after updates of 1, 2 and 3 ms. *)
Definition young : Particle :=
  match
    objs (updates [1; 2; 3] 0%nat (born (at_origin (Some 0.5)))) !! 0%nat
  with
  | Some p => p
  | None => constructed
  end.

(** A store with one active particle, the reference [0], of lifetime
    1000 ms, and an empty static pool. *)
Definition one_particle : Store := born (at_origin None).

(** *** Vocabulary of the particle's properties *)

(** The static pool is within its bound and holds instances that exist. *)
Definition pool_ok (st : Store) : Prop :=
  (length (pool st) <= poolSize)%nat
  /\ forall o, o ∈ pool st -> is_Some (objs st !! o).

(** Two particles move alike. *)
Definition same_motion (p q : Particle) : Prop :=
  x p = x q /\ y p = y q /\ vx p = vx q /\ vy p = vy q
  /\ gravity p = gravity q /\ drag p = drag q.

(** What a particle that is still active may be relied on for. *)
Definition sound (p : Particle) : Prop :=
  active p = true → 0 <= elapsed p ∧ 0 <= alpha p ∧ alpha p <= 1.

(** The alpha of an active particle is the one computed from its age. *)
Definition faded (p : Particle) : Prop :=
  active p = true → alpha p == Qmax 0 (1 - elapsed p / lifetime p).

(** The initial alpha a configuration asks for, if any, is an opacity. *)
Definition opacity_given (config : option ParticleConfig) : Prop :=
  ∀ c a, config = Some c → c_alpha c = Some a → 0 <= a ∧ a <= 1.

End Particle.

(** ** The particle of ExplosionEffect (src/effects/ExplosionEffect.js) *)

Module ExplosionEffect.

Open Scope Q_scope.

Definition PARTICLE_COUNT : Z := 50.
Definition PARTICLE_SIZE : Q := 3.
Definition EXPLOSION_RADIUS : Q := 100.
Definition PARTICLE_LIFETIME : Q := 1000.
Definition PARTICLE_COLORS : list string :=
  ["#ff4400"; "#ff8800"; "#ffaa00"; "#ffcc00"]%string.
Definition GRAVITY : Q := 0.98.
Definition SPREAD_FACTOR : Q := 0.8.

Record ParticleOptions : Type := mkParticleOptions {
  spreadFactor : Q;
  opt_size : option Q;
  opt_lifetime : option Q;
  colors : list string
}.

Record Particle : Type := mkParticle {
  x : Q;
  y : Q;
  velocity_x : Q;
  velocity_y : Q;
  radius : Q;
  lifetime : Q;
  birth : Q;
  color : option string;  (* [None]: [undefined], an index out of range *)
  alpha : Q
}.

Section Host.

Variable host : Host.

(** [new Particle(x, y, options)]; [now] is what [Date.now()] answers. *)
Definition new (x y : Q) (options : ParticleOptions) (now : Q) (draws : nat)
  : Particle * nat :=
  let vx := (random host draws - 0.5) * spreadFactor options in
  let vy := (random host (S draws) - 0.5) * spreadFactor options in
  let index :=
    Qfloor (random host (S (S draws))
            * inject_Z (Z.of_nat (length (colors options)))) in
  (mkParticle x y vx vy
     (or_defaultQ (opt_size options) PARTICLE_SIZE)
     (or_defaultQ (opt_lifetime options) PARTICLE_LIFETIME)
     now
     (if (index <? 0)%Z then None else colors options !! Z.to_nat index)
     1,
   S (S (S draws))).

(** [update(deltaTime)]; [now] is what [Date.now()] answers. *)
Definition update (deltaTime : Q) (now : Q) (p : Particle) : bool * Particle :=
  let x' := x p + velocity_x p * deltaTime in
  let y' := y p + velocity_y p * deltaTime in
  let vy' := velocity_y p + GRAVITY * deltaTime * 0.001 in
  let age := now - birth p in
  let alpha' := Qmax 0 (1 - (age / lifetime p)) in
  (if Qlt_le_dec age (lifetime p) then true else false,
   mkParticle x' y' (velocity_x p) vy' (radius p) (lifetime p) (birth p)
     (color p) alpha').

End Host.

(** *** A sample particle, built at time 0 *)

Definition spark : Particle :=
  (new sample_host 0 0 (mkParticleOptions SPREAD_FACTOR None None
                          PARTICLE_COLORS) 0 0).1.

(** *** The class [ExplosionEffect] *)

Module Effect.

(** [this.config]: [DEFAULT_CONFIG] with the keys of the constructor's
    argument on top. *)
Record Config : Type := mkConfig {
  cfg_PARTICLE_COUNT : Z;
  cfg_PARTICLE_SIZE : Q;
  cfg_EXPLOSION_RADIUS : Q;
  cfg_PARTICLE_LIFETIME : Q;
  cfg_PARTICLE_COLORS : list string;
  cfg_GRAVITY : Q;
  cfg_SPREAD_FACTOR : Q
}.

Definition DEFAULT_CONFIG : Config :=
  mkConfig PARTICLE_COUNT PARTICLE_SIZE EXPLOSION_RADIUS PARTICLE_LIFETIME
    PARTICLE_COLORS GRAVITY SPREAD_FACTOR.

(** The constructor's argument: the keys it has. *)
Record ConfigOverrides : Type := mkConfigOverrides {
  o_PARTICLE_COUNT : option Z;
  o_PARTICLE_SIZE : option Q;
  o_EXPLOSION_RADIUS : option Q;
  o_PARTICLE_LIFETIME : option Q;
  o_PARTICLE_COLORS : option (list string);
  o_GRAVITY : option Q;
  o_SPREAD_FACTOR : option Q
}.

Definition no_overrides : ConfigOverrides :=
  mkConfigOverrides None None None None None None None.

Record ExplosionEffect : Type := mkExplosionEffect {
  config : Config;
  particles : list Particle;
  isActive : bool;
  lastUpdate : Q
}.

(** [validateConfig(config)]. *)
Definition validateConfig (c : ConfigOverrides) : completion unit :=
  if match o_PARTICLE_COUNT c with
     | Some n => negb (n =? 0)%Z && (n <? 0)%Z
     | None => false
     end
  then Throw (Error "Particle count must be positive")
  else
    if match o_PARTICLE_SIZE c with
       | Some s => negb (Qeq_bool s 0) && Qle_bool s 0
       | None => false
       end
    then Throw (Error "Particle size must be greater than 0")
    else Return tt.

(** [new ExplosionEffect(config)]. *)
Definition new (c : ConfigOverrides) : completion ExplosionEffect :=
  match validateConfig c with
  | Throw e => Throw e
  | Return _ =>
      let d := DEFAULT_CONFIG in
      Return
        (mkExplosionEffect
           (mkConfig
              (default_to (cfg_PARTICLE_COUNT d) (o_PARTICLE_COUNT c))
              (default_to (cfg_PARTICLE_SIZE d) (o_PARTICLE_SIZE c))
              (default_to (cfg_EXPLOSION_RADIUS d) (o_EXPLOSION_RADIUS c))
              (default_to (cfg_PARTICLE_LIFETIME d) (o_PARTICLE_LIFETIME c))
              (default_to (cfg_PARTICLE_COLORS d) (o_PARTICLE_COLORS c))
              (default_to (cfg_GRAVITY d) (o_GRAVITY c))
              (default_to (cfg_SPREAD_FACTOR d) (o_SPREAD_FACTOR c)))
           [] false 0)
  end.

(** The clock: [clock n] is what the [n]-th call of [Date.now()]
    answers. *)
Definition Clock : Type := nat -> Q.

Section Host.

Variable host : Host.

(** [Array.from({ length: n }, () => new Particle(x, y, options))];
    [ticks] counts the readings of the clock and [draws] the calls of
    [Math.random()] so far. *)
Fixpoint trigger_loop (n : nat) (x y : Q) (options : ParticleOptions)
  (clock : Clock) (ticks draws : nat) : list Particle * nat * nat :=
  match n with
  | O => ([], ticks, draws)
  | S n' =>
      let '(p, draws') :=
        ExplosionEffect.new host x y options (clock ticks) draws in
      let '(ps, ticks', draws'') :=
        trigger_loop n' x y options clock (S ticks) draws' in
      (p :: ps, ticks', draws'')
  end.

(** [trigger(x, y)]. *)
Definition trigger (x y : Q) (clock : Clock) (eff : ExplosionEffect)
  (ticks draws : nat) : ExplosionEffect * nat * nat :=
  let c := config eff in
  let options :=
    mkParticleOptions (cfg_SPREAD_FACTOR c) (Some (cfg_PARTICLE_SIZE c))
      (Some (cfg_PARTICLE_LIFETIME c)) (cfg_PARTICLE_COLORS c) in
  let '(ps, ticks', draws') :=
    trigger_loop (Z.to_nat (cfg_PARTICLE_COUNT c)) x y options clock ticks
      draws in
  (mkExplosionEffect c ps true (clock ticks'), S ticks', draws').

(** [this.particles.filter(particle => particle.update(deltaTime))]. *)
Fixpoint update_each (clock : Clock) (deltaTime : Q) (ps : list Particle)
  (ticks : nat) : list Particle * nat :=
  match ps with
  | [] => ([], ticks)
  | p :: rest =>
      let '(alive, p') := ExplosionEffect.update deltaTime (clock ticks) p in
      let '(rest', ticks') := update_each clock deltaTime rest (S ticks) in
      (if alive then p' :: rest' else rest', ticks')
  end.

(** [update()]. *)
Definition update (clock : Clock) (eff : ExplosionEffect) (ticks : nat)
  : bool * ExplosionEffect * nat :=
  if negb (isActive eff) then (false, eff, ticks)
  else
    let now := clock ticks in
    let deltaTime := now - lastUpdate eff in
    let '(ps, ticks') :=
      update_each clock deltaTime (particles eff) (S ticks) in
    let active := (0 <? length ps)%nat in
    (active, mkExplosionEffect (config eff) ps active now, ticks').

(** [dispose()]. *)
Definition dispose (eff : ExplosionEffect) : ExplosionEffect :=
  mkExplosionEffect (config eff) [] false (lastUpdate eff).

(** What a user does with an effect. *)
Inductive op : Type :=
| Trigger (x y : Q)
| Update
| Dispose.

(** The effect together with the readings of the clock and the calls of
    [Math.random()] so far. *)
Definition apply_op (clock : Clock) (o : op)
  (st : ExplosionEffect * nat * nat) : ExplosionEffect * nat * nat :=
  let '(eff, ticks, draws) := st in
  match o with
  | Trigger x y => trigger x y clock eff ticks draws
  | Update =>
      let '(_, eff', ticks') := update clock eff ticks in (eff', ticks', draws)
  | Dispose => (dispose eff, ticks, draws)
  end.

Definition apply_ops (clock : Clock) (os : list op)
  (st : ExplosionEffect * nat * nat) : ExplosionEffect * nat * nat :=
  foldl (fun st o => apply_op clock o st) st os.

End Host.

(** A clock that never runs backwards. *)
Definition monotone (clock : Clock) : Prop :=
  forall i j, (i <= j)%nat -> clock i <= clock j.

(** What holds of an effect when the clock has been read [ticks] times. *)
Definition well_formed (clock : Clock) (ticks : nat) (eff : ExplosionEffect)
  : Prop :=
  Forall (fun p => 0 <= alpha p /\ alpha p <= 1 /\ 0 < radius p
                   /\ birth p <= clock ticks)
    (particles eff)
  /\ (isActive eff = false -> particles eff = []).

(** The overrides [c] with other values for the keys [GRAVITY] and
    [EXPLOSION_RADIUS]. *)
Definition with_physics (gravity radius : option Q) (c : ConfigOverrides)
  : ConfigOverrides :=
  mkConfigOverrides (o_PARTICLE_COUNT c) (o_PARTICLE_SIZE c) radius
    (o_PARTICLE_LIFETIME c) (o_PARTICLE_COLORS c) gravity
    (o_SPREAD_FACTOR c).

(** Two effects that differ at most in the keys [GRAVITY] and
    [EXPLOSION_RADIUS] of their configuration. *)
Definition alike (eff eff' : ExplosionEffect) : Prop :=
  particles eff' = particles eff /\ isActive eff' = isActive eff
  /\ lastUpdate eff' = lastUpdate eff
  /\ cfg_PARTICLE_COUNT (config eff') = cfg_PARTICLE_COUNT (config eff)
  /\ cfg_PARTICLE_SIZE (config eff') = cfg_PARTICLE_SIZE (config eff)
  /\ cfg_PARTICLE_LIFETIME (config eff')
     = cfg_PARTICLE_LIFETIME (config eff)
  /\ cfg_PARTICLE_COLORS (config eff') = cfg_PARTICLE_COLORS (config eff)
  /\ cfg_SPREAD_FACTOR (config eff') = cfg_SPREAD_FACTOR (config eff).

(** An effect that is well formed and has an acceptable configuration. *)
Definition accepted (clock : Clock) (ticks : nat) (eff : ExplosionEffect)
  : Prop :=
  well_formed clock ticks eff
  /\ (0 <= cfg_PARTICLE_COUNT (config eff))%Z
  /\ 0 <= cfg_PARTICLE_SIZE (config eff).

(** A clock that advances by 100 ms from one reading to the next. *)
Definition sample_clock : Clock := fun n => inject_Z (Z.of_nat n) * 100.

(** An effect of three particles per explosion. *)
Definition three_sparks : ConfigOverrides :=
  mkConfigOverrides (Some 3%Z) (Some 0) None None None None None.

Definition sample_effect : ExplosionEffect :=
  match new three_sparks with
  | Return eff => eff
  | Throw _ => mkExplosionEffect DEFAULT_CONFIG [] false 0
  end.

End Effect.

End ExplosionEffect.

(** * Properties of ObjectPool *)

Module ObjectPoolProofs.

Import ObjectPool.

Section Facts.

Context {T : Type}.

Implicit Types (p : Pool T) (w : World T) (f : Factory T) (o : Obj).

(** *** The array as a list: what [pop] takes *)

Lemma last_cons (o0 d : Obj) (l0 : list Obj) :
  List.last (o0 :: l0) d = List.last l0 o0.
Proof.
  revert o0 d. induction l0 as [|a l IH]; intros o0 d; [done|].
  change (List.last (o0 :: a :: l) d) with (List.last (a :: l) d).
  by rewrite !(IH a).
Qed.

Lemma pop_spec (o0 : Obj) (l0 : list Obj) :
  o0 :: l0 = removelast (o0 :: l0) ++ [List.last l0 o0].
Proof.
  rewrite <- (last_cons o0 o0). by apply app_removelast_last.
Qed.

(** *** Calls of the factory *)

Lemma call_factory_calls f w r w' :
  call_factory f w = (r, w') → calls w' = S (calls w).
Proof.
  unfold call_factory.
  destruct (f (calls w)) as [[o v]|e]; intros [= <- <-]; done.
Qed.

Lemma call_factory_Return f w o w' :
  call_factory f w = (Return o, w') →
  ∃ v, f (calls w) = Return (o, v) ∧ heap w' = <[o := v]> (heap w).
Proof.
  unfold call_factory.
  destruct (f (calls w)) as [[o' v]|e]; intros [= <- <-]; eauto.
Qed.

Lemma built_mono f c0 c1 c2 o :
  (c1 ≤ c2)%nat → built f c0 c1 o → built f c0 c2 o.
Proof. intros ? (i & v & ? & ?). exists i, v. split; [lia|done]. Qed.

Lemma built_last f c0 c1 o v :
  (c0 ≤ c1)%nat → f c1 = Return (o, v) → built f c0 (S c1) o.
Proof. intros. exists c1, v. split; [lia|done]. Qed.

Lemma built_S f c0 c1 o :
  built f c0 (S c1) o → built f c0 c1 o ∨ ∃ v, f c1 = Return (o, v).
Proof.
  intros (i & v & ? & ?). destruct (decide (i = c1)) as [->|]; [right; eauto|].
  left. exists i, v. split; [lia|done].
Qed.

Lemma built_fresh f c0 c1 o v :
  fresh_factory f → f c1 = Return (o, v) → ¬ built f c0 c1 o.
Proof. intros Hf ? (i & v' & ? & ?). assert (i = c1) by eauto. lia. Qed.

(** *** The partition survives every way the pool changes its two sets *)

Lemma parts_skip f c0 l A c :
  parts f c0 l A c → (∀ o v, f c ≠ Return (o, v)) → parts f c0 l A (S c).
Proof.
  intros (Hc & Hnd & Hdisj & Hb) Hthrow.
  split; [lia|]. split; [done|]. split; [done|]. intros x. split.
  - intros H. apply (built_mono _ _ c); [lia|]. by apply Hb.
  - intros H. apply Hb. destruct (built_S _ _ _ _ H) as [|[v Hv]]; [done|].
    by destruct (Hthrow x v).
Qed.

Lemma parts_push f c0 l A c o v :
  fresh_factory f → parts f c0 l A c → f c = Return (o, v) →
  parts f c0 (l ++ [o]) A (S c).
Proof.
  intros Hf (Hc & Hnd & Hdisj & Hb) Hv.
  pose proof (built_fresh f c0 c o v Hf Hv) as Hnew.
  assert (o ∉ l) by (intros ?; apply Hnew, Hb; auto).
  assert (o ∉ A) by (intros ?; apply Hnew, Hb; auto).
  split; [lia|]. split; [|split; [|intros x; split]].
  - apply NoDup_app. split; [done|]. split; [|apply NoDup_singleton].
    intros x Hx ->%list_elem_of_singleton. done.
  - intros x [Hx| ->%list_elem_of_singleton]%elem_of_app; auto.
  - intros [[Hx| ->%list_elem_of_singleton]%elem_of_app|Hx].
    + apply (built_mono _ _ c); [lia|]. apply Hb. auto.
    + by apply (built_last _ _ _ _ v).
    + apply (built_mono _ _ c); [lia|]. apply Hb. auto.
  - intros [Hx|[v' Hv']]%built_S.
    + destruct (proj2 (Hb x) Hx) as [?|?]; [left; apply elem_of_app|]; auto.
    + left. apply elem_of_app. right. apply list_elem_of_singleton. congruence.
Qed.

Lemma parts_activate f c0 l A c o v :
  fresh_factory f → parts f c0 l A c → f c = Return (o, v) →
  parts f c0 l ({[o]} ∪ A) (S c).
Proof.
  intros Hf (Hc & Hnd & Hdisj & Hb) Hv.
  pose proof (built_fresh f c0 c o v Hf Hv) as Hnew.
  assert (o ∉ l) by (intros ?; apply Hnew, Hb; auto).
  split; [lia|]. split; [done|]. split; [|intros x; split].
  - intros x Hx [->%elem_of_singleton|?]%elem_of_union; [done|].
    by apply (Hdisj x).
  - intros [Hx|[->%elem_of_singleton|Hx]%elem_of_union].
    + apply (built_mono _ _ c); [lia|]. apply Hb. auto.
    + by apply (built_last _ _ _ _ v).
    + apply (built_mono _ _ c); [lia|]. apply Hb. auto.
  - intros [Hx|[v' Hv']]%built_S.
    + destruct (proj2 (Hb x) Hx) as [?|?]; [by left|right].
      apply elem_of_union. by right.
    + right. assert (x = o) as -> by congruence.
      apply elem_of_union. left. by apply elem_of_singleton.
Qed.

Lemma parts_pop f c0 l o A c :
  parts f c0 (l ++ [o]) A c → parts f c0 l ({[o]} ∪ A) c.
Proof.
  intros (Hc & Hnd & Hdisj & Hb).
  apply NoDup_app in Hnd as (Hnd & Hno & _).
  split; [done|]. split; [done|]. split; [|intros x; split].
  - intros x Hx [->%elem_of_singleton|?]%elem_of_union.
    + apply (Hno o Hx). by apply list_elem_of_singleton.
    + apply (Hdisj x); [|done]. apply elem_of_app. auto.
  - intros [Hx|[->%elem_of_singleton|Hx]%elem_of_union]; apply Hb.
    + left. apply elem_of_app. auto.
    + left. apply elem_of_app. right. by apply list_elem_of_singleton.
    + by right.
  - intros [[Hx| ->%list_elem_of_singleton]%elem_of_app|Hx]%Hb;
      [by left|right; apply elem_of_union..].
    + left. by apply elem_of_singleton.
    + by right.
Qed.

Lemma parts_return f c0 l o A c :
  o ∈ A → parts f c0 l A c → parts f c0 (l ++ [o]) (A ∖ {[o]}) c.
Proof.
  intros Ho (Hc & Hnd & Hdisj & Hb).
  assert (o ∉ l) by (intros ?; by apply (Hdisj o)).
  split; [done|]. split; [|split; [|intros x; split]].
  - apply NoDup_app. split; [done|]. split; [|apply NoDup_singleton].
    intros x Hx ->%list_elem_of_singleton. done.
  - intros x [Hx| ->%list_elem_of_singleton]%elem_of_app.
    + intros [? _]%elem_of_difference. by apply (Hdisj x).
    + intros [_ Hne]%elem_of_difference. apply Hne. by apply elem_of_singleton.
  - intros [[Hx| ->%list_elem_of_singleton]%elem_of_app
           |[Hx _]%elem_of_difference]; apply Hb; auto.
  - intros [Hx|Hx]%Hb.
    + left. apply elem_of_app. auto.
    + destruct (decide (x = o)) as [->|].
      * left. apply elem_of_app. right. by apply list_elem_of_singleton.
      * right. apply elem_of_difference. split; [done|].
        by intros ?%elem_of_singleton.
Qed.

(** *** The partition along the constructor and the client's calls *)

Lemma fill_parts f n : ∀ l w l' w' c0 A,
  fresh_factory f → parts f c0 l A (calls w) →
  fill f n l w = (Return l', w') →
  parts f c0 l' A (calls w') ∧ length l' = (length l + n)%nat.
Proof.
  induction n as [|n IH]; intros l w l' w' c0 A Hf Hp; simpl.
  - intros [= <- <-]. split; [done|lia].
  - destruct (call_factory f w) as [[o|e] w1] eqn:Hcf; [|done].
    intros Hfill.
    pose proof (call_factory_calls _ _ _ _ Hcf) as Hc.
    destruct (call_factory_Return _ _ _ _ Hcf) as (v & Hv & _).
    apply IH with (c0 := c0) (A := A) in Hfill as [Hp' Hlen]; [|done|].
    + split; [done|]. rewrite Hlen, length_app. simpl. lia.
    + rewrite Hc. by apply (parts_push _ _ _ _ _ _ v).
Qed.

Lemma new_partitioned (config : PoolConfig T) w p w' f :
  factory config = Some f → fresh_factory f →
  new config w = (Return p, w') →
  partitioned (calls w) p w' ∧ _factory p = f ∧ _activeObjects p = ∅.
Proof.
  intros Hfac Hf. unfold new, _initializePool. rewrite Hfac. simpl.
  destruct (fill _ _ _ _) as [[l|e] w1] eqn:Hfill; [|done].
  intros [= <- <-]. unfold partitioned. simpl. split; [|done].
  eapply fill_parts in Hfill as [Hp _]; [done|done|].
  split; [lia|]. split; [apply NoDup_nil_2|].
  split; [by intros x ?%elem_of_nil|].
  intros x. split; [|intros (i & v & ? & _); lia].
  intros [?%elem_of_nil|?%elem_of_empty]; done.
Qed.

Lemma acquire_factory p w r p' w' :
  acquire p w = (r, p', w') → _factory p' = _factory p.
Proof.
  unfold acquire. destruct (_pool p); [|by intros [= <- <- <-]].
  destruct (_ || _); [by intros [= <- <- <-]|].
  destruct (call_factory _ _) as [[o|e] w1]; by intros [= <- <- <-].
Qed.

Lemma release_factory o p w r p' w' :
  release o p w = (r, p', w') → _factory p' = _factory p.
Proof.
  unfold release. destruct (decide _) as [Ho|Ho]; [|by intros [= <- <- <-]].
  destruct (call_reset _ _ _) as [[e|] w1]; by intros [= <- <- <-].
Qed.

Lemma call_reset_calls (r : Reset T) o w e w' :
  call_reset r o w = (e, w') → calls w' = calls w.
Proof.
  unfold call_reset. destruct (heap w !! o); [|by intros [= <- <-]].
  destruct (r t). by intros [= <- <-].
Qed.

Lemma acquire_partitioned c0 p w r p' w' :
  fresh_factory (_factory p) → partitioned c0 p w →
  acquire p w = (r, p', w') → partitioned c0 p' w'.
Proof.
  intros Hf Hp. unfold acquire, partitioned in *.
  destruct (_pool p) as [|o0 l0] eqn:Hpool.
  - destruct (_ || _); [by intros [= <- <- <-]; rewrite Hpool|].
    destruct (call_factory _ _) as [[o|e] w1] eqn:Hcf; intros [= <- <- <-];
      pose proof (call_factory_calls _ _ _ _ Hcf) as Hc; rewrite Hc; simpl.
    + destruct (call_factory_Return _ _ _ _ Hcf) as (v & Hv & _).
      rewrite Hpool. by apply (parts_activate _ _ _ _ _ _ v).
    + rewrite Hpool. apply parts_skip; [done|].
      intros o v Hv. unfold call_factory in Hcf. by rewrite Hv in Hcf.
  - intros [= <- <- <-].
    cbn [set_pool set_activeObjects _factory _pool _activeObjects].
    apply parts_pop. rewrite (pop_spec o0 l0) in Hp. exact Hp.
Qed.

Lemma release_partitioned c0 o p w r p' w' :
  partitioned c0 p w → release o p w = (r, p', w') → partitioned c0 p' w'.
Proof.
  intros Hp. unfold release, partitioned in *.
  destruct (decide _) as [Ho|Ho]; [|by intros [= <- <- <-]].
  destruct (call_reset _ _ _) as [[e|] w1] eqn:Hr; intros [= <- <- <-];
    rewrite (call_reset_calls _ _ _ _ _ Hr); [done|].
  simpl. by apply parts_return.
Qed.

Lemma step_partitioned c0 (c : call T) p w p' w' :
  fresh_factory (_factory p) → partitioned c0 p w →
  step c (p, w) = (p', w') →
  partitioned c0 p' w' ∧ _factory p' = _factory p.
Proof.
  intros Hf Hp. destruct c as [|o|o v]; simpl.
  - destruct (acquire p w) as [[r p1] w1] eqn:Ha. intros [= <- <-].
    split; [by eapply acquire_partitioned|by eapply acquire_factory].
  - destruct (release o p w) as [[r p1] w1] eqn:Hr. intros [= <- <-].
    split; [by eapply release_partitioned|by eapply release_factory].
  - by intros [= <- <-].
Qed.

Lemma run_cons (c : call T) cs pw : run (c :: cs) pw = run cs (step c pw).
Proof. done. Qed.

Lemma run_partitioned c0 (cs : list (call T)) : ∀ p w p' w',
  fresh_factory (_factory p) → partitioned c0 p w →
  run cs (p, w) = (p', w') →
  partitioned c0 p' w' ∧ _factory p' = _factory p.
Proof.
  induction cs as [|c cs IH]; intros p w p' w' Hf Hp.
  - by intros [= <- <-].
  - rewrite run_cons. destruct (step c (p, w)) as [p1 w1] eqn:Hs.
    destruct (step_partitioned _ _ _ _ _ _ Hf Hp Hs) as [Hp1 Hf1].
    intros Hrun. apply IH in Hrun as [? ?]; [|by rewrite Hf1|done].
    split; [done|congruence].
Qed.


(** C1. Pool conservation. Take a pool built by [new] from a factory that
    hands out a new object at every call, and let a client make any
    sequence of [acquire]/[release] calls (and assignments to fields) on
    it; a release of an instance that is not checked out throws and
    changes nothing, so such sequences need not be excluded. After every
    call [activeSize + availableSize = totalSize], the free list holds no
    instance twice, and every instance the factory built for the pool is
    in exactly one of the free list and the active set. *)
Theorem pool_conservation (config : PoolConfig T) f w0 p0 w1
    (cs : list (call T)) p w :
  factory config = Some f → fresh_factory f →
  new config w0 = (Return p0, w1) →
  run cs (p0, w1) = (p, w) →
  (activeSize p + availableSize p = totalSize p)%Z
  ∧ NoDup (_pool p)
  ∧ ∀ o, (o ∈ _pool p ∨ o ∈ _activeObjects p ↔ built f (calls w0) (calls w) o)
         ∧ ¬ (o ∈ _pool p ∧ o ∈ _activeObjects p).
Proof.
  intros Hfac Hf Hnew Hrun.
  destruct (new_partitioned _ _ _ _ _ Hfac Hf Hnew) as (Hp0 & Hf0 & _).
  apply run_partitioned with (c0 := calls w0) in Hrun as [Hp Hfp];
    [|by rewrite Hf0|done].
  destruct Hp as (_ & Hnd & Hdisj & Hb).
  split; [unfold totalSize; lia|]. split; [done|].
  intros o. split; [by rewrite <- Hf0, <- Hfp|].
  intros [? ?]. by apply (Hdisj o).
Qed.


(** *** The three cases of [acquire] *)

Lemma acquire_pop p w l o :
  _pool p = l ++ [o] →
  acquire p w
  = (Return o, set_activeObjects (set_pool p l) ({[o]} ∪ _activeObjects p), w).
Proof.
  intros Hl. unfold acquire. destruct (_pool p) as [|o0 l0] eqn:Hpool.
  - by destruct l.
  - rewrite (pop_spec o0 l0) in Hl. apply app_inj_tail in Hl as [-> ->].
    reflexivity.
Qed.







(** C10. [release] is atomic when the reset function throws: it throws the
    wrapped error and hands back the very same pool object, so the
    instance is still active, the free list is what it was, and the three
    counters are unchanged. *)
Theorem release_atomic_when_reset_throws p w o v v' e :
  o ∈ _activeObjects p → heap w !! o = Some v → _reset p v = (v', Some e) →
  ∃ p' w',
    release o p w
    = (Throw (Error (String.append "Failed to release object: "
                       (message_of e))), p', w')
    ∧ p' = p
    ∧ o ∈ _activeObjects p'
    ∧ _pool p' = _pool p
    ∧ availableSize p' = availableSize p
    ∧ activeSize p' = activeSize p
    ∧ totalSize p' = totalSize p.
Proof.
  intros Ho Hv Hr. unfold release, call_reset.
  destruct (decide _) as [_|Hno]; [|done]. rewrite Hv, Hr.
  eexists p, _. done.
Qed.

(** C3, as amended. After [release(x)] and an [acquire()] that returns [x]
    again, the fields of [x] are what the configured reset function left
    them as; a pool built without a reset function uses the identity, so
    the fields are then exactly those [x] held before the release. *)
Theorem reacquired_fields_are_what_reset_left :
  (∀ p w o v v',
     o ∈ _activeObjects p → heap w !! o = Some v → _reset p v = (v', None) →
     ∃ p1 w1 p2,
       release o p w = (Return tt, p1, w1)
       ∧ acquire p1 w1 = (Return o, p2, w1)
       ∧ heap w1 !! o = Some v')
  ∧ (∀ (config : PoolConfig T) w p w',
       reset config = None → new config w = (Return p, w') →
       ∀ v, _reset p v = (v, None)).
Proof.
  split.
  - intros p w o v v' Ho Hv Hr. unfold release, call_reset.
    destruct (decide _) as [_|Hno]; [|done]. rewrite Hv, Hr.
    eexists _, _, _. split; [reflexivity|]. split.
    + erewrite acquire_pop; [|reflexivity].
      cbn [set_pool set_activeObjects _pool _activeObjects]. reflexivity.
    + cbn [heap]. apply lookup_insert_eq.
  - intros config w p w' Hr. unfold new, _initializePool. rewrite Hr.
    destruct (factory config); [|done].
    destruct (fill _ _ _ _) as [[l|e] w1]; [|done].
    by intros [= <- <-].
Qed.

End Facts.


Lemma counting_factory_fresh : fresh_factory counting_factory.
Proof. intros i j o v v' [= <- _] [= <-]. done. Qed.

Lemma pool_conservation_witness :
  let pw := run sample_calls (sample_pool, snd sample_start) in
  (activeSize (fst pw) + availableSize (fst pw) = totalSize (fst pw))%Z
  ∧ NoDup (_pool (fst pw))
  ∧ ∀ o, (o ∈ _pool (fst pw) ∨ o ∈ _activeObjects (fst pw)
          ↔ built counting_factory 0 (calls (snd pw)) o)
         ∧ ¬ (o ∈ _pool (fst pw) ∧ o ∈ _activeObjects (fst pw)).
Proof.
  intros pw.
  apply (pool_conservation sample_config counting_factory (mkWorld ∅ 0)
           sample_pool (snd sample_start) sample_calls (fst pw) (snd pw)).
  - reflexivity.
  - exact counting_factory_fresh.
  - vm_compute. reflexivity.
  - apply surjective_pairing.
Defined.


Lemma release_atomic_witness :
  ∃ p' w',
    release 0%nat checked_out_pool (world_with (-3))
    = (Throw (Error "Failed to release object: negative"), p', w')
    ∧ p' = checked_out_pool
    ∧ 0%nat ∈ _activeObjects p'
    ∧ _pool p' = _pool checked_out_pool
    ∧ availableSize p' = availableSize checked_out_pool
    ∧ activeSize p' = activeSize checked_out_pool
    ∧ totalSize p' = totalSize checked_out_pool.
Proof.
  apply (release_atomic_when_reset_throws checked_out_pool (world_with (-3))
           0%nat (-3)%Z (-1)%Z (Error "negative")).
  - apply elem_of_singleton. reflexivity.
  - reflexivity.
  - reflexivity.
Defined.

Lemma reacquired_fields_witness :
  ∃ p1 w1 p2,
    release 0%nat checked_out_pool (world_with 5) = (Return tt, p1, w1)
    ∧ acquire p1 w1 = (Return 0%nat, p2, w1)
    ∧ heap w1 !! 0%nat = Some 0%Z.
Proof.
  apply (proj1 (@reacquired_fields_are_what_reset_left Z) checked_out_pool
           (world_with 5) 0%nat 5%Z 0%Z).
  - apply elem_of_singleton. reflexivity.
  - reflexivity.
  - reflexivity.
Defined.

(** C3 as stated fails. A pool built without a reset function hands the
    instance back with whatever the client had assigned to it before the
    release (here 100, while the factory had built it with 0), so no
    fixed defaults describe the fields of a reacquired instance. *)
Lemma stale_fields_survive_release :
  reacquire plain_config 100%Z (mkWorld ∅ 0) = Some 100%Z
  ∧ ¬ ∃ defaults : Z,
        ∀ v : Z, reacquire plain_config v (mkWorld ∅ 0) = Some defaults.
Proof.
  split; [vm_compute; reflexivity|].
  intros [d Hd]. pose proof (Hd 100%Z) as H1. pose proof (Hd 200%Z) as H2.
  vm_compute in H1, H2. congruence.
Qed.

End ObjectPoolProofs.

(** * Properties of GameLoop *)

Module GameLoopProofs.

Import GameLoop.

Open Scope Q_scope.

Section Facts.

Context {G : Type}.

Implicit Types (g : GameLoop G) (upd : Callback G) (s : G).





Lemma update_args_update (dt : Q) (evs : list event) :
  update_args (update_called dt :: evs) = dt :: update_args evs.
Proof. reflexivity. Qed.

Lemma update_args_app (evs1 evs2 : list event) :
  update_args (evs1 ++ evs2) = update_args evs1 ++ update_args evs2.
Proof. unfold update_args. apply omap_app. Qed.




(** When an invocation throws, the error is logged last. *)
Lemma update_steps_thrown upd acc s e :
  (update_steps upd acc s).2 = Some e →
  last (update_steps upd acc s).1.2
  = Some (console_error "Error in update loop:" e).
Proof.
  funelim (update_steps upd acc s).
  - done.
  - by intros [= ->].
  - destruct (update_steps upd (acc - FIXED_TIME_STEP) s')
      as [[[acc' s''] evs] thrown].
    cbn [fst snd] in *. intros Hn. specialize (H _ Hn).
    destruct evs; [done|]. done.
Qed.

(** The loop itself never asks for an animation frame. *)
Lemma update_steps_no_frame upd acc s :
  requestAnimationFrame ∉ (update_steps upd acc s).1.2.
Proof.
  funelim (update_steps upd acc s).
  - apply not_elem_of_nil.
  - cbn [fst snd].
    intros [?|[?|?%elem_of_nil]%elem_of_cons]%elem_of_cons; done.
  - destruct (update_steps upd (acc - FIXED_TIME_STEP) s')
      as [[[acc' s''] evs] thrown].
    cbn [fst snd] in *. by intros [?|?]%elem_of_cons.
Qed.

(** What a frame of a running loop does, with the bookkeeping of the
    frame counter folded into [g1]. *)
Lemma loop_running t g s :
  running g = true →
  ∃ g1,
    update g1 = update g ∧ render g1 = render g ∧ lastTime g1 = t
    ∧ running g1 = true
    ∧ accumulator g1
      = accumulator g + Qmin (t - lastTime g) MAX_FRAME_TIME
    ∧ _loop t g s
      = let '(acc, s1, evs, thrown) :=
          update_steps (update g) (accumulator g1) s in
        match thrown with
        | Some e => (stop (set_accumulator g1 acc), s1, evs, Throw e)
        | None =>
            match render g (acc / FIXED_TIME_STEP) s1 with
            | (s2, None) =>
                (set_accumulator g1 acc, s2,
                 evs ++ [clearRect; render_called (acc / FIXED_TIME_STEP);
                         requestAnimationFrame], Return tt)
            | (s2, Some e) =>
                (stop (set_accumulator g1 acc), s2,
                 evs ++ [clearRect; render_called (acc / FIXED_TIME_STEP);
                         console_error "Error in render loop:" e], Throw e)
            end
        end.
Proof.
  intros Hrun. unfold _loop. rewrite Hrun. cbn [negb].
  cbn [set_lastTime set_frameCount set_fps set_lastFPSUpdate set_accumulator
       update render targetFPS frameTime accumulator lastTime running fps
       frameCount lastFPSUpdate].
  destruct (Qle_bool 1000 (t - lastFPSUpdate g));
    cbn [set_lastTime set_frameCount set_fps set_lastFPSUpdate set_accumulator
         update render targetFPS frameTime accumulator lastTime running fps
         frameCount lastFPSUpdate];
    eexists (mkGameLoop _ _ _ _ _ _ _ _ _ _);
    (split; [reflexivity|]); (split; [reflexivity|]);
    (split; [reflexivity|]); (split; [exact Hrun|]);
    (split; [reflexivity|]); reflexivity.
Qed.

(** A frame of a running loop ends with an error exactly when the update
    callback threw it during the catch-up loop, or the catch-up loop
    completed and the render callback threw it. *)
Lemma loop_throws_iff t g s e :
  running g = true →
  (_loop t g s).2 = Throw e
  ↔ (update_steps (update g)
       (accumulator g + Qmin (t - lastTime g) MAX_FRAME_TIME) s).2 = Some e
    ∨ ((update_steps (update g)
          (accumulator g + Qmin (t - lastTime g) MAX_FRAME_TIME) s).2 = None
       ∧ (render g
            ((update_steps (update g)
                (accumulator g + Qmin (t - lastTime g) MAX_FRAME_TIME)
                s).1.1.1 / FIXED_TIME_STEP)
            (update_steps (update g)
               (accumulator g + Qmin (t - lastTime g) MAX_FRAME_TIME)
               s).1.1.2).2 = Some e).
Proof.
  intros Hrun.
  destruct (loop_running t g s Hrun) as (g1 & _ & _ & _ & _ & Hacc & Heq).
  rewrite Heq, Hacc. clear Heq.
  destruct (update_steps _ _ _) as [[[acc s1] evs1] thrown].
  cbn [fst snd]. destruct thrown as [e'|].
  - cbn [snd]. split.
    + intros [= ->]. by left.
    + intros [[= ->]|[[=] _]]. done.
  - destruct (render g _ s1) as [s2 [e'|]]; cbn [snd]; split.
    + intros [= ->]. by right.
    + intros [[=]|[_ [= ->]]]. done.
    + intros [=].
    + intros [[=]|[_ [=]]].
Qed.



(** C9, as amended. When a frame of a running loop ends with an error
    (which, by [loop_throws_iff], is the case exactly when the update or
    the render callback threw it), the scheduler has logged that error
    last, cleared the running flag and asked for no further animation
    frame, and every later frame callback does nothing; the error itself
    is thrown again by [_loop]. *)
Theorem callback_error_stops_loop_and_is_rethrown g t s g' s' evs e :
  running g = true →
  _loop t g s = (g', s', evs, Throw e) →
  running g' = false
  ∧ (∃ label, last evs = Some (console_error label e))
  ∧ (requestAnimationFrame ∉ evs)
  ∧ ∀ t' s2, _loop t' g' s2 = (g', s2, [], Return tt).
Proof.
  intros Hrun Hloop.
  destruct (loop_running t g s Hrun) as (g1 & _ & _ & _ & _ & _ & Heq).
  rewrite Heq in Hloop. clear Heq.
  pose proof (update_steps_thrown (update g) (accumulator g1) s) as Hthr.
  pose proof (update_steps_no_frame (update g) (accumulator g1) s) as Hnf.
  destruct (update_steps _ _ _) as [[[acc s1] evs1] thrown].
  cbn [fst snd] in *.
  assert (Hstopped : ∀ g2 : GameLoop G, ∀ t' s2,
            _loop t' (stop g2) s2 = (stop g2, s2, [], Return tt)) by done.
  destruct thrown as [e'|].
  - injection Hloop as <- <- <- <-. split; [done|].
    split; [eexists; by apply Hthr|]. split; [done|]. apply Hstopped.
  - destruct (render g _ s1) as [s2 [e'|]]; [|done].
    injection Hloop as <- <- <- <-. split; [done|].
    split; [eexists; by rewrite last_app|]. split; [|apply Hstopped].
    intros [?|Hin]%elem_of_app; [done|].
    repeat (apply elem_of_cons in Hin as [?|Hin]; [done|]).
    by apply elem_of_nil in Hin.
Qed.

End Facts.




(** A frame that arrives 500 ms after the last one simulates 250 ms: it
    makes 15 updates, not 30. *)
Example stalled_frame_updates :
  stalled_frame.2 = Return tt
  ∧ length (update_args stalled_frame.1.2) = 15%nat
  ∧ Qfloor (500 / FIXED_TIME_STEP) = 30%Z
  ∧ accumulator stalled_frame.1.1.1 == 0.
Proof. vm_compute. done. Qed.

Lemma callback_error_witness :
  running failing_frame.1.1.1 = false
  ∧ (∃ label, last failing_frame.1.2
              = Some (console_error label (Error "boom")))
  ∧ (requestAnimationFrame ∉ failing_frame.1.2)
  ∧ ∀ t' s2,
      _loop t' failing_frame.1.1.1 s2
      = (failing_frame.1.1.1, s2, [], Return tt).
Proof.
  apply (callback_error_stops_loop_and_is_rethrown failing_loop 50 0%nat
           failing_frame.1.1.1 failing_frame.1.1.2 failing_frame.1.2
           (Error "boom")).
  - reflexivity.
  - vm_compute. reflexivity.
Defined.

(** C9 as stated fails. When the update callback, or the render callback,
    throws, the frame callback [_loop] itself completes by throwing that
    error: it is logged and the loop is stopped, and then it is thrown
    again to whoever invoked the frame. *)
Lemma callback_error_escapes_the_frame :
  failing_frame.2 = Throw (Error "boom")
  ∧ failing_render_frame.2 = Throw (Error "boom")
  ∧ ¬ ∀ (g : GameLoop nat) t s, (_loop t g s).2 = Return tt.
Proof.
  split; [reflexivity|]. split; [reflexivity|].
  intros H. specialize (H failing_loop 50 0%nat). discriminate H.
Qed.

End GameLoopProofs.

(** * Properties of the particle classes *)

Module ParticleSystemProofs.

Import ParticleSystem.

Section Facts.

Variable host : Host.

(** The loop appends particles and never touches the ones already there:
    it stops at the cap or after [n] additions, whichever comes first. *)
Lemma explosion_loop_spec n : ∀ i count x y color size velocity now cfg parts
    draws,
  (Z.of_nat (length parts) ≤ MAX_PARTICLES cfg)%Z →
  ∃ added,
    (explosion_loop host n i count x y color size velocity now cfg parts
       draws).1 = parts ++ added
    ∧ Z.of_nat (length (parts ++ added))
      = Z.min (MAX_PARTICLES cfg) (Z.of_nat (length parts) + Z.of_nat n).
Proof.
  induction n as [|n IH]; intros i count x y color size velocity now cfg parts
    draws Hk.
  - exists []. cbn [explosion_loop fst]. rewrite app_nil_r. split; [done|lia].
  - cbn [explosion_loop].
    destruct (Z.leb_spec (MAX_PARTICLES cfg) (Z.of_nat (length parts)))
      as [Hfull|Hroom].
    + exists []. cbn [fst]. rewrite app_nil_r. split; [done|lia].
    + match goal with
      | |- context [explosion_loop host n ?i' count x y color size velocity
                      now cfg (parts ++ [?p]) ?d] =>
          destruct (IH i' count x y color size velocity now cfg
                      (parts ++ [p]) d) as (added & Heq & Hlen);
            [rewrite length_app; cbn [length]; lia|];
            exists (p :: added)
      end.
      rewrite Heq. rewrite <- app_assoc. split; [done|].
      rewrite <- app_assoc in Hlen. cbn [app] in Hlen.
      rewrite Hlen, length_app. cbn [length]. lia.
Qed.

(** C6. An emission request for [N] particles on a system that holds [k]
    of at most [M] particles leaves it with [min(M, k + N)] particles,
    never more than [M]. The particles already there are kept, what does
    not fit is dropped: the call returns normally, the system has nowhere
    to queue a request, and the only trace is a console warning, written
    exactly when [k + N] exceeds [M]. *)
Theorem emission_cap x y options now ps draws N ps' draws' warned :
  default_to (BATCH_SIZE (config ps)) (opt_count options) = N →
  (0 ≤ N)%Z →
  (particles_size ps ≤ MAX_PARTICLES (config ps))%Z →
  createExplosion host x y options now ps draws = (ps', draws', warned) →
  particles_size ps'
  = Z.min (MAX_PARTICLES (config ps)) (particles_size ps + N)
  ∧ (particles_size ps' ≤ MAX_PARTICLES (config ps))%Z
  ∧ config ps' = config ps
  ∧ (∃ added, particles ps' = particles ps ++ added)
  ∧ (warned ≠ [] ↔ (MAX_PARTICLES (config ps) < particles_size ps + N)%Z).
Proof.
  intros HN Hpos Hk. unfold createExplosion. rewrite HN.
  destruct (explosion_loop_spec (Z.to_nat N) 0 N x y
              (default_to "#FF5733"%string (opt_color options))
              (default_to 2%Q (opt_size options))
              (default_to 200%Q (opt_velocity options)) now (config ps)
              (particles ps) draws Hk) as (added & Heq & Hlen).
  destruct (explosion_loop _ _ _ _ _ _ _ _ _ _ _ _ _) as [parts d].
  cbn [fst] in Heq. subst parts. intros [= <- <- <-].
  unfold particles_size in *. cbn [particles config].
  rewrite Z2Nat.id in Hlen by done.
  split; [done|]. split; [lia|]. split; [done|]. split; [by exists added|].
  destruct (Z.ltb_spec (MAX_PARTICLES (config ps))
              (Z.of_nat (length (particles ps)) + N)); split; try done; lia.
Qed.

End Facts.

Lemma emission_cap_witness :
  let r := createExplosion sample_host 0 0 (burst 4) 0 capped_system 6 in
  particles_size r.1.1
  = Z.min (MAX_PARTICLES (config capped_system))
      (particles_size capped_system + 4)
  ∧ (particles_size r.1.1 ≤ MAX_PARTICLES (config capped_system))%Z
  ∧ config r.1.1 = config capped_system
  ∧ (∃ added, particles r.1.1 = particles capped_system ++ added)
  ∧ (r.2 ≠ [] ↔ (MAX_PARTICLES (config capped_system)
                  < particles_size capped_system + 4)%Z).
Proof.
  intros r.
  apply (emission_cap sample_host 0 0 (burst 4) 0 capped_system 6 4 r.1.1
           r.1.2 r.2).
  - reflexivity.
  - lia.
  - vm_compute. discriminate.
  - vm_compute. reflexivity.
Defined.

(** Three particles in use under a cap of five: a request for four leaves
    five, and a warning on the console. *)
Example emission_over_the_cap :
  let r := createExplosion sample_host 0 0 (burst 4) 0 capped_system 6 in
  particles_size capped_system = 3%Z
  ∧ particles_size r.1.1 = 5%Z
  ∧ r.2 = ["Particle limit reached, some particles may be skipped"%string].
Proof. vm_compute. done. Qed.

End ParticleSystemProofs.

Module ParticleEmitterProofs.

Import ParticleEmitter.

Section Facts.

Variable host : Host.

Lemma emit_loop_spec n : ∀ em draws,
  length (particles (emit_loop host n em draws).1)
  = (length (particles em) + n)%nat
  ∧ isActive (emit_loop host n em draws).1 = isActive em.
Proof.
  induction n as [|n IH]; intros em draws; cbn [emit_loop].
  - cbn [fst]. split; [lia|done].
  - unfold createParticle.
    match goal with
    | |- context [emit_loop host n ?em' ?d] =>
        destruct (IH em' d) as [Hlen Hact]
    end.
    rewrite Hlen, Hact. cbn [set_particles particles isActive].
    rewrite length_app. cbn [length]. split; [lia|done].
Qed.

(** [ParticleEmitter] has no particle cap at all: on an emitter that is
    already animating, [emit(N)] adds all [N] particles. *)
Lemma emit_has_no_cap (N : Z) now em draws :
  isActive em = true → (1 ≤ N)%Z →
  particleCount (emit host (Some N) now em draws).1 = (particleCount em + N)%Z.
Proof.
  intros Hact HN. unfold emit. cbn [default_to].
  destruct (Z.ltb_spec N 1); [lia|].
  destruct (emit_loop_spec (Z.to_nat N) em draws) as [Hlen Hact'].
  destruct (emit_loop host (Z.to_nat N) em draws) as [em' d].
  cbn [fst] in *. rewrite Hact', Hact. cbn [negb fst].
  unfold particleCount. rewrite Hlen. lia.
Qed.

End Facts.

Lemma emit_has_no_cap_witness :
  particleCount (emit sample_host (Some 1000%Z) 16 running_emitter 6).1
  = (particleCount running_emitter + 1000)%Z.
Proof.
  apply (emit_has_no_cap sample_host 1000 16 running_emitter 6).
  - reflexivity.
  - lia.
Defined.

End ParticleEmitterProofs.

Module ParticleProofs.

Import Particle.

Open Scope Q_scope.

Lemma ratio_in_unit (e l : Q) : 0 <= e -> e < l -> 0 <= e / l /\ e / l < 1.
Proof.
  intros He Hl. assert (0 < l) by lra. split.
  - apply Qle_shift_div_l; [done|]. lra.
  - apply Qlt_shift_div_r; [done|]. lra.
Qed.

Lemma update_inactive dt self st p :
  objs st !! self = Some p → active p = false → update dt self st = (false, st).
Proof. intros Hp Ha. unfold update. by rewrite Hp, Ha. Qed.

(** C7, as amended. [update(deltaTime)] on an active particle advances
    its age by [deltaTime]. As soon as the age has reached the lifetime
    the particle deactivates, pushes itself onto the static pool of its
    class (unless that already holds [poolSize] entries) and [update]
    returns false; otherwise it stays active, [update] returns true and
    the pool is left alone. *)
Theorem update_ages_and_recycles dt self st p :
  objs st !! self = Some p → active p = true →
  ∃ p',
    objs (update dt self st).2 !! self = Some p'
    ∧ elapsed p' = elapsed p + dt
    ∧ (lifetime p <= elapsed p + dt →
       (update dt self st).1 = false ∧ active p' = false
       ∧ pool (update dt self st).2
         = if (length (pool st) <? poolSize)%nat
           then pool st ++ [self] else pool st)
    ∧ (elapsed p + dt < lifetime p →
       (update dt self st).1 = true ∧ active p' = true
       ∧ pool (update dt self st).2 = pool st).
Proof.
  intros Hp Ha. unfold update. rewrite Hp, Ha. cbn [negb].
  destruct (Qle_bool (lifetime p) (elapsed p + dt)) eqn:Hle.
  - apply Qle_bool_iff in Hle. unfold recycle. cbn [pool objs].
    eexists. split.
    + cbn [snd]. destruct (_ <? _)%nat; cbn [objs]; apply lookup_insert_eq.
    + split; [done|]. split; [|intros; lra]. intros _.
      split; [done|]. split; [done|]. cbn [snd].
      by destruct (_ <? _)%nat.
  - assert (Hlt : elapsed p + dt < lifetime p).
    { apply Qnot_le_lt. intros H%Qle_bool_iff. congruence. }
    eexists. split; [cbn [snd objs]; apply lookup_insert_eq|].
    split; [done|]. split; [intros; lra|]. intros _. done.
Qed.

Lemma update_sound dt self st p :
  objs st !! self = Some p → 0 <= dt → sound p →
  ∃ p', objs (update dt self st).2 !! self = Some p' ∧ sound p' ∧ faded p'.
Proof.
  intros Hp Hdt Hs. destruct (active p) eqn:Ha.
  - destruct (Hs Ha) as (He & _).
    unfold update. rewrite Hp, Ha. cbn [negb].
    destruct (Qle_bool (lifetime p) (elapsed p + dt)) eqn:Hle.
    + eexists. split.
      * unfold recycle. cbn [snd pool objs].
        destruct (_ <? _)%nat; cbn [objs]; apply lookup_insert_eq.
      * split; intros [=].
    + assert (Hlt : elapsed p + dt < lifetime p).
      { apply Qnot_le_lt. intros H%Qle_bool_iff. congruence. }
      assert (He' : 0 <= elapsed p + dt) by lra.
      destruct (ratio_in_unit _ _ He' Hlt) as [Hr0 Hr1].
      eexists. split; [cbn [snd objs]; apply lookup_insert_eq|].
      split; intros _; cbn [alpha elapsed lifetime].
      * split; [done|]. split; lra.
      * symmetry. apply Q.max_r. lra.
  - rewrite (update_inactive dt self st p Hp Ha). exists p.
    split; [done|]. split; intros ?; congruence.
Qed.

Lemma updates_snoc dts dt self st :
  updates (dts ++ [dt]) self st = (update dt self (updates dts self st)).2.
Proof. unfold updates. by rewrite foldl_app. Qed.

(** However often a sound particle is updated with non-negative deltas,
    it stays sound; after at least one update it is faded as well. *)
Lemma updates_sound dts : ∀ self st p,
  objs st !! self = Some p → Forall (λ dt, 0 <= dt) dts → sound p →
  ∃ p', objs (updates dts self st) !! self = Some p'
        ∧ sound p' ∧ (dts ≠ [] → faded p').
Proof.
  induction dts as [|dt dts IH] using rev_ind; intros self st p Hp Hdts Hs.
  - exists p. done.
  - apply Forall_app in Hdts as [Hdts Hdt]. rewrite Forall_singleton in Hdt.
    destruct (IH self st p Hp Hdts Hs) as (p1 & Hp1 & Hs1 & _).
    rewrite updates_snoc.
    destruct (update_sound dt self _ p1 Hp1 Hdt Hs1) as (p' & ? & ? & ?).
    exists p'. done.
Qed.

Lemma init_fields_sound host config p p' :
  init_fields host config p = Return p' →
  opacity_given config →
  active p' = true ∧ sound p'.
Proof.
  unfold init_fields. destruct config as [c|]; [|done].
  destruct (c_x c), (c_y c); try done. intros [= <-] Ha.
  split; [done|]. intros _. cbn [elapsed alpha]. split; [lra|].
  destruct (c_alpha c) as [a|] eqn:Hca; cbn [default_to].
  - by apply (Ha c a).
  - lra.
Qed.

Lemma update_missing dt self st :
  objs st !! self = None → update dt self st = (false, st).
Proof. intros Hp. unfold update. by rewrite Hp. Qed.

Lemma updates_missing dts : ∀ self st,
  objs st !! self = None → updates dts self st = st.
Proof.
  induction dts as [|dt dts IH] using rev_ind; intros self st Hp; [done|].
  rewrite updates_snoc, (IH self st Hp). by rewrite update_missing.
Qed.

(** A particle handed out by [create] is sound, if it is there at all. *)
Lemma create_sound host config st self st1 :
  create host config st = (Return self, st1) → opacity_given config →
  objs st1 !! self = None
  ∨ ∃ p, objs st1 !! self = Some p ∧ active p = true ∧ sound p.
Proof.
  intros Hc Hop. unfold create in Hc.
  set (picked := match pool st with
                 | [] => _
                 | _ :: _ => _
                 end) in Hc.
  destruct picked as [particle st0]. unfold init in Hc.
  destruct (objs st0 !! particle) as [p0|] eqn:Hp0.
  - destruct (init_fields host config p0) as [p'|e] eqn:Hi; [|done].
    injection Hc as <- <-. right. exists p'.
    destruct (init_fields_sound host config p0 p' Hi Hop) as [? ?].
    split; [cbn [objs]; apply lookup_insert_eq|done].
  - injection Hc as <- <-. by left.
Qed.

Lemma explosion_alpha (dt now : Q) (p : ExplosionEffect.Particle) :
  ExplosionEffect.birth p <= now →
  (ExplosionEffect.update dt now p).1 = true →
  0 <= ExplosionEffect.alpha (ExplosionEffect.update dt now p).2
  ∧ ExplosionEffect.alpha (ExplosionEffect.update dt now p).2 <= 1.
Proof.
  intros Hb. unfold ExplosionEffect.update.
  cbn [fst snd ExplosionEffect.alpha].
  destruct (Qlt_le_dec _ _) as [Hlt|]; [intros _|done].
  assert (Hage : 0 <= now - ExplosionEffect.birth p) by lra.
  destruct (ratio_in_unit _ _ Hage Hlt) as [Hr0 Hr1].
  split; [apply Q.le_max_l|]. apply Q.max_lub; lra.
Qed.

(** C8, as amended. A pooled particle created with an initial alpha within
    [0, 1] (or none, which means 1) and updated only with non-negative
    deltas has [0 <= alpha <= 1] at all times while it is active, and
    after every update that leaves it active its alpha is
    [max(0, 1 - age/lifetime)]. A particle of an explosion effect that is
    still alive after an update, the clock not having run backwards since
    its birth, has its alpha set to [max(0, 1 - age/lifetime)], within
    [0, 1]. *)
Theorem alpha_stays_in_unit_interval :
  (∀ host config st self st1 dts p,
     create host config st = (Return self, st1) →
     opacity_given config →
     Forall (λ dt, 0 <= dt) dts →
     objs (updates dts self st1) !! self = Some p →
     active p = true →
     0 <= alpha p ∧ alpha p <= 1
     ∧ (dts ≠ [] → alpha p == Qmax 0 (1 - elapsed p / lifetime p)))
  ∧ (∀ dt now (p : ExplosionEffect.Particle),
       ExplosionEffect.birth p <= now →
       (ExplosionEffect.update dt now p).1 = true →
       0 <= ExplosionEffect.alpha (ExplosionEffect.update dt now p).2
       ∧ ExplosionEffect.alpha (ExplosionEffect.update dt now p).2 <= 1
       ∧ ExplosionEffect.alpha (ExplosionEffect.update dt now p).2
         = Qmax 0 (1 - (now - ExplosionEffect.birth p)
                       / ExplosionEffect.lifetime p)).
Proof.
  split.
  - intros host config st self st1 dts p Hc Hop Hdts Hp Ha.
    destruct (create_sound host config st self st1 Hc Hop)
      as [Hnone|(p0 & Hp0 & _ & Hs0)].
    + rewrite (updates_missing dts self st1 Hnone) in Hp. congruence.
    + destruct (updates_sound dts self st1 p0 Hp0 Hdts Hs0)
        as (p' & Hp' & Hs & Hf).
      assert (p' = p) as -> by congruence.
      destruct (Hs Ha) as (_ & ? & ?). split; [done|]. split; [done|].
      intros Hne. by apply Hf.
  - intros dt now p Hb Halive.
    destruct (explosion_alpha dt now p Hb Halive) as [? ?]. done.
Qed.

Lemma update_ages_and_recycles_witness :
  ∃ p',
    objs (update 1000 0%nat (born (at_origin None))).2 !! 0%nat = Some p'
    ∧ elapsed p' = elapsed (newborn (at_origin None)) + 1000
    ∧ (lifetime (newborn (at_origin None))
       <= elapsed (newborn (at_origin None)) + 1000 →
       (update 1000 0%nat (born (at_origin None))).1 = false
       ∧ active p' = false
       ∧ pool (update 1000 0%nat (born (at_origin None))).2
         = if (length (pool (born (at_origin None))) <? poolSize)%nat
           then pool (born (at_origin None)) ++ [0%nat]
           else pool (born (at_origin None)))
    ∧ (elapsed (newborn (at_origin None)) + 1000
       < lifetime (newborn (at_origin None)) →
       (update 1000 0%nat (born (at_origin None))).1 = true
       ∧ active p' = true
       ∧ pool (update 1000 0%nat (born (at_origin None))).2
         = pool (born (at_origin None))).
Proof.
  apply (update_ages_and_recycles 1000 0%nat (born (at_origin None))
           (newborn (at_origin None))).
  - vm_compute. reflexivity.
  - reflexivity.
Defined.

(** C7 as stated fails. A particle created with the default lifetime of
    1000 ms and updated with 1000 ms puts itself on the static pool of
    its class, which was empty: nothing is left for the caller to return. *)
Lemma particle_returns_itself_to_the_pool :
  pool (born (at_origin None)) = []
  ∧ (update 1000 0%nat (born (at_origin None))).1 = false
  ∧ pool (update 1000 0%nat (born (at_origin None))).2 = [0%nat]
  ∧ ¬ ∀ dt self st, pool (update dt self st).2 = pool st.
Proof.
  split; [reflexivity|]. split; [reflexivity|]. split; [reflexivity|].
  intros H. specialize (H 1000 0%nat (born (at_origin None))).
  vm_compute in H. discriminate H.
Qed.

Lemma alpha_stays_in_unit_interval_witness :
  0 <= alpha mature ∧ alpha mature <= 1
  ∧ ([16; 16; 0] ≠ [] →
     alpha mature == Qmax 0 (1 - elapsed mature / lifetime mature)).
Proof.
  apply (proj1 alpha_stays_in_unit_interval sample_host
           (Some (at_origin (Some 0.5))) (mkStore ∅ []) 0%nat
           (born (at_origin (Some 0.5))) [16; 16; 0] mature).
  - vm_compute. reflexivity.
  - intros c a [= <-] [= <-]. split; discriminate.
  - repeat constructor; discriminate.
  - vm_compute. reflexivity.
  - reflexivity.
Defined.

(** After two updates of 16 ms each, a particle created with alpha 0.5 and
    the default lifetime is active with alpha 1 - 32/1000. *)
Example alpha_after_two_updates :
  ∃ p,
    objs (updates [16; 16] 0%nat (born (at_origin (Some 0.5)))) !! 0%nat
    = Some p
    ∧ active p = true ∧ alpha p == 0.968.
Proof. eexists. split; [vm_compute; reflexivity|]. split; reflexivity. Qed.

(** C8 as stated fails. A particle updated with a negative delta is
    active with alpha 1.016, and a particle created with [alpha: 5] is
    active with alpha 5 until its first update. *)
Lemma alpha_leaves_unit_interval :
  (∃ p,
     objs (update (-16) 0%nat (born (at_origin None))).2 !! 0%nat = Some p
     ∧ active p = true ∧ 1 < alpha p)
  ∧ (∃ p,
       objs (born (at_origin (Some 5))) !! 0%nat = Some p
       ∧ active p = true ∧ 1 < alpha p).
Proof.
  split; eexists; (split; [vm_compute; reflexivity|]); split; reflexivity.
Qed.

End ParticleProofs.

(** * Facts on lists used below *)

Module ListFacts.

Lemma filter_none {A} (P : A → Prop) `{∀ x, Decision (P x)} l :
  Forall (λ x, ¬ P x) l → filter P l = [].
Proof.
  induction 1 as [|x l Hx _ IH]; [done|].
  by rewrite filter_cons, decide_False.
Qed.

Lemma filter_all {A} (P : A → Prop) `{∀ x, Decision (P x)} l :
  Forall P l → filter P l = l.
Proof.
  induction 1 as [|x l Hx _ IH]; [done|].
  by rewrite filter_cons, decide_True, IH.
Qed.

Lemma filter_length {A} (P : A → Prop) `{∀ x, Decision (P x)} l :
  (length (filter P l) ≤ length l)%nat.
Proof.
  induction l as [|x l IH]; [done|]. rewrite filter_cons.
  destruct (decide (P x)); cbn [length]; lia.
Qed.

Lemma last_head {A} (l0 : list A) : ∀ o0 d,
  List.last (o0 :: l0) d = List.last l0 o0.
Proof.
  induction l0 as [|a l IH]; intros o0 d; [done|].
  change (List.last (o0 :: a :: l) d) with (List.last (a :: l) d).
  by rewrite !(IH a).
Qed.

(** [pop()] on an array that ends in [o]. *)
Lemma snoc_pop {A} (l : list A) o o0 l0 :
  l ++ [o] = o0 :: l0 →
  List.last l0 o0 = o ∧ removelast (o0 :: l0) = l.
Proof.
  intros Hl.
  assert (Hpop : o0 :: l0 = removelast (o0 :: l0) ++ [List.last l0 o0]).
  { rewrite <- (last_head l0 o0 o0). by apply app_removelast_last. }
  rewrite <- Hl in Hpop at 1. by apply app_inj_tail in Hpop as [-> ->].
Qed.

Lemma removelast_elem {A} (l : list A) a : a ∈ removelast l → a ∈ l.
Proof.
  induction l as [|b l IH]; [done|]. cbn [removelast].
  destruct l as [|c l]; [by intros ?%elem_of_nil|].
  intros [->|Hin]%elem_of_cons; [left|right; by apply IH].
Qed.

Lemma removelast_length {A} (l : list A) :
  (length (removelast l) ≤ length l)%nat.
Proof.
  induction l as [|b l IH]; [done|]. cbn [removelast].
  destruct l as [|c l]; cbn [length] in *; lia.
Qed.

End ListFacts.

(** * Further properties of ObjectPool *)

Module ObjectPoolMore.

Import ObjectPool ObjectPoolProofs.

Section Facts.

Context {T : Type}.

Implicit Types (p : Pool T) (w : World T) (f : Factory T) (o : Obj).

(** *** Sizes of the two sets *)

Lemma size_activate (A : gset Obj) o : (size ({[o]} ∪ A) ≤ S (size A))%nat.
Proof.
  destruct (decide (o ∈ A)) as [Hin|Hout].
  - assert ({[o]} ∪ A = A) as ->; [|lia].
    apply set_eq. intros x. rewrite elem_of_union, elem_of_singleton.
    split; [intros [->|?]; done|auto].
  - rewrite size_union, size_singleton; [lia|].
    intros x ->%elem_of_singleton. done.
Qed.

Lemma size_deactivate (A : gset Obj) o :
  o ∈ A → S (size (A ∖ {[o]})) = size A.
Proof.
  intros Hin. rewrite size_difference, size_singleton.
  - assert (size A ≠ 0)%nat; [|lia].
    intros Hz%size_empty_inv. apply (Hz o) in Hin. by apply elem_of_empty in Hin.
  - by intros x ->%elem_of_singleton.
Qed.

Lemma fill_length f n : ∀ (l : list Obj) w l' w',
  fill f n l w = (Return l', w') →
  length l' = (length l + n)%nat ∧ calls w' = (calls w + n)%nat.
Proof.
  induction n as [|n IH]; intros l w l' w'; cbn [fill].
  - intros [= <- <-]. lia.
  - destruct (call_factory f w) as [[o|e] w1] eqn:Hcf; [|done].
    intros [Hlen Hc]%IH. rewrite length_app in Hlen. cbn [length] in Hlen.
    rewrite (call_factory_calls _ _ _ _ Hcf) in Hc. lia.
Qed.

(** *** The constructor *)

Lemma new_sizes (config : PoolConfig T) w p w' :
  new config w = (Return p, w') →
  availableSize p = Z.max 0 (or_default (initialSize config) 100)
  ∧ activeSize p = 0%Z
  ∧ _maxSize p
    = Z.max (Z.max 0 (or_default (initialSize config) 100))
        (or_default (maxSize config) 1000)
  ∧ calls w'
    = (calls w + Z.to_nat (Z.max 0 (or_default (initialSize config) 100)))%nat.
Proof.
  unfold new, _initializePool. destruct (factory config) as [f|]; [|done].
  cbn [_factory _initialSize _pool].
  destruct (fill _ _ _ _) as [[l|e] w1] eqn:Hfill; [|done].
  intros [= <- <-]. apply fill_length in Hfill as [Hlen Hc].
  unfold availableSize, activeSize.
  cbn [set_pool _pool _activeObjects _maxSize].
  rewrite Hlen, size_empty. cbn [length]. split; [lia|]. done.
Qed.

(** X2. A constructor that returns leaves
    [max(0, initialSize || 100)] instances on the free list, none checked
    out, [_initialSize <= _maxSize], and has called the factory once per
    instance. A missing [initialSize] and an [initialSize] of 0 both give
    100 instances; a negative one gives an empty pool; a [maxSize] below
    [initialSize] is raised to [initialSize]. *)
Theorem constructor_sizes (config : PoolConfig T) w p w' :
  new config w = (Return p, w') →
  (availableSize p = Z.max 0 (or_default (initialSize config) 100)
   ∧ activeSize p = 0%Z
   ∧ (_initialSize p ≤ _maxSize p)%Z
   ∧ Z.of_nat (calls w' - calls w) = availableSize p)
  ∧ (initialSize config = None ∨ initialSize config = Some 0%Z →
     availableSize p = 100%Z)
  ∧ (∀ n, initialSize config = Some n → (n < 0)%Z → availableSize p = 0%Z)
  ∧ (∀ n m, initialSize config = Some n → maxSize config = Some m →
       (0 < m < n)%Z → _maxSize p = n).
Proof.
  intros Hnew. destruct (new_sizes config w p w' Hnew) as (Ha & Hact & Hm & Hc).
  assert (Hi : _initialSize p = Z.max 0 (or_default (initialSize config) 100)).
  { unfold new, _initializePool in Hnew.
    destruct (factory config); [|done].
    destruct (fill _ _ _ _) as [[l|e] w1]; [|done]. by injection Hnew as <- <-. }
  split; [|split; [|split]].
  - split; [done|]. split; [done|]. split; [lia|]. rewrite Ha, Hc. lia.
  - intros [Hn|Hn]; rewrite Ha, Hn; reflexivity.
  - intros n Hn Hneg. rewrite Ha, Hn. cbn [or_default].
    destruct (Z.eqb_spec n 0); lia.
  - intros n m Hn Hmx Hlt. rewrite Hm, Hn, Hmx. cbn [or_default].
    destruct (Z.eqb_spec n 0), (Z.eqb_spec m 0); lia.
Qed.

(** X3. The constructor's failures: without a factory it throws
    [Error('ObjectPool requires a valid factory function')] before
    anything else happens; when the factory throws on one of the initial
    calls, the constructor throws
    [Error('Failed to initialize object pool: ' + message)] and makes no
    further factory call. *)
Theorem constructor_failures :
  (∀ (config : PoolConfig T) w,
     factory config = None →
     new config w
     = (Throw (Error "ObjectPool requires a valid factory function"), w))
  ∧ (∀ (config : PoolConfig T) f w (k : nat) e,
       factory config = Some f →
       (∀ i, (i < k)%nat → returned (f (calls w + i)%nat)) →
       f (calls w + k)%nat = Throw e →
       (Z.of_nat k < or_default (initialSize config) 100)%Z →
       ∃ w',
         new config w
         = (Throw (Error (String.append "Failed to initialize object pool: "
                            (message_of e))), w')
         ∧ calls w' = S (calls w + k)).
Proof.
  split.
  - intros config w Hf. unfold new. by rewrite Hf.
  - intros config f w k e Hf Hok Hthrow Hk. unfold new, _initializePool.
    rewrite Hf. cbn [_factory _initialSize _pool].
    set (n := Z.to_nat (0 `max` or_default (initialSize config) 100)).
    assert (Hn : (k < n)%nat) by (subst n; lia).
    clearbody n. clear Hk.
    assert (Hgen : ∀ k n (l : list Obj) w,
              (k < n)%nat →
              (∀ i, (i < k)%nat → returned (f (calls w + i)%nat)) →
              f (calls w + k)%nat = Throw e →
              ∃ w', fill f n l w = (Throw e, w')
                    ∧ calls w' = S (calls w + k)).
    { clear. induction k as [|k IH]; intros n l w Hn Hok Hthrow.
      - destruct n as [|n]; [lia|]. cbn [fill]. unfold call_factory.
        rewrite Nat.add_0_r in Hthrow. rewrite Hthrow.
        eexists. split; [done|]. cbn [calls]. lia.
      - destruct n as [|n]; [lia|]. cbn [fill]. unfold call_factory.
        pose proof (Hok 0%nat ltac:(lia)) as H0.
        rewrite Nat.add_0_r in H0.
        destruct (f (calls w)) as [[o v]|e0]; [|done].
        destruct (IH n (l ++ [o])
                    (mkWorld (<[o:=v]> (heap w)) (S (calls w))))
          as (w' & -> & Hc); [lia| | |].
        + intros i Hi. cbn [calls].
          replace (S (calls w) + i)%nat with (calls w + S i)%nat by lia.
          apply Hok. lia.
        + cbn [calls].
          by replace (S (calls w) + k)%nat with (calls w + S k)%nat by lia.
        + exists w'. split; [done|]. cbn [calls] in Hc. lia. }
    destruct (Hgen k n [] w Hn Hok Hthrow) as (w' & -> & Hc).
    by exists w'.
Qed.

(** *** The capacity *)

Lemma acquire_capacity p w r p' w' :
  (totalSize p ≤ _maxSize p)%Z →
  acquire p w = (r, p', w') →
  (totalSize p' ≤ _maxSize p')%Z ∧ _maxSize p' = _maxSize p.
Proof.
  intros Hcap. unfold acquire. destruct (_pool p) as [|o0 l0] eqn:Hpool.
  - destruct (negb (_autoExpand p) || (_maxSize p <=? totalSize p)%Z)
      eqn:Hfull; [by intros [= <- <- <-]|].
    apply orb_false_iff in Hfull as [_ Hlt%Z.leb_gt].
    destruct (call_factory _ _) as [[o|e] w1]; intros [= <- <- <-]; [|done].
    split; [|done]. unfold totalSize, availableSize, activeSize in *.
    cbn [set_activeObjects _pool _activeObjects _maxSize].
    pose proof (size_activate (_activeObjects p) o). lia.
  - intros [= <- <- <-]. split; [|done].
    unfold totalSize, availableSize, activeSize in *.
    cbn [set_activeObjects set_pool _pool _activeObjects _maxSize].
    pose proof (size_activate (_activeObjects p) (List.last l0 o0)).
    pose proof (f_equal length (pop_spec o0 l0)) as Hlen.
    rewrite length_app in Hlen. cbn [length] in Hlen.
    rewrite Hpool in Hcap. cbn [length] in Hcap.
    change (length match l0 with
                   | [] => []
                   | _ :: _ => o0 :: removelast l0
                   end) with (length (removelast (o0 :: l0))).
    lia.
Qed.

Lemma release_capacity o p w r p' w' :
  release o p w = (r, p', w') →
  totalSize p' = totalSize p ∧ _maxSize p' = _maxSize p.
Proof.
  unfold release. destruct (decide _) as [Ho|Ho]; [|by intros [= <- <- <-]].
  destruct (call_reset _ _ _) as [[e|] w1]; intros [= <- <- <-]; [done|].
  split; [|done]. unfold totalSize, availableSize, activeSize.
  cbn [set_activeObjects set_pool _pool _activeObjects].
  rewrite length_app. cbn [length].
  pose proof (size_deactivate (_activeObjects p) o Ho). lia.
Qed.

Lemma run_capacity (cs : list (call T)) : ∀ p w p' w',
  (totalSize p ≤ _maxSize p)%Z →
  run cs (p, w) = (p', w') →
  (totalSize p' ≤ _maxSize p')%Z ∧ _maxSize p' = _maxSize p.
Proof.
  induction cs as [|c cs IH]; intros p w p' w' Hcap.
  - by intros [= <- <-].
  - rewrite run_cons. destruct c as [|o|o v]; cbn [step].
    + destruct (acquire p w) as [[r p1] w1] eqn:Ha.
      destruct (acquire_capacity _ _ _ _ _ Hcap Ha) as [Hc1 Hm1].
      intros Hrun. destruct (IH _ _ _ _ Hc1 Hrun) as [? ?].
      split; [done|congruence].
    + destruct (release o p w) as [[r p1] w1] eqn:Hr.
      destruct (release_capacity _ _ _ _ _ _ Hr) as [Ht1 Hm1].
      intros Hrun.
      assert (Hc1 : (totalSize p1 ≤ _maxSize p1)%Z) by lia.
      destruct (IH _ _ _ _ Hc1 Hrun) as [? ?]. split; [done|congruence].
    + by apply IH.
Qed.

(** X1. A pool built by the constructor never manages more instances than
    its capacity: after any sequence of [acquire] and [release] calls and
    field writes, [totalSize <= _maxSize], and [_maxSize] is still the
    value the constructor computed. *)
Theorem pool_never_exceeds_maxSize (config : PoolConfig T) w0 p0 w1
    (cs : list (call T)) p w :
  new config w0 = (Return p0, w1) →
  run cs (p0, w1) = (p, w) →
  (totalSize p ≤ _maxSize p)%Z ∧ _maxSize p = _maxSize p0.
Proof.
  intros Hnew Hrun.
  destruct (new_sizes config w0 p0 w1 Hnew) as (Ha & Hact & Hm & _).
  apply (run_capacity cs p0 w1 p w); [|done]. unfold totalSize. lia.
Qed.

(** *** What [acquire] hands out *)

Lemma acquire_not_active c0 p w o p' w' :
  fresh_factory (_factory p) → partitioned c0 p w →
  acquire p w = (Return o, p', w') →
  (o ∉ _activeObjects p) ∧ o ∈ _activeObjects p' ∧ (o ∉ _pool p').
Proof.
  intros Hf (Hc & Hnd & Hdisj & Hb). unfold acquire.
  destruct (_pool p) as [|o0 l0] eqn:Hpool.
  - destruct (_ || _); [done|].
    destruct (call_factory _ _) as [[o1|e] w1] eqn:Hcf; intros [= <- <- <-].
    destruct (call_factory_Return _ _ _ _ Hcf) as (v & Hv & _).
    pose proof (built_fresh _ c0 _ _ _ Hf Hv) as Hnew.
    cbn [set_activeObjects _pool _activeObjects]. rewrite Hpool.
    split; [intros ?; apply Hnew, Hb; auto|].
    split; [|apply not_elem_of_nil].
    apply elem_of_union. left. by apply elem_of_singleton.
  - intros [= <- <- <-].
    cbn [set_activeObjects set_pool _pool _activeObjects].
    rewrite (pop_spec o0 l0) in Hnd, Hdisj.
    apply NoDup_app in Hnd as (_ & Hno & _).
    split; [|split].
    + apply Hdisj, elem_of_app. right. by apply list_elem_of_singleton.
    + apply elem_of_union. left. by apply elem_of_singleton.
    + intros Hin. apply (Hno _ Hin). by apply list_elem_of_singleton.
Qed.

(** X4. In every state a pool can reach from its constructor (factory
    returning a new object at each call), the instance that [acquire]
    returns was not checked out before the call, is checked out after it,
    has left the free list, and is not returned by the next [acquire]:
    no instance is handed to two holders. *)
Theorem acquire_hands_out_an_idle_instance (config : PoolConfig T) f w0 p0
    w1 (cs : list (call T)) p w o p' w' :
  factory config = Some f → fresh_factory f →
  new config w0 = (Return p0, w1) →
  run cs (p0, w1) = (p, w) →
  acquire p w = (Return o, p', w') →
  (o ∉ _activeObjects p) ∧ o ∈ _activeObjects p' ∧ (o ∉ _pool p')
  ∧ ∀ o2 p2 w2, acquire p' w' = (Return o2, p2, w2) → o2 ≠ o.
Proof.
  intros Hfac Hf Hnew Hrun Hacq.
  destruct (new_partitioned _ _ _ _ _ Hfac Hf Hnew) as (Hp0 & Hf0 & _).
  rewrite <- Hf0 in Hf.
  destruct (run_partitioned _ _ _ _ _ _ Hf Hp0 Hrun) as [Hp Hfp].
  rewrite <- Hfp in Hf.
  destruct (acquire_not_active _ _ _ _ _ _ Hf Hp Hacq) as (? & Hin & ?).
  split; [done|]. split; [done|]. split; [done|].
  intros o2 p2 w2 Hacq2 ->.
  pose proof (acquire_partitioned _ _ _ _ _ _ Hf Hp Hacq) as Hp'.
  rewrite <- (acquire_factory _ _ _ _ _ Hacq) in Hf.
  by destruct (acquire_not_active _ _ _ _ _ _ Hf Hp' Hacq2) as (? & _).
Qed.

(** *** Releases that are refused *)


(** *** [releaseAll] *)

Lemma call_reset_heap (r : Reset T) o w e w' :
  call_reset r o w = (e, w') →
  (∀ x, x ≠ o → heap w' !! x = heap w !! x)
  ∧ (∀ v, heap w !! o = Some v → e = (r v).2 ∧ heap w' !! o = Some (r v).1).
Proof.
  unfold call_reset. destruct (heap w !! o) as [v|] eqn:Hv.
  - destruct (r v) as [v' e'] eqn:Hr. intros [= <- <-]. cbn [heap]. split.
    + intros x Hx. by rewrite lookup_insert_ne.
    + intros v0 [= <-]. rewrite Hr. split; [done|]. apply lookup_insert_eq.
  - intros [= <- <-]. split; [done|]. intros v [=].
Qed.

(** Releasing one by one the members of a list of distinct active
    instances whose resets all return. *)
Lemma release_each_returns (order : list Obj) : ∀ p w,
  NoDup order →
  (∀ o, o ∈ order → o ∈ _activeObjects p) →
  (∀ o v, o ∈ order → heap w !! o = Some v → (_reset p v).2 = None) →
  ∃ p' w',
    release_each order p w = (Return tt, p', w')
    ∧ _pool p' = _pool p ++ order
    ∧ _activeObjects p' = _activeObjects p ∖ list_to_set order
    ∧ _reset p' = _reset p
    ∧ calls w' = calls w
    ∧ (∀ o v, o ∈ order → heap w !! o = Some v →
              heap w' !! o = Some (_reset p v).1)
    ∧ (∀ o, o ∉ order → heap w' !! o = heap w !! o).
Proof.
  induction order as [|o rest IH]; intros p w Hnd Hact Hok.
  - exists p, w. cbn [release_each list_to_set]. rewrite app_nil_r.
    split; [done|]. split; [done|]. split.
    { apply set_eq. intros x. rewrite elem_of_difference.
      split; [intros ?; split; [done|apply not_elem_of_empty]|by intros [? _]]. }
    split; [done|]. split; [done|]. split; [|done].
    by intros o v ?%elem_of_nil.
  - apply NoDup_cons in Hnd as [Hfirst Hnd]. cbn [release_each].
    assert (Ho : o ∈ _activeObjects p) by (apply Hact; left).
    unfold release. destruct (decide _) as [_|Hno]; [|done].
    destruct (call_reset (_reset p) o w) as [e w1] eqn:Hr.
    destruct (call_reset_heap _ _ _ _ _ Hr) as [Hother Hself].
    pose proof (call_reset_calls _ _ _ _ _ Hr) as Hc.
    assert (e = None) as ->.
    { unfold call_reset in Hr. destruct (heap w !! o) as [v|] eqn:Hv.
      - destruct (Hself v eq_refl) as [-> _]. apply (Hok o v); [left|done].
      - by injection Hr as <- <-. }
    set (p1 := set_pool (set_activeObjects p (_activeObjects p ∖ {[o]}))
                 (_pool (set_activeObjects p (_activeObjects p ∖ {[o]}))
                  ++ [o])).
    destruct (IH p1 w1 Hnd) as (p' & w' & Heq & Hpool & Hset & Hres & Hc'
                                & Hin & Hout).
    + intros x Hx. subst p1. cbn [set_pool set_activeObjects _activeObjects].
      apply elem_of_difference. split; [apply Hact; by right|].
      intros ->%elem_of_singleton. done.
    + intros x v Hx Hv. subst p1. cbn [set_pool set_activeObjects _reset].
      apply (Hok x v); [by right|]. rewrite <- Hother; [done|].
      intros ->. done.
    + exists p', w'. split; [done|]. subst p1.
      cbn [set_pool set_activeObjects _pool _activeObjects _reset] in *.
      split; [by rewrite Hpool, <- app_assoc|]. split.
      { rewrite Hset. apply set_eq. intros x. cbn [list_to_set].
        rewrite !elem_of_difference, elem_of_union. tauto. }
      split; [done|]. split; [congruence|]. split.
      * intros x v [->|Hx]%elem_of_cons Hv.
        -- rewrite Hout; [|done]. by apply Hself.
        -- apply Hin; [done|]. rewrite Hother; [done|]. by intros ->.
      * intros x Hx. apply not_elem_of_cons in Hx as [Hne Hx].
        rewrite Hout; [|done]. by apply Hother.
Qed.

Lemma enumerates_size order p :
  enumerates order p → size (_activeObjects p) = length order.
Proof.
  intros [Hnd Hiff]. rewrite <- (size_list_to_set (C := gset Obj)); [|done].
  f_equal. apply set_eq. intros x. rewrite elem_of_list_to_set. by rewrite Hiff.
Qed.

(** X6. When the reset function throws on none of the checked-out
    instances, [releaseAll] returns, leaves no instance checked out,
    appends them to the free list in the order the active set is iterated
    in, keeps [totalSize], calls the factory for nothing, and has applied
    the reset function once to each of them and to no other object. *)
Theorem releaseAll_returns_every_instance order p w :
  enumerates order p →
  (∀ o v, o ∈ order → heap w !! o = Some v → (_reset p v).2 = None) →
  ∃ p' w',
    releaseAll order p w = (Return tt, p', w')
    ∧ _activeObjects p' = ∅
    ∧ _pool p' = _pool p ++ order
    ∧ availableSize p' = totalSize p
    ∧ totalSize p' = totalSize p
    ∧ calls w' = calls w
    ∧ (∀ o v, o ∈ order → heap w !! o = Some v →
              heap w' !! o = Some (_reset p v).1)
    ∧ (∀ o, o ∉ order → heap w' !! o = heap w !! o).
Proof.
  intros Henum Hok. pose proof (enumerates_size _ _ Henum) as Hsize.
  destruct Henum as [Hnd Hiff].
  destruct (release_each_returns order p w Hnd) as
    (p' & w' & Heq & Hpool & Hset & _ & Hc & Hin & Hout);
    [by intros o ?%Hiff|done|].
  assert (Hempty : _activeObjects p' = ∅).
  { rewrite Hset. apply set_eq. intros x.
    rewrite elem_of_difference, elem_of_list_to_set, Hiff.
    split; [by intros [? ?]|by intros ?%elem_of_empty]. }
  exists p', w'. unfold releaseAll. rewrite Heq.
  split; [done|]. split; [done|]. split; [done|].
  unfold totalSize, availableSize, activeSize.
  rewrite Hpool, Hempty, length_app, size_empty, Hsize.
  split; [lia|]. split; [lia|]. done.
Qed.

(** X7. [releaseAll] stops at the first instance whose reset throws: it
    throws [Error('Failed to release all objects: Failed to release
    object: ' + message)], the instances iterated before it are back on
    the free list, that instance and the ones after it are still checked
    out, and [totalSize] is unchanged. *)
Theorem releaseAll_stops_at_the_first_failure l1 o l2 p w v e :
  enumerates (l1 ++ o :: l2) p →
  (∀ o' v', o' ∈ l1 → heap w !! o' = Some v' → (_reset p v').2 = None) →
  heap w !! o = Some v → (_reset p v).2 = Some e →
  ∃ p' w',
    releaseAll (l1 ++ o :: l2) p w
    = (Throw (Error (String.append "Failed to release all objects: "
                       (String.append "Failed to release object: "
                          (message_of e)))), p', w')
    ∧ _pool p' = _pool p ++ l1
    ∧ _activeObjects p' = _activeObjects p ∖ list_to_set l1
    ∧ o ∈ _activeObjects p'
    ∧ (∀ x, x ∈ l2 → x ∈ _activeObjects p')
    ∧ totalSize p' = totalSize p.
Proof.
  intros [Hnd Hiff] Hok Hv He.
  apply NoDup_app in Hnd as (Hnd1 & Hsep & Hnd2).
  apply NoDup_cons in Hnd2 as [Ho2 Hnd2].
  assert (Ho1 : o ∉ l1) by (intros Hin; apply (Hsep o Hin); left).
  destruct (release_each_returns l1 p w Hnd1) as
    (p1 & w1 & Heq & Hpool & Hset & Hres & Hc & Hin & Hout).
  { intros x Hx. apply Hiff, elem_of_app. by left. }
  { done. }
  assert (Hact : ∀ x, x ∈ o :: l2 → x ∈ _activeObjects p1).
  { intros x Hx. rewrite Hset. apply elem_of_difference. split.
    - apply Hiff, elem_of_app. by right.
    - intros Hx1%elem_of_list_to_set. by apply (Hsep x Hx1). }
  assert (Hgen : ∀ l p0 w0 p1 w1 (rest : list Obj),
            release_each l p0 w0 = (Return tt, p1, w1) →
            release_each (l ++ rest) p0 w0 = release_each rest p1 w1).
  { clear. induction l as [|x l IH]; intros p0 w0 p1 w1 rest.
    - by intros [= <- <-].
    - cbn [release_each app].
      destruct (release x p0 w0) as [[[[]|e] p2] w2]; [|done].
      apply IH. }
  exists p1. unfold releaseAll. rewrite (Hgen _ _ _ _ _ _ Heq).
  cbn [release_each]. unfold release.
  destruct (decide (o ∈ _activeObjects p1)) as [_|Hno];
    [|destruct Hno; apply Hact; left].
  unfold call_reset. rewrite (Hout o Ho1), Hv, Hres.
  destruct (_reset p v) as [v' e'] eqn:Hr. cbn [snd] in He. subst e'.
  eexists. split; [reflexivity|]. split; [done|]. split; [done|].
  split; [apply Hact; left|]. split; [intros x Hx; apply Hact; by right|].
  unfold totalSize, availableSize, activeSize. rewrite Hpool, Hset, length_app.
  assert (Hsz : (size (_activeObjects p ∖ list_to_set l1) + length l1
                 = size (_activeObjects p))%nat).
  { rewrite <- (size_list_to_set (C := gset Obj) l1) by done.
    rewrite size_difference; [|].
    - assert (size (list_to_set l1 : gset Obj) ≤ size (_activeObjects p))%nat;
        [|lia].
      apply subseteq_size. intros x Hx%elem_of_list_to_set.
      apply Hiff, elem_of_app. by left.
    - intros x Hx%elem_of_list_to_set. apply Hiff, elem_of_app. by left. }
  lia.
Qed.

(** *** [dispose] *)

(** X8. [dispose] empties the pool: both counters are 0, and an
    [acquire] after it can only return an instance that the factory
    builds at that call (none of the instances the pool held), which
    takes [autoExpand] and a positive [maxSize]. *)
Theorem dispose_forgets_every_instance c0 p w :
  fresh_factory (_factory p) → partitioned c0 p w →
  availableSize (dispose p) = 0%Z
  ∧ activeSize (dispose p) = 0%Z
  ∧ (∀ o p' w', acquire (dispose p) w = (Return o, p', w') →
       (o ∉ _pool p) ∧ (o ∉ _activeObjects p)
       ∧ calls w' = S (calls w) ∧ _autoExpand p = true
       ∧ (0 < _maxSize p)%Z).
Proof.
  intros Hf (Hc & Hnd & Hdisj & Hb).
  split; [reflexivity|].
  split; [unfold activeSize, dispose; cbn [set_activeObjects _activeObjects];
          by rewrite size_empty|].
  intros o p' w'. unfold acquire, dispose, totalSize, availableSize,
    activeSize.
  cbn [set_activeObjects set_pool _pool _activeObjects _autoExpand _maxSize
       _factory].
  rewrite size_empty. cbn [length].
  destruct (_autoExpand p); [|done]. cbn [negb orb].
  destruct (_ <=? _)%Z eqn:Hle; [done|]. apply Z.leb_gt in Hle.
  destruct (call_factory _ _) as [[o1|e] w1] eqn:Hcf; intros [= <- <- <-].
  destruct (call_factory_Return _ _ _ _ Hcf) as (v & Hv & _).
  pose proof (built_fresh _ c0 _ _ _ Hf Hv) as Hnew.
  split; [intros ?; apply Hnew, Hb; auto|].
  split; [intros ?; apply Hnew, Hb; auto|].
  split; [by apply (call_factory_calls _ _ _ _ Hcf)|]. split; [done|lia].
Qed.

End Facts.

Lemma pool_never_exceeds_maxSize_witness :
  let pw := run sample_calls (sample_pool, sample_start.2) in
  (totalSize pw.1 ≤ _maxSize pw.1)%Z ∧ _maxSize pw.1 = _maxSize sample_pool.
Proof.
  intros pw.
  apply (pool_never_exceeds_maxSize sample_config (mkWorld ∅ 0) sample_pool
           sample_start.2 sample_calls pw.1 pw.2).
  - vm_compute. reflexivity.
  - apply surjective_pairing.
Defined.

Lemma constructor_sizes_witness :
  let p := built_from zero_config in
  let w' := (new zero_config (mkWorld ∅ 0)).2 in
  (availableSize p = Z.max 0 (or_default (initialSize zero_config) 100)
   ∧ activeSize p = 0%Z
   ∧ (_initialSize p ≤ _maxSize p)%Z
   ∧ Z.of_nat (calls w' - 0) = availableSize p)
  ∧ (initialSize zero_config = None ∨ initialSize zero_config = Some 0%Z →
     availableSize p = 100%Z)
  ∧ (∀ n, initialSize zero_config = Some n → (n < 0)%Z →
          availableSize p = 0%Z)
  ∧ (∀ n m, initialSize zero_config = Some n →
            maxSize zero_config = Some m → (0 < m < n)%Z → _maxSize p = n).
Proof.
  intros p w'.
  apply (constructor_sizes zero_config (mkWorld ∅ 0) p w').
  vm_compute. reflexivity.
Defined.

Lemma constructor_failures_witness :
  ∃ w',
    new flaky_config (mkWorld ∅ 0)
    = (Throw (Error "Failed to initialize object pool: out of memory"), w')
    ∧ calls w' = 3%nat.
Proof.
  apply (proj2 (@constructor_failures Z) flaky_config flaky_factory
           (mkWorld ∅ 0) 2%nat (Error "out of memory")).
  - reflexivity.
  - intros i Hi. cbn [calls Nat.add]. unfold flaky_factory.
    destruct (Nat.ltb_spec i 2); [exact I|lia].
  - reflexivity.
  - reflexivity.
Defined.

Lemma acquire_hands_out_an_idle_instance_witness :
  let r := acquire sample_pool sample_start.2 in
  (1%nat ∉ _activeObjects sample_pool) ∧ 1%nat ∈ _activeObjects r.1.2
  ∧ (1%nat ∉ _pool r.1.2)
  ∧ ∀ o2 p2 w2, acquire r.1.2 r.2 = (Return o2, p2, w2) → o2 ≠ 1%nat.
Proof.
  intros r.
  apply (acquire_hands_out_an_idle_instance sample_config counting_factory
           (mkWorld ∅ 0) sample_pool sample_start.2 [] sample_pool
           sample_start.2 1%nat r.1.2 r.2).
  - reflexivity.
  - exact counting_factory_fresh.
  - vm_compute. reflexivity.
  - reflexivity.
  - vm_compute. reflexivity.
Defined.


Lemma busy_pool_enumerated (l : list Obj) :
  l = [0; 1; 2]%nat → enumerates l busy_pool.
Proof.
  intros ->. split.
  - repeat (apply NoDup_cons; split;
            [by intros Hin; repeat (apply elem_of_cons in Hin as [?|Hin];
                                    [done|]); apply elem_of_nil in Hin|]).
    apply NoDup_nil_2.
  - intros o. cbn [busy_pool _activeObjects].
    rewrite !elem_of_cons, elem_of_nil, !elem_of_union, !elem_of_singleton.
    tauto.
Qed.

Lemma releaseAll_returns_every_instance_witness :
  ∃ p' w',
    releaseAll [0; 1; 2]%nat busy_pool (busy_world 7) = (Return tt, p', w')
    ∧ _activeObjects p' = ∅
    ∧ _pool p' = _pool busy_pool ++ [0; 1; 2]%nat
    ∧ availableSize p' = totalSize busy_pool
    ∧ totalSize p' = totalSize busy_pool
    ∧ calls w' = calls (busy_world 7)
    ∧ (∀ o v, o ∈ [0; 1; 2]%nat → heap (busy_world 7) !! o = Some v →
              heap w' !! o = Some (_reset busy_pool v).1)
    ∧ (∀ o, o ∉ [0; 1; 2]%nat → heap w' !! o = heap (busy_world 7) !! o).
Proof.
  apply (releaseAll_returns_every_instance [0; 1; 2]%nat busy_pool
           (busy_world 7)).
  - by apply busy_pool_enumerated.
  - intros o v Ho Hv.
    repeat (apply elem_of_cons in Ho as [->|Ho];
            [vm_compute in Hv; injection Hv as <-; reflexivity|]).
    by apply elem_of_nil in Ho.
Defined.

Lemma releaseAll_stops_witness :
  ∃ p' w',
    releaseAll ([0%nat] ++ 1%nat :: [2%nat]) busy_pool (busy_world (-3))
    = (Throw (Error (String.append "Failed to release all objects: "
                       (String.append "Failed to release object: "
                          (message_of (Error "negative"))))), p', w')
    ∧ _pool p' = _pool busy_pool ++ [0%nat]
    ∧ _activeObjects p' = _activeObjects busy_pool ∖ list_to_set [0%nat]
    ∧ 1%nat ∈ _activeObjects p'
    ∧ (∀ x, x ∈ [2%nat] → x ∈ _activeObjects p')
    ∧ totalSize p' = totalSize busy_pool.
Proof.
  apply (releaseAll_stops_at_the_first_failure [0%nat] 1%nat [2%nat]
           busy_pool (busy_world (-3)) (-3)%Z (Error "negative")).
  - by apply busy_pool_enumerated.
  - intros o v Ho Hv. apply elem_of_cons in Ho as [->|Ho].
    + vm_compute in Hv. injection Hv as <-. reflexivity.
    + by apply elem_of_nil in Ho.
  - vm_compute. reflexivity.
  - reflexivity.
Defined.

Lemma dispose_forgets_witness :
  availableSize (dispose sample_pool) = 0%Z
  ∧ activeSize (dispose sample_pool) = 0%Z
  ∧ (∀ o p' w', acquire (dispose sample_pool) sample_start.2
                = (Return o, p', w') →
       (o ∉ _pool sample_pool) ∧ (o ∉ _activeObjects sample_pool)
       ∧ calls w' = S (calls sample_start.2)
       ∧ _autoExpand sample_pool = true
       ∧ (0 < _maxSize sample_pool)%Z).
Proof.
  apply (dispose_forgets_every_instance 0%nat sample_pool sample_start.2).
  - exact counting_factory_fresh.
  - apply (new_partitioned sample_config (mkWorld ∅ 0) sample_pool
             sample_start.2 counting_factory).
    + reflexivity.
    + exact counting_factory_fresh.
    + vm_compute. reflexivity.
Defined.

End ObjectPoolMore.

(** * Further properties of GameLoop *)

Module GameLoopMore.

Import GameLoop GameLoopProofs.

Open Scope Q_scope.

Section Facts.

Context {G : Type}.

Implicit Types (g : GameLoop G) (upd : Callback G) (s : G).


(** When an invocation throws, the step it was to simulate is still in
    the accumulator. *)
Lemma update_steps_backlog upd acc s e :
  (update_steps upd acc s).2 = Some e →
  FIXED_TIME_STEP <= (update_steps upd acc s).1.1.1.
Proof.
  funelim (update_steps upd acc s).
  - done.
  - done.
  - destruct (update_steps upd (acc - FIXED_TIME_STEP) s')
      as [[[acc' s''] evs] thrown].
    cbn [fst snd] in *. apply H.
Qed.

(** A callback that never throws keeps the catch-up loop from throwing. *)
Lemma update_steps_never_throws upd acc s :
  (∀ dt s0, (upd dt s0).2 = None) → (update_steps upd acc s).2 = None.
Proof.
  intros Hok. funelim (update_steps upd acc s).
  - done.
  - specialize (Hok (FIXED_TIME_STEP / 1000) s). by rewrite Heq in Hok.
  - destruct (update_steps upd (acc - FIXED_TIME_STEP) s')
      as [[[acc' s''] evs] thrown].
    cbn [fst snd] in *. by apply H.
Qed.

(** An accumulator that holds a whole step makes the catch-up loop invoke
    the callback. *)
Lemma update_steps_starts upd acc s :
  FIXED_TIME_STEP <= acc → update_args (update_steps upd acc s).1.2 ≠ [].
Proof.
  intros Hge. funelim (update_steps upd acc s).
  - lra.
  - done.
  - destruct (update_steps upd (acc - FIXED_TIME_STEP) s')
      as [[[acc' s''] evs] thrown].
    cbn [fst snd]. by rewrite update_args_update.
Qed.







(** X12. When the update callback throws, the loop stops with the
    step that failed still in the accumulator (the accumulator holds at
    least [FIXED_TIME_STEP]); [start] does not reset the accumulator, so
    the first frame after a restart calls update again. *)
Theorem failed_step_is_retried_after_restart g t s g' s' evs e now t' s2 :
  running g = true →
  _loop t g s = (g', s', evs, Throw e) →
  last evs = Some (console_error "Error in update loop:" e) →
  now <= t' →
  FIXED_TIME_STEP <= accumulator g'
  ∧ running g' = false
  ∧ accumulator (start now g').1 = accumulator g'
  ∧ running (start now g').1 = true
  ∧ update_args (_loop t' (start now g').1 s2).1.2 ≠ [].
Proof.
  intros Hrun Hloop Hlast Hnow.
  destruct (loop_running t g s Hrun) as (g1 & _ & _ & _ & _ & _ & Heq).
  rewrite Heq in Hloop. clear Heq.
  pose proof (update_steps_backlog (update g) (accumulator g1) s) as Hback.
  destruct (update_steps _ _ _) as [[[acc s1] evs1] thrown].
  cbn [fst snd] in *. destruct thrown as [e'|].
  - injection Hloop as <- <- <- <-. specialize (Hback e' eq_refl).
    cbn [stop set_running set_accumulator accumulator running start
         set_lastTime set_lastFPSUpdate fst].
    split; [done|]. split; [done|]. split; [done|]. split; [done|].
    match goal with
    | |- context [_loop t' ?g0 s2] =>
        destruct (loop_running t' g0 s2 eq_refl)
          as (g2 & _ & _ & _ & _ & Hacc2 & Heq2);
          rewrite Heq2; clear Heq2; rewrite Hacc2;
          cbn [accumulator lastTime update]
    end.
    match goal with
    | |- context [update_steps ?u ?a s2] =>
        pose proof (update_steps_starts u a s2) as Hst;
          destruct (update_steps u a s2) as [[[acc2 s3] evs2] thrown2]
    end.
    cbn [fst snd] in Hst.
    assert (Hne : update_args evs2 ≠ []).
    { apply Hst.
      cbn [accumulator lastTime set_lastFPSUpdate set_lastTime set_running
           stop set_accumulator].
      destruct (Q.min_spec (t' - now) MAX_FRAME_TIME) as [[_ ->]|[_ ->]];
        [lra|]. unfold MAX_FRAME_TIME. lra. }
    destruct thrown2 as [e2|]; cbn [fst snd]; [done|].
    destruct (render _ _ s3) as [s4 [e4|]]; cbn [fst snd];
      rewrite update_args_app, app_nil_r; done.
  - destruct (render g _ s1) as [s2' [e'|]]; [|done].
    injection Hloop as <- <- <- <-. rewrite last_app in Hlast.
    cbn in Hlast. by injection Hlast.
Qed.


End Facts.




(** Frames at 16, 600 and 601 ms hand the loop 16 + 250 + 1 ms: it makes
    0, 15 and 1 updates and is left with 1/3 ms. *)
Example three_frames :
  let r := frames [16; 600; 601] sample_loop 0%nat in
  (λ evs, length (update_args evs)) <$> r.2 = [0; 15; 1]%nat
  ∧ accumulator r.1.1 == 1 # 3
  ∧ clamped_time (lastTime sample_loop) [16; 600; 601] == 267.
Proof. vm_compute. done. Qed.

Lemma failed_step_is_retried_witness :
  FIXED_TIME_STEP <= accumulator failing_frame.1.1.1
  ∧ running failing_frame.1.1.1 = false
  ∧ accumulator (start 60 failing_frame.1.1.1).1
    = accumulator failing_frame.1.1.1
  ∧ running (start 60 failing_frame.1.1.1).1 = true
  ∧ update_args (_loop 60 (start 60 failing_frame.1.1.1).1 0%nat).1.2 ≠ [].
Proof.
  apply (failed_step_is_retried_after_restart failing_loop 50 0%nat
           failing_frame.1.1.1 failing_frame.1.1.2 failing_frame.1.2
           (Error "boom") 60 60 0%nat).
  - reflexivity.
  - vm_compute. reflexivity.
  - vm_compute. reflexivity.
  - vm_compute. discriminate.
Defined.


End GameLoopMore.

(** * Further properties of ParticleSystem *)

Module ParticleSystemMore.

Import ParticleSystem ListFacts.

Open Scope Q_scope.

Section Facts.

Variable host : Host.

(** The loop of [createExplosion] never goes past the cap and adds live
    particles only. *)
Lemma explosion_loop_bound n : ∀ i count x y color size velocity now cfg parts
    draws,
  Forall live parts →
  (Z.of_nat (length (explosion_loop host n i count x y color size velocity
                       now cfg parts draws).1)
   ≤ Z.max (Z.of_nat (length parts)) (MAX_PARTICLES cfg))%Z
  ∧ Forall live (explosion_loop host n i count x y color size velocity now
                   cfg parts draws).1.
Proof.
  induction n as [|n IH]; intros i count x y color size velocity now cfg parts
    draws Hlive; cbn [explosion_loop].
  - cbn [fst]. split; [lia|done].
  - destruct (Z.leb_spec (MAX_PARTICLES cfg) (Z.of_nat (length parts)))
      as [Hfull|Hroom].
    + cbn [fst]. split; [lia|done].
    + match goal with
      | |- context [explosion_loop host n ?i' count x y color size velocity
                      now cfg (parts ++ [?p]) ?d] =>
          destruct (IH i' count x y color size velocity now cfg
                      (parts ++ [p]) d) as [Hlen Hl]
      end.
      { apply Forall_app. split; [done|]. by apply Forall_singleton. }
      split; [|done]. rewrite length_app in Hlen. cbn [length] in Hlen. lia.
Qed.

Lemma particle_update_live dt now p p' :
  particle_update host dt now p = (true, p') →
  live p ∧ live p' ∧ expired_at now p = false
  ∧ birth p' = birth p ∧ lifetime p' = lifetime p.
Proof.
  unfold particle_update, live, expired_at.
  destruct (dead p); [done|].
  destruct (Qle_bool _ _); [done|]. by intros [= <-].
Qed.


(** The pass over the set keeps live particles only, and no more than
    there were. *)
Lemma update_each_live clock dt parts : ∀ k,
  (length (update_each host clock dt parts k).1 ≤ length parts)%nat
  ∧ Forall live (update_each host clock dt parts k).1.
Proof.
  induction parts as [|p rest IH]; intros k; cbn [update_each].
  - cbn [fst length]. split; [lia|done].
  - destruct (particle_update host dt (clock k) p) as [alive p'] eqn:Hp.
    specialize (IH (if dead p then k else S k)).
    destruct (update_each host clock dt rest _) as [rest' k'].
    cbn [fst] in *. destruct IH as [Hlen Hl]. destruct alive.
    + apply particle_update_live in Hp as (_ & Hp' & _).
      cbn [length]. split; [lia|by constructor].
    + cbn [length]. split; [lia|done].
Qed.

Lemma apply_op_within_cap clock o ps draws ticks :
  within_cap ps →
  within_cap (apply_op host clock o (ps, draws, ticks)).1.1
  ∧ config (apply_op host clock o (ps, draws, ticks)).1.1 = config ps.
Proof.
  intros [Hcap Hlive]. destruct o as [x y options now| |];
    cbn [apply_op].
  - unfold createExplosion.
    match goal with
    | |- context [explosion_loop host ?n ?i ?c ?x ?y ?col ?sz ?v ?now ?cfg
                    ?parts ?d] =>
        destruct (explosion_loop_bound n i c x y col sz v now cfg parts d
                    Hlive) as [Hlen Hl];
          destruct (explosion_loop host n i c x y col sz v now cfg parts d)
            as [parts' d']
    end.
    cbn [fst snd] in *. split; [|done]. split; [|done].
    unfold particles_size in *. cbn [particles config]. lia.
  - unfold update.
    destruct (update_each_live clock (clock ticks - lastUpdate ps)
                (particles ps) (S ticks)) as [Hlen Hl].
    destruct (update_each host clock _ _ _) as [parts' k'].
    cbn [fst snd] in *. split; [|done]. split; [|done].
    unfold particles_size in *. cbn [particles config]. lia.
  - cbn [fst]. unfold dispose. split; [|done]. split; [|done].
    unfold particles_size. cbn [particles config length]. lia.
Qed.

Lemma apply_ops_within_cap clock os : ∀ ps draws ticks,
  within_cap ps →
  within_cap (apply_ops host clock os (ps, draws, ticks)).1.1
  ∧ config (apply_ops host clock os (ps, draws, ticks)).1.1 = config ps.
Proof.
  induction os as [|o os IH]; intros ps draws ticks Hin.
  - done.
  - unfold apply_ops. cbn [foldl].
    destruct (apply_op_within_cap clock o ps draws ticks Hin) as [H1 Hc1].
    destruct (apply_op host clock o (ps, draws, ticks)) as [[ps1 d1] t1].
    cbn [fst] in *. destruct (IH ps1 d1 t1 H1) as [H2 Hc2].
    split; [exact H2|]. unfold apply_ops in Hc2. by rewrite Hc2.
Qed.

(** X14. The particle cap is an invariant of the system: from the
    constructor on, after any sequence of [createExplosion], [update] and
    [dispose] calls, with any options, coordinates and clock, the set
    holds at most [MAX_PARTICLES] particles (none when the cap is
    negative), none of them dead, and the configuration is the one the
    constructor built. *)
Theorem particle_cap_is_an_invariant clock overrides now0 ps0 os draws ticks :
  new true overrides now0 = Return ps0 →
  let ps := (apply_ops host clock os (ps0, draws, ticks)).1.1 in
  (particles_size ps ≤ Z.max 0 (MAX_PARTICLES (config ps)))%Z
  ∧ Forall (λ p, dead p = false) (particles ps)
  ∧ config ps = config ps0.
Proof.
  intros Hnew ps.
  assert (H0 : within_cap ps0).
  { cbn in Hnew. injection Hnew as <-. split; [|done].
    unfold particles_size. cbn [particles length]. lia. }
  destruct (apply_ops_within_cap clock os ps0 draws ticks H0) as [[? ?] ?].
  done.
Qed.

(** *** What [update] removes *)





(** *** The frame and its performance monitor *)

Lemma update_fields clock ps ticks :
  config (update host clock ps ticks).1 = config ps
  ∧ lastUpdate (update host clock ps ticks).1 = clock ticks
  ∧ isRunning (update host clock ps ticks).1 = isRunning ps
  ∧ frameCount (update host clock ps ticks).1 = frameCount ps.
Proof.
  unfold update. by destruct (update_each host clock _ _ _).
Qed.

Lemma optimize_fields ps :
  config (optimize ps) = config ps
  ∧ lastUpdate (optimize ps) = lastUpdate ps
  ∧ isRunning (optimize ps) = isRunning ps
  ∧ frameCount (optimize ps) = frameCount ps.
Proof. unfold optimize. by destruct (Qle_bool _ _). Qed.

(** X17. A frame of a running system updates, draws the particles that
    are left, counts the frame and asks for the next one. Its performance
    monitor runs on every 60th frame only and measures the time since the
    update of the same frame, not since the previous frame: when the
    clock advanced by no more than [1000 / OPTIMIZATION_THRESHOLD] ms
    during the call, nothing is removed for performance, however long ago
    the previous frame was; when it advanced by more on a 60th frame,
    [optimize] is applied. *)
Theorem monitor_measures_the_frame_itself clock ps ticks :
  isRunning ps = true →
  let u := update host clock ps ticks in
  let d := clock u.2 - clock ticks in
  let r := animate host clock ps ticks in
  r.2 = [rendered (particles u.1); requestAnimationFrame]
  ∧ frameCount r.1.1 = (frameCount ps + 1)%Z
  ∧ lastUpdate r.1.1 = clock ticks
  ∧ config r.1.1 = config ps
  ∧ (Z.rem (frameCount ps + 1) 60 ≠ 0%Z →
     particles r.1.1 = particles u.1 ∧ r.1.2 = u.2)
  ∧ (0 <= d → d * OPTIMIZATION_THRESHOLD (config ps) <= 1000 →
     particles r.1.1 = particles u.1)
  ∧ (Z.rem (frameCount ps + 1) 60 = 0%Z → 0 < d →
     1000 < d * OPTIMIZATION_THRESHOLD (config ps) →
     particles r.1.1 = particles (optimize u.1) ∧ r.1.2 = S u.2).
Proof.
  intros Hrun u d r. subst r d u. unfold animate. rewrite Hrun. cbn [negb].
  destruct (update_fields clock ps ticks) as (Hc & Hl & _ & Hf).
  destruct (update host clock ps ticks) as [ps1 t1]. cbn [fst snd] in *.
  cbn [frameCount]. rewrite Hf, Hc, Hl.
  set (ps2 := mkParticleSystem (config ps) (particles ps1) (clock ticks)
                (isRunning ps1) (frameCount ps + 1)).
  assert (Hopt : particles (optimize ps2) = particles (optimize ps1)).
  { unfold optimize, particles_size. cbn [particles config]. rewrite Hc.
    by destruct (Qle_bool _ _). }
  destruct (optimize_fields ps2) as (Hoc & Hol & _ & Hof).
  set (thr := OPTIMIZATION_THRESHOLD (config ps)).
  assert (Hmon :
    (monitorPerformance clock ps2 t1).2 = S t1
    ∧ frameCount (monitorPerformance clock ps2 t1).1 = (frameCount ps + 1)%Z
    ∧ lastUpdate (monitorPerformance clock ps2 t1).1 = clock ticks
    ∧ config (monitorPerformance clock ps2 t1).1 = config ps
    ∧ (0 <= clock t1 - clock ticks → (clock t1 - clock ticks) * thr <= 1000 →
       particles (monitorPerformance clock ps2 t1).1 = particles ps1)
    ∧ (0 < clock t1 - clock ticks → 1000 < (clock t1 - clock ticks) * thr →
       particles (monitorPerformance clock ps2 t1).1
       = particles (optimize ps1))).
  { unfold monitorPerformance. cbn [lastUpdate config ps2].
    destruct (Qeq_bool (clock t1 - clock ticks) 0) eqn:Hz.
    - apply Qeq_bool_iff in Hz. cbn [fst snd].
      repeat (split; [done|]). intros Hpos. lra.
    - apply Qeq_bool_neq in Hz. fold thr.
      destruct (Qlt_le_dec _ _) as [Hlt|Hge]; cbn [fst snd].
      + fold ps2. rewrite Hoc, Hol, Hof, Hopt.
        repeat (split; [done|]). split; [|done].
        intros Hd Hle. exfalso.
        assert (Hd' : 0 < clock t1 - clock ticks) by lra.
        assert (Hle' : thr * (clock t1 - clock ticks) <= 1000) by lra.
        apply (Qle_shift_div_l _ _ _ Hd') in Hle'. lra.
      + repeat (split; [done|]).
        intros Hd Hgt. exfalso.
        assert (Hgt' : 1000 < thr * (clock t1 - clock ticks)) by lra.
        apply (Qlt_shift_div_r _ _ _ Hd) in Hgt'. lra. }
  destruct Hmon as (Hm1 & Hm2 & Hm3 & Hm4 & Hm5 & Hm6).
  destruct (Z.eqb_spec (Z.rem (frameCount ps + 1) 60) 0) as [Hrem|Hrem].
  - destruct (monitorPerformance clock ps2 t1) as [ps3 t3].
    cbn [fst snd] in *. repeat (split; [done|]).
    intros _ ? ?. split; [auto|done].
  - cbn [fst snd frameCount lastUpdate config particles ps2].
    repeat (split; [done|]). done.
Qed.

End Facts.

(** *** What [optimize] removes *)

Lemma optimize_count_fifth n : optimize_count n = (n / 5)%nat.
Proof.
  unfold optimize_count.
  assert (H : Qfloor (inject_Z (Z.of_nat n) * 0.2) = (Z.of_nat n / 5)%Z).
  { unfold Qfloor, Qmult, inject_Z. cbn [Qnum Qden].
    change (Z.pos (1 * 10)) with (5 * 2)%Z.
    by rewrite Z.div_mul_cancel_r. }
  rewrite H. change 5%Z with (Z.of_nat 5).
  by rewrite <- Nat2Z.inj_div, Nat2Z.id.
Qed.

Lemma half_cap (s M : Z) :
  Qle_bool (inject_Z s) (inject_Z M / 2) = true ↔ (2 * s ≤ M)%Z.
Proof.
  rewrite Qle_bool_iff. unfold Qle, Qdiv, Qmult, Qinv, inject_Z. cbn. lia.
Qed.

Lemma insert_by_birth_perm p l : insert_by_birth p l ≡ₚ p :: l.
Proof.
  induction l as [|q l IH]; cbn [insert_by_birth]; [done|].
  destruct (Qle_bool _ _); [done|]. rewrite IH. apply Permutation_swap.
Qed.

Lemma sort_by_birth_perm l : sort_by_birth l ≡ₚ l.
Proof.
  induction l as [|p l IH]; [done|]. unfold sort_by_birth. cbn [foldr].
  rewrite insert_by_birth_perm. by constructor.
Qed.

Lemma insert_by_birth_sorted p l :
  by_birth l → by_birth (insert_by_birth p l).
Proof.
  induction l as [|q l IH]; cbn [insert_by_birth by_birth].
  - done.
  - intros [Hq Hl]. destruct (Qle_bool _ _) eqn:Hle.
    + apply Qle_bool_iff in Hle. cbn [by_birth]. split; [|done].
      constructor; [done|].
      eapply Forall_impl; [exact Hq|]. cbn. intros r Hr. lra.
    + assert (Hqp : birth q.2 <= birth p.2).
      { destruct (Qlt_le_dec (birth q.2) (birth p.2)) as [?|Hc]; [lra|].
        apply Qle_bool_iff in Hc. congruence. }
      cbn [by_birth]. split; [|by apply IH].
      rewrite insert_by_birth_perm. by constructor.
Qed.

Lemma sort_by_birth_sorted l : by_birth (sort_by_birth l).
Proof.
  induction l as [|p l IH]; [done|]. unfold sort_by_birth. cbn [foldr].
  by apply insert_by_birth_sorted.
Qed.

Lemma by_birth_app l1 l2 r k :
  by_birth (l1 ++ l2) → r ∈ l1 → k ∈ l2 → birth r.2 <= birth k.2.
Proof.
  induction l1 as [|p l1 IH]; cbn [app by_birth].
  - by intros _ ?%elem_of_nil.
  - intros [Hp Hl] [->|Hr]%elem_of_cons Hk; [|by apply IH].
    rewrite Forall_forall in Hp. apply Hp. apply elem_of_app. by right.
Qed.

Lemma imap_pair_fst {A} (l : list A) : ∀ k,
  (imap (λ j, pair (k + j)%nat) l).*1 = seq k (length l).
Proof.
  induction l as [|a l IH]; intros k; [done|].
  rewrite imap_cons. cbn [fmap list_fmap length seq fst]. f_equal; [lia|].
  rewrite <- (IH (S k)). f_equal. apply imap_ext. intros i b _. cbn.
  f_equal. lia.
Qed.

Lemma imap_pair_snd {A} (l : list A) : ∀ k,
  (imap (λ j, pair (k + j)%nat) l).*2 = l.
Proof.
  induction l as [|a l IH]; intros k; [done|].
  rewrite imap_cons. cbn [fmap list_fmap snd]. f_equal.
  rewrite <- (IH (S k)) at 2. f_equal. apply imap_ext. intros i b _. cbn.
  f_equal. lia.
Qed.

(** Deleting the members of a prefix of a rearrangement of the set
    leaves the rest of the rearrangement. *)
Lemma delete_prefix (L R K : list (nat * Particle)) :
  R ++ K ≡ₚ L → NoDup L.*1 →
  filter (λ ip : nat * Particle, ip.1 ∉ R.*1) L ≡ₚ K.
Proof.
  intros HSL Hnd. rewrite <- HSL. rewrite <- HSL in Hnd. clear HSL L.
  rewrite fmap_app in Hnd. apply NoDup_app in Hnd as (_ & Hsep & _).
  rewrite filter_app, filter_none, filter_all; [done| |].
  - apply Forall_forall. intros ip Hip Hin. apply (Hsep _ Hin).
    apply list_elem_of_fmap. by exists ip.
  - apply Forall_forall. intros ip Hip Hnot. apply Hnot.
    apply list_elem_of_fmap. by exists ip.
Qed.

(** X16. [optimize] does nothing while the set holds no more than half
    the cap. Above that it removes a fifth of the particles (rounded
    down): none of the removed ones was born after one that stays, and
    the ones that stay are untouched and keep their order. *)
Theorem optimize_removes_the_oldest_fifth ps :
  ((2 * particles_size ps ≤ MAX_PARTICLES (config ps))%Z → optimize ps = ps)
  ∧ ((MAX_PARTICLES (config ps) < 2 * particles_size ps)%Z →
     ∃ removed,
       particles ps ≡ₚ removed ++ particles (optimize ps)
       ∧ length removed = (length (particles ps) / 5)%nat
       ∧ particles (optimize ps) `sublist_of` particles ps
       ∧ (∀ r k, r ∈ removed → k ∈ particles (optimize ps) →
                 birth r <= birth k)
       ∧ config (optimize ps) = config ps
       ∧ lastUpdate (optimize ps) = lastUpdate ps).
Proof.
  unfold optimize. split.
  - intros Hle. apply half_cap in Hle. by rewrite Hle.
  - intros Hgt.
    destruct (Qle_bool _ _) eqn:Hle; [apply half_cap in Hle; lia|].
    cbn [particles config lastUpdate]. unfold oldestParticles.
    set (L := imap pair (particles ps)).
    set (n := optimize_count (length (particles ps))).
    assert (HL1 : L.*1 = seq 0 (length (particles ps)))
      by apply (imap_pair_fst (particles ps) 0).
    assert (HL2 : L.*2 = particles ps)
      by apply (imap_pair_snd (particles ps) 0).
    pose proof (sort_by_birth_perm L) as Hperm.
    pose proof (sort_by_birth_sorted L) as Hsorted.
    rewrite <- (take_drop n (sort_by_birth L)) in Hperm, Hsorted.
    assert (Hnd : NoDup L.*1) by (rewrite HL1; apply NoDup_seq).
    pose proof (delete_prefix L _ _ Hperm Hnd) as Hkept.
    exists (take n (sort_by_birth L)).*2.
    split; [|split; [|split; [|split]]].
    + rewrite Hkept, <- fmap_app, Hperm. by rewrite HL2.
    + rewrite length_fmap, length_take.
      assert (Hlen : length (sort_by_birth L) = length (particles ps)).
      { rewrite (sort_by_birth_perm L). apply length_imap. }
      rewrite Hlen. unfold n. rewrite optimize_count_fifth.
      pose proof (Nat.Div0.div_le_upper_bound (length (particles ps)) 5
                    (length (particles ps))). lia.
    + assert (Hsub : (filter (λ ip : nat * Particle,
                                ip.1 ∉ (take n (sort_by_birth L)).*1) L).*2
                     `sublist_of` L.*2)
        by apply fmap_sublist, sublist_filter.
      by rewrite HL2 in Hsub.
    + intros r k [ir [-> Hr]]%list_elem_of_fmap Hk.
      rewrite Hkept in Hk. apply list_elem_of_fmap in Hk as [ik [-> Hk]].
      by apply (by_birth_app _ _ _ _ Hsorted).
    + done.
Qed.



Lemma particle_cap_witness :
  let ps :=
    (apply_ops sample_host sample_clock
       [Explode 0 0 (burst 4) 0; Update; Explode 1 1 (burst 7) 0]
       (mkParticleSystem (mkConfig 5 2000 100 60) [] 0 false 0%Z, 0%nat,
        0%nat)).1.1 in
  (particles_size ps ≤ Z.max 0 (MAX_PARTICLES (config ps)))%Z
  ∧ Forall (λ p, dead p = false) (particles ps)
  ∧ config ps = mkConfig 5 2000 100 60.
Proof.
  apply (particle_cap_is_an_invariant sample_host sample_clock
           (Some (mkConfigOverrides (Some 5%Z) None None None)) 0
           (mkParticleSystem (mkConfig 5 2000 100 60) [] 0 false 0%Z)
           [Explode 0 0 (burst 4) 0; Update; Explode 1 1 (burst 7) 0]
           0%nat 0%nat).
  reflexivity.
Defined.


(** Three particles born at 0 with a lifetime of 2000 ms, read at 1200,
    1800 and 2400 ms: the third is removed. *)
Example update_removes_the_third :
  length (particles capped_system) = 3%nat
  ∧ length (particles (update sample_host sample_clock capped_system 1%nat).1)
    = 2%nat.
Proof. vm_compute. done. Qed.

Lemma optimize_removes_the_oldest_fifth_witness :
  ∃ removed,
    particles aged_system ≡ₚ removed ++ particles (optimize aged_system)
    ∧ length removed = (length (particles aged_system) / 5)%nat
    ∧ particles (optimize aged_system) `sublist_of` particles aged_system
    ∧ (∀ r k, r ∈ removed → k ∈ particles (optimize aged_system) →
              birth r <= birth k)
    ∧ config (optimize aged_system) = config aged_system
    ∧ lastUpdate (optimize aged_system) = lastUpdate aged_system.
Proof.
  apply (proj2 (optimize_removes_the_oldest_fifth aged_system)).
  vm_compute. reflexivity.
Defined.

(** Of six particles born at 30, 10, 20, 10, 50 and 40 ms, the first of
    the two born at 10 ms is removed. *)
Example optimize_removes_the_first_of_the_oldest :
  birth <$> particles (optimize aged_system) = [30; 20; 10; 50; 40].
Proof. vm_compute. reflexivity. Qed.

Lemma monitor_measures_the_frame_itself_witness :
  let u := update sample_host sample_clock aged_system 0%nat in
  let d := sample_clock u.2 - sample_clock 0%nat in
  let r := animate sample_host sample_clock aged_system 0%nat in
  r.2 = [rendered (particles u.1); requestAnimationFrame]
  ∧ frameCount r.1.1 = (frameCount aged_system + 1)%Z
  ∧ lastUpdate r.1.1 = sample_clock 0%nat
  ∧ config r.1.1 = config aged_system
  ∧ (Z.rem (frameCount aged_system + 1) 60 ≠ 0%Z →
     particles r.1.1 = particles u.1 ∧ r.1.2 = u.2)
  ∧ (0 <= d → d * OPTIMIZATION_THRESHOLD (config aged_system) <= 1000 →
     particles r.1.1 = particles u.1)
  ∧ (Z.rem (frameCount aged_system + 1) 60 = 0%Z → 0 < d →
     1000 < d * OPTIMIZATION_THRESHOLD (config aged_system) →
     particles r.1.1 = particles (optimize u.1) ∧ r.1.2 = S u.2).
Proof.
  apply (monitor_measures_the_frame_itself sample_host sample_clock
           aged_system 0%nat).
  reflexivity.
Defined.

End ParticleSystemMore.

(** * Further properties of ParticleEmitter *)

Module ParticleEmitterMore.

Import ParticleEmitter ListFacts.

Open Scope Q_scope.

Lemma or_defaultQ_nonzero o d : ¬ d == 0 → ¬ or_defaultQ o d == 0.
Proof.
  intros Hd. unfold or_defaultQ. destruct o as [q|]; [|done].
  destruct (Qeq_bool q 0) eqn:Hq; [done|]. by apply Qeq_bool_neq.
Qed.

Lemma or_defaultQ_given q d : ¬ q == 0 → or_defaultQ (Some q) d = q.
Proof.
  intros Hq. unfold or_defaultQ. destruct (Qeq_bool q 0) eqn:Hz; [|done].
  by apply Qeq_bool_iff in Hz.
Qed.

(** X18. The constructor throws
    [Error('ParticleEmitter requires a configuration object')] without a
    configuration object and
    [Error('Position (x, y) must be specified as numbers')] when [x] or
    [y] is no number. Otherwise it returns an idle emitter without
    particles at the position given. None of its lifetime, speed, size,
    spread, gravity and opacity is zero: a configured 0 is replaced by
    the default, as a missing key is (so gravity 0 becomes 0.5 and
    opacity 0 becomes 1), while every other number, negative ones too, is
    taken as it is. *)
Theorem constructor_replaces_zero_by_the_default :
  (∀ now,
     new None now
     = Throw (Error "ParticleEmitter requires a configuration object"))
  ∧ (∀ c now,
       c_x c = None ∨ c_y c = None →
       new (Some c) now
       = Throw (Error "Position (x, y) must be specified as numbers"))
  ∧ (∀ c now x0 y0,
       c_x c = Some x0 → c_y c = Some y0 →
       ∃ em,
         new (Some c) now = Return em
         ∧ e_x em = x0 ∧ e_y em = y0
         ∧ particles em = [] ∧ isActive em = false ∧ lastUpdate em = now
         ∧ (¬ e_lifetime em == 0 ∧ ¬ e_speed em == 0 ∧ ¬ e_size em == 0
            ∧ ¬ e_spread em == 0 ∧ ¬ e_gravity em == 0
            ∧ ¬ e_opacity em == 0)
         ∧ (c_gravity c = Some 0 → e_gravity em = 0.5)
         ∧ (c_opacity c = Some 0 → e_opacity em = 1)
         ∧ (∀ q, ¬ q == 0 →
              (c_lifetime c = Some q → e_lifetime em = q)
              ∧ (c_speed c = Some q → e_speed em = q)
              ∧ (c_size c = Some q → e_size em = q)
              ∧ (c_spread c = Some q → e_spread em = q)
              ∧ (c_gravity c = Some q → e_gravity em = q)
              ∧ (c_opacity c = Some q → e_opacity em = q))).
Proof.
  split; [done|]. split.
  - intros c now [Hx|Hy]; unfold new, validateConfig.
    + by rewrite Hx.
    + rewrite Hy. by destruct (c_x c).
  - intros c now x0 y0 Hx Hy. unfold new, validateConfig. rewrite Hx, Hy.
    eexists. split; [reflexivity|].
    cbn [e_x e_y particles isActive lastUpdate e_lifetime e_speed e_size
         e_spread e_gravity e_opacity default_to].
    repeat (split; [done|]).
    split; [repeat split; by apply or_defaultQ_nonzero|].
    split; [by intros ->|]. split; [by intros ->|].
    intros q Hq. repeat split; intros ->; by apply or_defaultQ_given.
Qed.

Section Facts.

Variable host : Host.

(** *** Emission *)

Lemma emit_loop_adds n : ∀ em draws,
  ∃ added,
    particles (emit_loop host n em draws).1 = particles em ++ added
    ∧ length added = n
    ∧ Forall (as_built em) added
    ∧ settings (emit_loop host n em draws).1 = settings em
    ∧ isActive (emit_loop host n em draws).1 = isActive em
    ∧ lastUpdate (emit_loop host n em draws).1 = lastUpdate em.
Proof.
  induction n as [|n IH]; intros em draws; cbn [emit_loop].
  - exists []. cbn [fst]. by rewrite app_nil_r.
  - unfold createParticle.
    match goal with
    | |- context [emit_loop host n (set_particles em (_ ++ [?p])) ?d] =>
        destruct (IH (set_particles em (particles em ++ [p])) d)
          as (added & Hp & Hlen & Hall & Hset & Hact & Hlast);
          exists (p :: added)
    end.
    rewrite Hp, Hset, Hact, Hlast. cbn [set_particles particles].
    rewrite <- app_assoc. cbn [length]. repeat (split; [done || lia|]).
    split; [|done]. constructor; [done|]. exact Hall.
Qed.

Lemma alive_iff p : alive p ↔ 0 < life p.
Proof.
  unfold alive. destruct (Qle_bool (life p) 0) eqn:Hle; cbn [negb Is_true].
  - apply Qle_bool_iff in Hle. split; [done|lra].
  - split; [|done]. intros _.
    destruct (Qlt_le_dec 0 (life p)) as [?|Hc]; [done|].
    apply Qle_bool_iff in Hc. congruence.
Qed.

Lemma emitter_update_spec dt em :
  particles (update dt em)
  = filter alive (map (update_particle em dt) (particles em))
  ∧ (isActive (update dt em) = true
     ↔ particles (update dt em) ≠ [] ∧ isActive em = true)
  ∧ settings (update dt em) = settings em
  ∧ lastUpdate (update dt em) = lastUpdate em.
Proof.
  unfold update. fold alive.
  change (filter (λ p, Is_true (negb (Qle_bool (life p) 0))))
    with (filter alive).
  cbn [set_particles particles].
  destruct (filter alive _) as [|p l]; cbn [set_isActive set_particles
    particles isActive settings lastUpdate e_x e_y e_lifetime e_speed e_size
    e_color e_spread e_gravity e_opacity].
  - split; [done|]. split; [|done]. split; [done|]. by intros [? _].
  - split; [done|]. split; [|done]. split; [|by intros [_ ?]]. done.
Qed.

(** X19. [emit(N)] on an idle emitter starts the animation at once, and
    that first frame is handed the time since [lastUpdate], which an idle
    emitter has not refreshed. So when the emitter has been idle for its
    particle lifetime or longer, all [N] new particles are removed in the
    very call that made them and the emitter is idle again; otherwise all
    [N] are there, aged by the idle time, and the emitter is active. *)
Theorem emission_after_an_idle_period N now em draws :
  isActive em = false → particles em = [] → (1 ≤ N)%Z →
  let em' := (emit host (Some N) now em draws).1 in
  lastUpdate em' = now
  ∧ settings em' = settings em
  ∧ (e_lifetime em <= now - lastUpdate em →
     particleCount em' = 0%Z ∧ isActive em' = false)
  ∧ (now - lastUpdate em < e_lifetime em →
     particleCount em' = N ∧ isActive em' = true
     ∧ Forall (λ p, life p == e_lifetime em - (now - lastUpdate em)
                    ∧ maxLife p = e_lifetime em) (particles em')).
Proof.
  intros Hidle Hnone HN em'. subst em'. unfold emit. cbn [default_to].
  destruct (Z.ltb_spec N 1); [lia|].
  destruct (emit_loop_adds (Z.to_nat N) em draws)
    as (added & Hp & Hlen & Hall & Hset & Hact & Hlast).
  destruct (emit_loop host (Z.to_nat N) em draws) as [em1 d1].
  cbn [fst] in *. rewrite Hact, Hidle. cbn [negb fst].
  unfold animate. cbn [set_isActive isActive negb fst].
  match goal with
  | |- context [update ?dt ?e] =>
      destruct (emitter_update_spec dt e) as (Hup & Hua & Hus & Hul);
        set (em2 := update dt e) in *
  end.
  cbn [set_lastUpdate set_isActive particles lastUpdate isActive] in *.
  rewrite Hul, Hus. split; [done|]. split; [exact Hset|].
  rewrite Hp, Hnone, Hlast in Hup. cbn [app] in Hup.
  unfold particleCount. split.
  - intros Hold. rewrite filter_none in Hup.
    + rewrite Hup in *. split; [done|].
      destruct (isActive em2); [|done]. by destruct (proj1 Hua eq_refl).
    + apply Forall_map. eapply Forall_impl; [exact Hall|].
      intros q (Hl & _ & _).
      rewrite alive_iff. cbn [update_particle life]. rewrite Hl. lra.
  - intros Hyoung. rewrite filter_all in Hup.
    + rewrite Hup, length_map, Hlen. split; [lia|]. split.
      * apply Hua. split; [|done]. rewrite Hup. destruct added; [|done].
        cbn [length] in Hlen. lia.
      * apply Forall_map. eapply Forall_impl; [exact Hall|].
        intros q (Hl & Hm & _).
        cbn [update_particle life maxLife]. rewrite Hl. split; [lra|done].
    + apply Forall_map. eapply Forall_impl; [exact Hall|].
      intros q (Hl & _ & _).
      rewrite alive_iff. cbn [update_particle life]. rewrite Hl. lra.
Qed.

(** *** What holds between calls *)

Lemma fading l m o :
  0 < l → l <= m → 0 < o → 0 < l / m * o ∧ l / m * o <= o.
Proof.
  intros Hl Hm Ho. assert (Hpos : 0 < m) by lra.
  assert (H0 : 0 < l / m) by (apply Qlt_shift_div_l; [done|lra]).
  assert (H1 : l / m <= 1) by (apply Qle_shift_div_r; [done|lra]).
  split; nra.
Qed.

Lemma settings_fields em em' :
  settings em' = settings em →
  e_lifetime em' = e_lifetime em ∧ e_opacity em' = e_opacity em.
Proof. unfold settings. by intros [= _ _ -> _ _ _ _ _ ->]. Qed.

Lemma update_items dt em :
  0 <= dt → 0 < e_lifetime em → 0 < e_opacity em →
  Forall (λ p, life p <= maxLife p ∧ maxLife p = e_lifetime em)
    (particles em) →
  Forall (λ p, 0 < life p ∧ life p <= maxLife p
               ∧ maxLife p = e_lifetime em
               ∧ 0 < opacity p ∧ opacity p <= e_opacity em)
    (particles (update dt em)).
Proof.
  intros Hdt Hlife Hop Hall.
  destruct (emitter_update_spec dt em) as (-> & _).
  apply Forall_forall. intros p [Halive Hin]%list_elem_of_filter.
  apply alive_iff in Halive. apply list_elem_of_In, in_map_iff in Hin.
  destruct Hin as (q & <- & Hq%list_elem_of_In).
  rewrite Forall_forall in Hall. destruct (Hall q Hq) as [Hle Hmax].
  cbn [update_particle life maxLife opacity] in *.
  assert (Hlm : life q - dt <= maxLife q) by lra.
  destruct (fading (life q - dt) (maxLife q) (e_opacity em) Halive Hlm Hop).
  done.
Qed.

Lemma well_formed_items em :
  well_formed em →
  Forall (λ p, life p <= maxLife p ∧ maxLife p = e_lifetime em)
    (particles em).
Proof.
  intros [Hall _]. eapply Forall_impl; [exact Hall|]. cbn. tauto.
Qed.

Lemma animate_settled t now em :
  settled t em → t <= now →
  settled now (animate now em).1 ∧ settings (animate now em).1 = settings em.
Proof.
  intros (Hwf & Hlast & Hlife & Hop) Ht. unfold animate.
  destruct (isActive em) eqn:Hact; cbn [negb fst].
  - match goal with
    | |- context [update ?dt ?e] =>
        pose proof (update_items dt e) as Hitems;
          destruct (emitter_update_spec dt e) as (Hup & Hua & Hus & Hul);
          set (em2 := update dt e) in *
    end.
    cbn [set_lastUpdate particles lastUpdate isActive e_lifetime e_opacity]
      in *.
    assert (Hs : settings em2 = settings em) by (rewrite Hus; done).
    destruct (settings_fields _ _ Hs) as [Hl2 Ho2].
    split; [|done]. split; [|rewrite Hul, Hl2, Ho2; split; [lra|done]].
    split.
    + rewrite Hl2, Ho2. apply Hitems; [lra|done|done|].
      by apply well_formed_items.
    + rewrite Hua. rewrite Hact. tauto.
  - split; [|done]. split; [done|]. split; [lra|done].
Qed.

Lemma emit_settled t count now em draws :
  settled t em → t <= now →
  settled now (emit host count now em draws).1
  ∧ settings (emit host count now em draws).1 = settings em.
Proof.
  intros (Hwf & Hlast & Hlife & Hop) Ht. unfold emit.
  destruct (_ <? 1)%Z eqn:Hc; cbn [fst].
  { split; [|done]. split; [done|]. split; [lra|done]. }
  apply Z.ltb_ge in Hc.
  destruct (emit_loop_adds (Z.to_nat (default_to 1%Z count)) em draws)
    as (added & Hp & Hlen & Hall & Hset & Hact & Hlast1).
  destruct (emit_loop host _ em draws) as [em1 d1]. cbn [fst] in *.
  destruct (settings_fields _ _ Hset) as [Hl1 Ho1].
  assert (Hne : added ≠ []).
  { intros ->. cbn [length] in Hlen. lia. }
  assert (Hitems1 : Forall (λ p, 0 < life p ∧ life p <= maxLife p
                                 ∧ maxLife p = e_lifetime em1
                                 ∧ 0 < opacity p ∧ opacity p <= e_opacity em1)
                      (particles em1)).
  { rewrite Hp, Hl1, Ho1. apply Forall_app. split; [apply Hwf|].
    eapply Forall_impl; [exact Hall|]. intros p (Ha & Hb & Hc').
    rewrite Ha, Hb, Hc'. repeat split; (done || lra). }
  destruct (isActive em1) eqn:Hact1; cbn [negb fst].
  - split; [|done]. split; [|rewrite Hlast1, Hl1, Ho1; split; [lra|done]].
    split; [done|]. rewrite Hact1, Hp. split; [|done]. intros _.
    destruct (particles em); [done|done].
  - assert (Hst : settled t (set_isActive em1 true)).
    { split; [|cbn [set_isActive lastUpdate e_lifetime e_opacity];
               rewrite Hlast1, Hl1, Ho1; done].
      split; [exact Hitems1|]. cbn [set_isActive isActive particles].
      split; [|done]. intros _. rewrite Hp. by destruct (particles em). }
    destruct (animate_settled t now _ Hst Ht) as [Hs2 Hset2].
    split; [done|]. rewrite Hset2. exact Hset.
Qed.

Lemma apply_op_settled t o st :
  settled t st.1 → in_order t [o] →
  ∃ t', settled t' (apply_op host o st).1
        ∧ settings (apply_op host o st).1 = settings st.1
        ∧ ∀ os, in_order t (o :: os) → in_order t' os.
Proof.
  intros Hst Hord. destruct o as [count now|now|]; cbn [apply_op fst].
  - destruct Hord as [Ht _]. exists now.
    destruct (emit_settled t count now st.1 st.2 Hst Ht) as [? ?].
    split; [done|]. split; [done|]. by intros os [_ ?].
  - destruct Hord as [Ht _]. exists now.
    destruct (animate_settled t now st.1 Hst Ht) as [? ?].
    split; [done|]. split; [done|]. by intros os [_ ?].
  - exists t. destruct Hst as (Hwf & Hlast & Hlife & Hop).
    split; [|done]. split; [|done]. split; [done|].
    cbn [stop set_particles set_isActive isActive particles]. done.
Qed.

(** X20. An emitter built with a positive lifetime and a positive
    opacity, used through [emit], its animation frames and [stop] with
    times that never run backwards: between calls every particle has
    [0 < life <= maxLife], [maxLife] is the emitter's lifetime, its
    opacity is within [(0, opacity]] of the emitter, the emitter is
    active exactly when it holds particles, and its settings are the ones
    the constructor chose. *)
Theorem emitter_stays_well_formed c now0 em0 os draws :
  new (Some c) now0 = Return em0 →
  0 < e_lifetime em0 → 0 < e_opacity em0 →
  in_order now0 os →
  let em := (apply_ops host os (em0, draws)).1 in
  well_formed em ∧ settings em = settings em0.
Proof.
  intros Hnew Hlife Hop Hord em. subst em.
  assert (H0 : settled now0 (em0, draws).1).
  { unfold new in Hnew. destruct (validateConfig c); [|done].
    injection Hnew as <-. cbn [fst] in *.
    split; [|split; [cbn [lastUpdate]; lra|done]]. split; [done|].
    cbn [isActive particles]. done. }
  change (settings em0) with (settings (em0, draws).1).
  generalize dependent (em0, draws). clear Hnew Hlife Hop.
  generalize dependent now0.
  induction os as [|o os IH]; intros t Hord st Hst.
  - split; [apply Hst|done].
  - unfold apply_ops. cbn [foldl].
    assert (Ho : in_order t [o]).
    { destruct o; cbn [in_order] in *; tauto. }
    destruct (apply_op_settled t o st Hst Ho) as (t' & Hst' & Hset & Hnext).
    destruct (IH t' (Hnext os Hord) _ Hst') as [Hwf Hs].
    split; [exact Hwf|]. unfold apply_ops in Hs. by rewrite Hs.
Qed.

End Facts.

Lemma constructor_replaces_zero_witness :
  ∃ em,
    new (Some weightless) 0 = Return em
    ∧ e_x em = 10 ∧ e_y em = 20
    ∧ particles em = [] ∧ isActive em = false ∧ lastUpdate em = 0
    ∧ (¬ e_lifetime em == 0 ∧ ¬ e_speed em == 0 ∧ ¬ e_size em == 0
       ∧ ¬ e_spread em == 0 ∧ ¬ e_gravity em == 0 ∧ ¬ e_opacity em == 0)
    ∧ (c_gravity weightless = Some 0 → e_gravity em = 0.5)
    ∧ (c_opacity weightless = Some 0 → e_opacity em = 1)
    ∧ (∀ q, ¬ q == 0 →
         (c_lifetime weightless = Some q → e_lifetime em = q)
         ∧ (c_speed weightless = Some q → e_speed em = q)
         ∧ (c_size weightless = Some q → e_size em = q)
         ∧ (c_spread weightless = Some q → e_spread em = q)
         ∧ (c_gravity weightless = Some q → e_gravity em = q)
         ∧ (c_opacity weightless = Some q → e_opacity em = q)).
Proof.
  apply (proj2 (proj2 constructor_replaces_zero_by_the_default) weightless 0
           10 20); reflexivity.
Defined.

(** An emitter asked for no gravity pulls its particles down by 0.5. *)
Example zero_gravity_is_not_available :
  e_gravity idle_emitter = 0.5.
Proof. reflexivity. Qed.

Lemma emission_after_an_idle_period_witness :
  let em' := (emit sample_host (Some 10%Z) 5000 idle_emitter 0).1 in
  lastUpdate em' = 5000
  ∧ settings em' = settings idle_emitter
  ∧ (e_lifetime idle_emitter <= 5000 - lastUpdate idle_emitter →
     particleCount em' = 0%Z ∧ isActive em' = false)
  ∧ (5000 - lastUpdate idle_emitter < e_lifetime idle_emitter →
     particleCount em' = 10%Z ∧ isActive em' = true
     ∧ Forall (λ p, life p == e_lifetime idle_emitter
                              - (5000 - lastUpdate idle_emitter)
                    ∧ maxLife p = e_lifetime idle_emitter) (particles em')).
Proof.
  apply (emission_after_an_idle_period sample_host 10 5000 idle_emitter 0).
  - reflexivity.
  - reflexivity.
  - lia.
Defined.

(** Ten particles emitted five seconds after the emitter was built, with
    a lifetime of two seconds: none is left when [emit] returns. *)
Example first_emission_is_lost :
  particleCount (emit sample_host (Some 10%Z) 5000 idle_emitter 0).1 = 0%Z
  ∧ particleCount (emit sample_host (Some 10%Z) 1000 idle_emitter 0).1
    = 10%Z.
Proof. vm_compute. done. Qed.

Lemma emitter_stays_well_formed_witness :
  let em :=
    (apply_ops sample_host
       [Emit (Some 3%Z) 100; Frame 116; Emit None 120; Frame 2101; Stop;
        Emit (Some 2%Z) 2200]
       (idle_emitter, 0%nat)).1 in
  well_formed em ∧ settings em = settings idle_emitter.
Proof.
  apply (emitter_stays_well_formed sample_host weightless 0 idle_emitter
           [Emit (Some 3%Z) 100; Frame 116; Emit None 120; Frame 2101; Stop;
            Emit (Some 2%Z) 2200] 0%nat).
  - reflexivity.
  - reflexivity.
  - reflexivity.
  - cbn [in_order]. repeat split; (exact I || (vm_compute; discriminate)).
Defined.

End ParticleEmitterMore.

(** * Further properties of the pooled Particle *)

Module ParticleMore.

Import Particle ParticleProofs ListFacts.

Open Scope Q_scope.

Section Facts.

Variable host : Host.

(** *** The static pool *)

Lemma recycle_spec self st :
  objs (recycle self st) = objs st
  ∧ pool (recycle self st)
    = if (length (pool st) <? poolSize)%nat then pool st ++ [self]
      else pool st.
Proof. unfold recycle. by destruct (_ <? _)%nat. Qed.

Lemma recycle_ok self st :
  pool_ok st → is_Some (objs st !! self) → pool_ok (recycle self st).
Proof.
  intros [Hlen Hin] Hself. destruct (recycle_spec self st) as [Ho Hp].
  unfold pool_ok. rewrite Ho, Hp.
  destruct (Nat.ltb_spec (length (pool st)) poolSize); [|done].
  rewrite length_app. cbn [length]. split; [lia|].
  intros o [?|Heq%list_elem_of_singleton]%elem_of_app; [auto|by subst].
Qed.

Lemma pool_ok_insert st self p :
  pool_ok st → pool_ok (mkStore (<[self := p]> (objs st)) (pool st)).
Proof.
  intros [Hlen Hin]. split; [done|]. cbn [objs pool]. intros o Ho.
  destruct (decide (o = self)) as [->|Hne].
  - rewrite lookup_insert_eq. by eexists.
  - rewrite lookup_insert_ne by done. by apply Hin.
Qed.

Lemma init_ok config self st :
  pool_ok st → pool_ok (init host config self st).2.
Proof.
  intros Hok. unfold init. destruct (objs st !! self) as [p|]; [|done].
  destruct (init_fields host config p); [|done].
  cbn [snd]. by apply pool_ok_insert.
Qed.

Lemma update_ok dt self st : pool_ok st → pool_ok (update dt self st).2.
Proof.
  intros Hok. unfold update. destruct (objs st !! self) as [p|]; [|done].
  destruct (active p); cbn [negb]; [|done].
  destruct (Qle_bool _ _); cbn [snd].
  - apply recycle_ok; [by apply pool_ok_insert|].
    cbn [objs]. rewrite lookup_insert_eq. by eexists.
  - by apply pool_ok_insert.
Qed.

Lemma destroy_ok self st : pool_ok st → pool_ok (destroy self st).
Proof.
  intros Hok. unfold destroy. destruct (objs st !! self) as [p|]; [|done].
  apply recycle_ok; [by apply pool_ok_insert|].
  cbn [objs]. rewrite lookup_insert_eq. by eexists.
Qed.

Lemma create_ok config st : pool_ok st → pool_ok (create host config st).2.
Proof.
  intros [Hlen Hin]. unfold create.
  destruct (pool st) as [|o0 l0] eqn:Hpool.
  - match goal with
    | |- context [init host config ?r ?s] =>
        pose proof (init_ok config r s) as Hi;
          destruct (init host config r s) as [[?|?] st']
    end; cbn [snd] in *; apply Hi; split; cbn [pool objs]; rewrite ?Hpool;
      cbn [length]; try lia; by intros o ?%elem_of_nil.
  - match goal with
    | |- context [init host config ?r ?s] =>
        pose proof (init_ok config r s) as Hi;
          destruct (init host config r s) as [[?|?] st']
    end; cbn [snd] in *; apply Hi; split; cbn [pool objs];
      try (pose proof (removelast_length (o0 :: l0)); cbn [length] in *; lia);
      intros o Ho%removelast_elem; by apply Hin.
Qed.

Lemma apply_op_ok o st : pool_ok st → pool_ok (apply_op host o st).
Proof.
  intros Hok. destruct o; cbn [apply_op].
  - by apply create_ok.
  - by apply init_ok.
  - by apply update_ok.
  - by apply destroy_ok.
Qed.

(** X21. The static pool of the class never holds more than [poolSize]
    (1000) entries, and every entry is an instance that exists, after
    any sequence of [create], [init], [update] and [destroy] calls. *)
Theorem static_pool_stays_within_poolSize os st :
  (length (pool st) ≤ poolSize)%nat →
  (∀ o, o ∈ pool st → is_Some (objs st !! o)) →
  (length (pool (apply_ops host os st)) ≤ poolSize)%nat
  ∧ ∀ o, o ∈ pool (apply_ops host os st) →
         is_Some (objs (apply_ops host os st) !! o).
Proof.
  intros Hlen Hin. assert (Hok : pool_ok st) by done. clear Hlen Hin.
  revert st Hok. induction os as [|o os IH]; intros st Hok; [done|].
  unfold apply_ops. cbn [foldl]. apply IH. by apply apply_op_ok.
Qed.

(** *** Instances handed out twice, and instances lost *)

Lemma init_valid c x0 y0 self st p :
  c_x c = Some x0 → c_y c = Some y0 → objs st !! self = Some p →
  ∃ p',
    init host (Some c) self st
    = (Return tt, mkStore (<[self := p']> (objs st)) (pool st))
    ∧ x p' = x0 ∧ y p' = y0 ∧ active p' = true ∧ elapsed p' = 0.
Proof.
  intros Hx Hy Hp. unfold init, init_fields. rewrite Hp, Hx, Hy.
  eexists. split; [reflexivity|]. done.
Qed.

Lemma create_pops c x0 y0 l o st p :
  c_x c = Some x0 → c_y c = Some y0 →
  pool st = l ++ [o] → objs st !! o = Some p →
  ∃ p',
    create host (Some c) st
    = (Return o, mkStore (<[o := p']> (objs st)) l)
    ∧ x p' = x0 ∧ y p' = y0 ∧ active p' = true ∧ elapsed p' = 0.
Proof.
  intros Hx Hy Hpool Hp. unfold create. rewrite Hpool.
  destruct (l ++ [o]) as [|o0 l0] eqn:Hl; [by destruct l|].
  destruct (snoc_pop l o o0 l0 Hl) as [Hlast Hrest].
  rewrite Hlast, Hrest.
  destruct (init_valid c x0 y0 o (mkStore (objs st) l) p Hx Hy Hp)
    as (p' & -> & Hfields).
  by exists p'.
Qed.

Lemma update_expires dt self st p :
  objs st !! self = Some p → active p = true →
  lifetime p <= elapsed p + dt →
  ∃ p',
    objs (update dt self st).2 !! self = Some p'
    ∧ (update dt self st).1 = false
    ∧ pool (update dt self st).2
      = if (length (pool st) <? poolSize)%nat
        then pool st ++ [self] else pool st.
Proof.
  intros Hp Ha Hexp%Qle_bool_iff. unfold update.
  rewrite Hp, Ha, Hexp. cbn [negb fst snd].
  match goal with
  | |- context [recycle self ?s] => destruct (recycle_spec self s) as [Ho Hq]
  end.
  rewrite Ho, Hq. cbn [objs pool]. rewrite lookup_insert_eq.
  eexists. done.
Qed.

(** X22. [destroy] on a particle that [update] has already expired puts
    the same instance on the static pool a second time (neither call
    looks whether it is there). The next two [create] calls then return
    that one instance to two callers, and it carries the configuration of
    the second call. *)
Theorem destroy_after_expiry_pools_the_particle_twice self st p dt c1 c2 x1
    y1 x2 y2 :
  objs st !! self = Some p → active p = true →
  lifetime p <= elapsed p + dt →
  (length (pool st) + 2 ≤ poolSize)%nat →
  c_x c1 = Some x1 → c_y c1 = Some y1 →
  c_x c2 = Some x2 → c_y c2 = Some y2 →
  let st2 := destroy self (update dt self st).2 in
  let r3 := create host (Some c1) st2 in
  let r4 := create host (Some c2) r3.2 in
  (update dt self st).1 = false
  ∧ pool st2 = pool st ++ [self; self]
  ∧ r3.1 = Return self ∧ r4.1 = Return self
  ∧ pool r4.2 = pool st
  ∧ ∃ p4, objs r4.2 !! self = Some p4
          ∧ x p4 = x2 ∧ y p4 = y2 ∧ active p4 = true.
Proof.
  intros Hp Ha Hexp Hroom Hx1 Hy1 Hx2 Hy2.
  destruct (update_expires dt self st p Hp Ha Hexp)
    as (p1 & Hp1 & Hret & Hpool1).
  destruct (update dt self st) as [b st1]. cbn [fst snd] in *.
  destruct (Nat.ltb_spec (length (pool st)) poolSize); [|lia].
  cbn zeta.
  assert (Hd : ∃ p2, objs (destroy self st1) !! self = Some p2
                     ∧ pool (destroy self st1) = pool st ++ [self; self]).
  { unfold destroy. rewrite Hp1.
    match goal with
    | |- context [recycle self ?s] =>
        destruct (recycle_spec self s) as [Ho Hq]
    end.
    rewrite Ho, Hq. cbn [objs pool]. rewrite Hpool1, length_app.
    cbn [length].
    destruct (Nat.ltb_spec (length (pool st) + 1) poolSize); [|lia].
    rewrite lookup_insert_eq. eexists. split; [done|].
    by rewrite <- app_assoc. }
  destruct Hd as (p2 & Hp2 & Hpool2).
  split; [done|]. split; [done|].
  change (pool st ++ [self; self]) with (pool st ++ [self] ++ [self])
    in Hpool2.
  rewrite app_assoc in Hpool2.
  destruct (create_pops c1 x1 y1 _ self _ p2 Hx1 Hy1 Hpool2 Hp2)
    as (p3 & -> & _).
  cbn [fst snd]. split; [done|].
  edestruct (create_pops c2 x2 y2 (pool st) self
               (mkStore (<[self := p3]> (objs (destroy self st1)))
                  (pool st ++ [self])) p3 Hx2 Hy2)
    as (p4 & -> & Hx4 & Hy4 & Ha4 & _); [done|apply lookup_insert_eq|].
  cbn [fst snd pool objs]. split; [done|]. split; [done|].
  exists p4. rewrite lookup_insert_eq. done.
Qed.

(** X23. [create] takes an instance off the static pool before it looks
    at the configuration: when [init] rejects the configuration, [create]
    throws, and the instance it had popped is off the pool and is handed
    to nobody. With an empty pool the call builds an instance and leaves
    it behind in the same way. *)
Theorem failed_create_drops_a_pooled_particle config l o st :
  pool st = l ++ [o] → is_Some (objs st !! o) →
  (config = None
   ∨ ∃ c, config = Some c ∧ (c_x c = None ∨ c_y c = None)) →
  create host config st
  = (Throw (Error (match config with
                   | None => "Invalid particle configuration"
                   | Some _ => "Particle position (x, y) must be numbers"
                   end)),
     mkStore (objs st) l).
Proof.
  intros Hpool [p Hp] Hbad. unfold create. rewrite Hpool.
  destruct (l ++ [o]) as [|o0 l0] eqn:Hl; [by destruct l|].
  destruct (snoc_pop l o o0 l0 Hl) as [Hlast Hrest].
  rewrite Hlast, Hrest. unfold init, init_fields. cbn [objs].
  rewrite Hp. destruct Hbad as [->|(c & -> & [Hx|Hy])]; [done| |].
  - by rewrite Hx.
  - rewrite Hy. by destruct (c_x c).
Qed.

(** *** Motion *)

Lemma updates_inactive dts : ∀ self st p,
  objs st !! self = Some p → active p = false → updates dts self st = st.
Proof.
  induction dts as [|dt dts IH]; intros self st p Hp Ha; [done|].
  unfold updates. cbn [foldl].
  rewrite (update_inactive dt self st p Hp Ha). cbn [snd].
  by apply (IH self st p).
Qed.

Lemma update_moves dt self st p :
  objs st !! self = Some p → active p = true →
  ∃ p',
    objs (update dt self st).2 !! self = Some p'
    ∧ (active p' = true →
       x p' = x p + vx p ∧ y p' = y p + vy p
       ∧ vx p' = vx p * drag p ∧ vy p' = (vy p + gravity p) * drag p
       ∧ gravity p' = gravity p ∧ drag p' = drag p).
Proof.
  intros Hp Ha. unfold update. rewrite Hp, Ha. cbn [negb].
  destruct (Qle_bool _ _); cbn [snd].
  - destruct (recycle_spec self
                (mkStore (<[self := mkParticle (x p) (y p) (vx p) (vy p)
                                      (size p) (color p) (alpha p)
                                      (gravity p) (drag p) (lifetime p)
                                      (elapsed p + dt) false]> (objs st))
                   (pool st))) as [-> _].
    cbn [objs]. rewrite lookup_insert_eq. eexists. split; [done|]. done.
  - cbn [objs]. rewrite lookup_insert_eq. eexists. split; [done|]. done.
Qed.

Lemma updates_same_motion dts1 : ∀ dts2 self sta stb p q p1 p2,
  length dts1 = length dts2 →
  objs sta !! self = Some p → objs stb !! self = Some q →
  same_motion p q → active p = active q →
  objs (updates dts1 self sta) !! self = Some p1 → active p1 = true →
  objs (updates dts2 self stb) !! self = Some p2 → active p2 = true →
  same_motion p1 p2.
Proof.
  induction dts1 as [|d1 dts1 IH];
    intros [|d2 dts2] self sta stb p q p1 p2 Hlen Hp Hq Hsame Hact H1 Ha1 H2
      Ha2; try done.
  - unfold updates in H1, H2. cbn [foldl] in H1, H2.
    rewrite Hp in H1. rewrite Hq in H2. by simplify_eq.
  - unfold updates in H1, H2. cbn [foldl] in H1, H2.
    fold (updates dts1 self (update d1 self sta).2) in H1.
    fold (updates dts2 self (update d2 self stb).2) in H2.
    destruct (active p) eqn:Hap.
    + destruct (update_moves d1 self sta p Hp Hap) as (p' & Hp' & Hm1).
      destruct (update_moves d2 self stb q Hq (eq_sym Hact))
        as (q' & Hq' & Hm2).
      destruct (active p') eqn:Hap'.
      2:{ rewrite (updates_inactive dts1 self _ p' Hp' Hap') in H1.
          rewrite Hp' in H1. injection H1 as <-. congruence. }
      destruct (active q') eqn:Haq'.
      2:{ rewrite (updates_inactive dts2 self _ q' Hq' Haq') in H2.
          rewrite Hq' in H2. injection H2 as <-. congruence. }
      apply (IH dts2 self (update d1 self sta).2 (update d2 self stb).2 p' q'
               p1 p2); try done.
      * by injection Hlen.
      * destruct Hsame as (Hx & Hy & Hvx & Hvy & Hg & Hd).
        destruct (Hm1 eq_refl) as (Ex & Ey & Evx & Evy & Eg & Ed).
        destruct (Hm2 eq_refl) as (Fx & Fy & Fvx & Fvy & Fg & Fd).
        unfold same_motion.
        rewrite Ex, Ey, Evx, Evy, Eg, Ed, Fx, Fy, Fvx, Fvy, Fg, Fd.
        by rewrite Hx, Hy, Hvx, Hvy, Hg, Hd.
      * by rewrite Hap', Haq'.
    + rewrite (update_inactive d1 self sta p Hp Hap) in H1. cbn [snd] in H1.
      rewrite (updates_inactive dts1 self sta p Hp Hap) in H1.
      rewrite Hp in H1. injection H1 as <-. congruence.
Qed.

(** X24. The motion of a particle depends on how often it was updated,
    not on the time the updates cover: two runs of the same number of
    [update] calls on the same particle, with whatever [deltaTime]
    values, leave it at the same position with the same velocity, as long
    as it is still active after both. *)
Theorem motion_is_per_update_not_per_time dts1 dts2 self st p p1 p2 :
  length dts1 = length dts2 →
  objs st !! self = Some p →
  objs (updates dts1 self st) !! self = Some p1 → active p1 = true →
  objs (updates dts2 self st) !! self = Some p2 → active p2 = true →
  x p1 = x p2 ∧ y p1 = y p2 ∧ vx p1 = vx p2 ∧ vy p1 = vy p2.
Proof.
  intros Hlen Hp H1 Ha1 H2 Ha2.
  destruct (updates_same_motion dts1 dts2 self st st p p p1 p2 Hlen Hp Hp)
    as (? & ? & ? & ? & _); done.
Qed.

End Facts.

Lemma static_pool_witness :
  (length (pool (apply_ops sample_host
                   [Update 1000 0%nat; Destroy 0%nat; Create None;
                    Create (Some (at_origin None))] one_particle))
   ≤ poolSize)%nat
  ∧ ∀ o, o ∈ pool (apply_ops sample_host
                     [Update 1000 0%nat; Destroy 0%nat; Create None;
                      Create (Some (at_origin None))] one_particle) →
         is_Some (objs (apply_ops sample_host
                          [Update 1000 0%nat; Destroy 0%nat; Create None;
                           Create (Some (at_origin None))] one_particle)
                  !! o).
Proof.
  apply (static_pool_stays_within_poolSize sample_host
           [Update 1000 0%nat; Destroy 0%nat; Create None;
            Create (Some (at_origin None))] one_particle).
  - vm_compute. lia.
  - intros o Ho. vm_compute in Ho. by apply elem_of_nil in Ho.
Defined.

Lemma destroy_after_expiry_witness :
  let st2 := destroy 0%nat (update 1000 0%nat one_particle).2 in
  let r3 := create sample_host (Some (at_origin None)) st2 in
  let r4 := create sample_host (Some (at_origin (Some 0.5))) r3.2 in
  (update 1000 0%nat one_particle).1 = false
  ∧ pool st2 = pool one_particle ++ [0%nat; 0%nat]
  ∧ r3.1 = Return 0%nat ∧ r4.1 = Return 0%nat
  ∧ pool r4.2 = pool one_particle
  ∧ ∃ p4, objs r4.2 !! 0%nat = Some p4
          ∧ x p4 = 0 ∧ y p4 = 0 ∧ active p4 = true.
Proof.
  apply (destroy_after_expiry_pools_the_particle_twice sample_host 0%nat
           one_particle (newborn (at_origin None)) 1000 (at_origin None)
           (at_origin (Some 0.5)) 0 0 0 0).
  - reflexivity.
  - reflexivity.
  - vm_compute. discriminate.
  - vm_compute. lia.
  - reflexivity.
  - reflexivity.
  - reflexivity.
  - reflexivity.
Defined.

(** The particle that two callers now share has the alpha the second
    caller asked for. *)
Example shared_particle_has_the_second_alpha :
  let st2 := destroy 0%nat (update 1000 0%nat one_particle).2 in
  let r3 := create sample_host (Some (at_origin None)) st2 in
  let r4 := create sample_host (Some (at_origin (Some 0.5))) r3.2 in
  alpha <$> objs r3.2 !! 0%nat = Some 1
  ∧ alpha <$> objs r4.2 !! 0%nat = Some 0.5.
Proof. vm_compute. done. Qed.

Lemma failed_create_witness :
  create sample_host None (destroy 0%nat one_particle)
  = (Throw (Error "Invalid particle configuration"),
     mkStore (objs (destroy 0%nat one_particle)) []).
Proof.
  apply (failed_create_drops_a_pooled_particle sample_host None [] 0%nat
           (destroy 0%nat one_particle)).
  - reflexivity.
  - vm_compute. by eexists.
  - by left.
Defined.

Lemma motion_is_per_update_witness :
  x mature = x young ∧ y mature = y young
  ∧ vx mature = vx young ∧ vy mature = vy young.
Proof.
  apply (motion_is_per_update_not_per_time [16; 16; 0] [1; 2; 3] 0%nat
           (born (at_origin (Some 0.5))) (newborn (at_origin (Some 0.5)))
           mature young).
  - reflexivity.
  - reflexivity.
  - vm_compute. reflexivity.
  - reflexivity.
  - vm_compute. reflexivity.
  - reflexivity.
Defined.

(** After three updates the particle is at the same place, whether they
    covered 32 ms or 6 ms; only its age and its alpha differ. *)
Example same_place_different_age :
  x mature = x young ∧ elapsed mature = 32 ∧ elapsed young = 6.
Proof. vm_compute. done. Qed.

End ParticleMore.

(** * Further properties of ExplosionEffect *)

Module ExplosionEffectMore.

Import ExplosionEffect ExplosionEffect.Effect ParticleProofs.

Open Scope Q_scope.

(** *** The constructor *)

Lemma validateConfig_returns c :
  (∀ n, o_PARTICLE_COUNT c = Some n → (0 ≤ n)%Z) →
  (∀ s, o_PARTICLE_SIZE c = Some s → 0 <= s) →
  validateConfig c = Return tt.
Proof.
  intros Hn Hs. unfold validateConfig.
  destruct (o_PARTICLE_COUNT c) as [n|].
  - specialize (Hn n eq_refl).
    destruct (Z.ltb_spec n 0); [lia|]. rewrite andb_false_r.
    destruct (o_PARTICLE_SIZE c) as [s|]; [|done].
    specialize (Hs s eq_refl). destruct (Qeq_bool s 0) eqn:Hz; [done|].
    apply Qeq_bool_neq in Hz. cbn [negb andb].
    destruct (Qle_bool s 0) eqn:Hle; [|done].
    apply Qle_bool_iff in Hle. exfalso. apply Hz. lra.
  - destruct (o_PARTICLE_SIZE c) as [s|]; [|done].
    specialize (Hs s eq_refl). destruct (Qeq_bool s 0) eqn:Hz; [done|].
    apply Qeq_bool_neq in Hz. cbn [negb andb].
    destruct (Qle_bool s 0) eqn:Hle; [|done].
    apply Qle_bool_iff in Hle. exfalso. apply Hz. lra.
Qed.

Lemma new_returned c eff :
  new c = Return eff →
  (0 ≤ cfg_PARTICLE_COUNT (config eff))%Z
  ∧ 0 <= cfg_PARTICLE_SIZE (config eff)
  ∧ particles eff = [] ∧ isActive eff = false ∧ lastUpdate eff = 0.
Proof.
  unfold new, validateConfig.
  destruct (o_PARTICLE_COUNT c) as [n|] eqn:Hn.
  - destruct (Z.eqb_spec n 0) as [->|Hne]; cbn [negb andb].
    + destruct (o_PARTICLE_SIZE c) as [s|] eqn:Hs.
      * destruct (Qeq_bool s 0) eqn:Hz; cbn [negb andb].
        -- apply Qeq_bool_iff in Hz. intros [= <-].
           cbn [config cfg_PARTICLE_COUNT cfg_PARTICLE_SIZE default_to].
           split; [done|]. split; [lra|done].
        -- destruct (Qle_bool s 0) eqn:Hle; [done|]. intros [= <-].
           cbn [config cfg_PARTICLE_COUNT cfg_PARTICLE_SIZE default_to].
           split; [done|]. split; [|done].
           destruct (Qlt_le_dec s 0) as [Hc|?]; [|done].
           assert (Hc' : s <= 0) by lra. apply Qle_bool_iff in Hc'.
           congruence.
      * intros [= <-]. done.
    + destruct (Z.ltb_spec n 0); [done|].
      destruct (o_PARTICLE_SIZE c) as [s|] eqn:Hs.
      * destruct (Qeq_bool s 0) eqn:Hz; cbn [negb andb].
        -- apply Qeq_bool_iff in Hz. intros [= <-].
           cbn [config cfg_PARTICLE_COUNT cfg_PARTICLE_SIZE default_to].
           split; [done|]. split; [lra|done].
        -- destruct (Qle_bool s 0) eqn:Hle; [done|]. intros [= <-].
           cbn [config cfg_PARTICLE_COUNT cfg_PARTICLE_SIZE default_to].
           split; [done|]. split; [|done].
           destruct (Qlt_le_dec s 0) as [Hc|?]; [|done].
           assert (Hc' : s <= 0) by lra. apply Qle_bool_iff in Hc'.
           congruence.
      * intros [= <-]. done.
  - destruct (o_PARTICLE_SIZE c) as [s|] eqn:Hs.
    + destruct (Qeq_bool s 0) eqn:Hz; cbn [negb andb].
      * apply Qeq_bool_iff in Hz. intros [= <-].
        cbn [config cfg_PARTICLE_COUNT cfg_PARTICLE_SIZE default_to].
        split; [done|]. split; [lra|done].
      * destruct (Qle_bool s 0) eqn:Hle; [done|]. intros [= <-].
        cbn [config cfg_PARTICLE_COUNT cfg_PARTICLE_SIZE default_to].
        split; [done|]. split; [|done].
        destruct (Qlt_le_dec s 0) as [Hc|?]; [|done].
        assert (Hc' : s <= 0) by lra. apply Qle_bool_iff in Hc'.
        congruence.
    + intros [= <-]. done.
Qed.

(** X25. The constructor throws
    [Error('Particle count must be positive')] for a negative
    [PARTICLE_COUNT] and, the count being acceptable,
    [Error('Particle size must be greater than 0')] for a negative
    [PARTICLE_SIZE]. It accepts a count of 0 and a size of 0, whatever
    the messages say, and then returns an inactive effect without
    particles whose configuration has the keys given and the defaults for
    the others. *)
Theorem constructor_accepts_zero_and_rejects_negatives c :
  (∀ n, o_PARTICLE_COUNT c = Some n → (n < 0)%Z →
        new c = Throw (Error "Particle count must be positive"))
  ∧ ((∀ n, o_PARTICLE_COUNT c = Some n → (0 ≤ n)%Z) →
     ∀ s, o_PARTICLE_SIZE c = Some s → s < 0 →
          new c = Throw (Error "Particle size must be greater than 0"))
  ∧ ((∀ n, o_PARTICLE_COUNT c = Some n → (0 ≤ n)%Z) →
     (∀ s, o_PARTICLE_SIZE c = Some s → 0 <= s) →
     ∃ eff,
       new c = Return eff
       ∧ particles eff = [] ∧ isActive eff = false ∧ lastUpdate eff = 0
       ∧ cfg_PARTICLE_COUNT (config eff)
         = default_to 50%Z (o_PARTICLE_COUNT c)
       ∧ cfg_PARTICLE_SIZE (config eff) = default_to 3 (o_PARTICLE_SIZE c)
       ∧ cfg_PARTICLE_LIFETIME (config eff)
         = default_to 1000 (o_PARTICLE_LIFETIME c)).
Proof.
  split; [|split].
  - intros n Hn Hneg. unfold new, validateConfig. rewrite Hn.
    destruct (Z.eqb_spec n 0); [lia|]. by destruct (Z.ltb_spec n 0); [|lia].
  - intros Hcount s Hs Hneg. unfold new, validateConfig. rewrite Hs.
    assert (Hc : match o_PARTICLE_COUNT c with
                 | Some n => negb (n =? 0)%Z && (n <? 0)%Z
                 | None => false
                 end = false).
    { destruct (o_PARTICLE_COUNT c) as [n|]; [|done].
      specialize (Hcount n eq_refl). destruct (Z.ltb_spec n 0); [lia|].
      by rewrite andb_false_r. }
    rewrite Hc. destruct (Qeq_bool s 0) eqn:Hz.
    { apply Qeq_bool_iff in Hz. lra. }
    destruct (Qle_bool s 0) eqn:Hle; [done|].
    assert (Hle' : s <= 0) by lra. apply Qle_bool_iff in Hle'. congruence.
  - intros Hcount Hsize. unfold new.
    rewrite (validateConfig_returns c Hcount Hsize).
    eexists. split; [reflexivity|]. done.
Qed.

Section Facts.

Variable host : Host.

(** *** [trigger] *)

Lemma radius_positive s : 0 <= s → 0 < or_defaultQ (Some s) PARTICLE_SIZE.
Proof.
  intros Hs. unfold or_defaultQ. destruct (Qeq_bool s 0) eqn:Hz; [done|].
  apply Qeq_bool_neq in Hz. destruct (Qlt_le_dec 0 s) as [?|Hc]; [done|].
  exfalso. apply Hz. lra.
Qed.

Lemma trigger_loop_spec n : ∀ x0 y0 options clock ticks draws,
  length (trigger_loop host n x0 y0 options clock ticks draws).1.1 = n
  ∧ (trigger_loop host n x0 y0 options clock ticks draws).1.2
    = (ticks + n)%nat
  ∧ (trigger_loop host n x0 y0 options clock ticks draws).2
    = (draws + 3 * n)%nat
  ∧ Forall (λ p, x p = x0 ∧ y p = y0 ∧ alpha p = 1
                 ∧ radius p = or_defaultQ (opt_size options) PARTICLE_SIZE
                 ∧ lifetime p
                   = or_defaultQ (opt_lifetime options) PARTICLE_LIFETIME
                 ∧ ∃ i, (ticks ≤ i < ticks + n)%nat ∧ birth p = clock i)
      (trigger_loop host n x0 y0 options clock ticks draws).1.1.
Proof.
  induction n as [|n IH]; intros x0 y0 options clock ticks draws;
    cbn [trigger_loop].
  - cbn [fst snd length]. repeat split; (lia || done).
  - unfold ExplosionEffect.new.
    match goal with
    | |- context [trigger_loop host n x0 y0 options clock (S ticks) ?d] =>
        destruct (IH x0 y0 options clock (S ticks) d)
          as (Hlen & Ht & Hd & Hall);
          destruct (trigger_loop host n x0 y0 options clock (S ticks) d)
            as [[ps t'] d']
    end.
    cbn [fst snd length] in *. split; [lia|]. split; [lia|]. split; [lia|].
    constructor.
    + cbn [x y alpha radius lifetime birth]. repeat (split; [done|]).
      exists ticks. split; [lia|done].
    + eapply Forall_impl; [exact Hall|]. cbn.
      intros p (? & ? & ? & ? & ? & i & ? & ?). repeat (split; [done|]).
      exists i. split; [lia|done].
Qed.

(** X26. [trigger(x, y)] on an effect with an acceptable configuration
    replaces whatever particles there were by exactly [PARTICLE_COUNT]
    new ones, all at [(x, y)], with alpha 1 and a positive radius
    ([PARTICLE_SIZE], or 3 when that is 0), each born at a reading of the
    clock made during the call. The effect is active afterwards, also
    when [PARTICLE_COUNT] is 0, and [lastUpdate] is the last reading of
    the clock. *)
Theorem trigger_builds_the_particles x0 y0 clock eff ticks draws :
  (0 ≤ cfg_PARTICLE_COUNT (config eff))%Z →
  0 <= cfg_PARTICLE_SIZE (config eff) →
  let r := trigger host x0 y0 clock eff ticks draws in
  let n := Z.to_nat (cfg_PARTICLE_COUNT (config eff)) in
  Z.of_nat (length (particles r.1.1)) = cfg_PARTICLE_COUNT (config eff)
  ∧ Forall (λ p, x p = x0 ∧ y p = y0 ∧ alpha p = 1 ∧ 0 < radius p
                 ∧ radius p = or_defaultQ (Some (cfg_PARTICLE_SIZE
                                                   (config eff))) 3
                 ∧ ∃ i, (ticks ≤ i < ticks + n)%nat ∧ birth p = clock i)
      (particles r.1.1)
  ∧ isActive r.1.1 = true
  ∧ config r.1.1 = config eff
  ∧ lastUpdate r.1.1 = clock (ticks + n)%nat
  ∧ r.1.2 = S (ticks + n)
  ∧ r.2 = (draws + 3 * n)%nat.
Proof.
  intros Hcount Hsize r n. subst r n. unfold trigger.
  match goal with
  | |- context [trigger_loop host ?n x0 y0 ?o clock ticks draws] =>
      destruct (trigger_loop_spec n x0 y0 o clock ticks draws)
        as (Hlen & Ht & Hd & Hall);
        destruct (trigger_loop host n x0 y0 o clock ticks draws)
          as [[ps t'] d']
  end.
  cbn [fst snd particles isActive config lastUpdate opt_size opt_lifetime]
    in *.
  subst t' d'. rewrite Hlen. split; [lia|]. split; [|done].
  eapply Forall_impl; [exact Hall|]. cbn.
  intros p (? & ? & ? & Hr & ? & Hi). repeat (split; [done|]).
  split; [rewrite Hr; by apply radius_positive|]. done.
Qed.

(** *** What holds between calls *)

Lemma update_each_spec clock dt t0 ps : ∀ k,
  monotone clock → t0 <= clock k →
  Forall (λ p, 0 < radius p ∧ birth p <= t0) ps →
  (update_each clock dt ps k).2 = (k + length ps)%nat
  ∧ (length (update_each clock dt ps k).1 ≤ length ps)%nat
  ∧ Forall (λ p, 0 <= alpha p ∧ alpha p <= 1 ∧ 0 < radius p
                 ∧ birth p <= t0)
      (update_each clock dt ps k).1.
Proof.
  induction ps as [|p rest IH]; intros k Hmono Ht0 Hall; cbn [update_each].
  - cbn [fst snd length]. split; [lia|]. split; [lia|done].
  - apply Forall_cons in Hall as [[Hr Hb] Hrest].
    assert (Hk : clock k <= clock (S k)) by (apply Hmono; lia).
    destruct (IH (S k) Hmono ltac:(lra) Hrest) as (Ht & Hlen & Hall').
    assert (Hbk : birth p <= clock k) by lra.
    pose proof (explosion_alpha dt (clock k) p Hbk) as Halpha.
    destruct (ExplosionEffect.update dt (clock k) p) as [alive p'] eqn:Hu.
    destruct (update_each clock dt rest (S k)) as [rest' k'].
    cbn [fst snd length] in *. split; [lia|].
    destruct alive; cbn [length].
    + split; [lia|]. constructor; [|done].
      destruct (Halpha eq_refl) as [? ?].
      unfold ExplosionEffect.update in Hu. injection Hu as _ <-.
      cbn [alpha radius birth] in *. done.
    + split; [lia|done].
Qed.

Lemma effect_update_spec clock eff ticks :
  monotone clock → accepted clock ticks eff →
  accepted clock (update clock eff ticks).2 (update clock eff ticks).1.2
  ∧ config (update clock eff ticks).1.2 = config eff
  ∧ (update clock eff ticks).1.1 = isActive (update clock eff ticks).1.2
  ∧ (isActive (update clock eff ticks).1.2 = true → isActive eff = true)
  ∧ (ticks ≤ (update clock eff ticks).2)%nat.
Proof.
  intros Hmono Hacc. pose proof Hacc as ((Hall & Hidle) & Hcount & Hsize).
  unfold update. destruct (isActive eff) eqn:Hact; cbn [negb fst snd].
  - assert (Hk : clock ticks <= clock (S ticks)) by (apply Hmono; lia).
    destruct (update_each_spec clock (clock ticks - lastUpdate eff)
                (clock ticks) (particles eff) (S ticks) Hmono Hk)
      as (Ht & Hlen & Hall').
    { eapply Forall_impl; [exact Hall|]. cbn. tauto. }
    destruct (update_each clock _ (particles eff) (S ticks)) as [ps k'].
    cbn [fst snd config isActive particles] in *. subst k'.
    split; [|split; [done|split; [done|split; [done|lia]]]].
    split; [|done]. split.
    + eapply Forall_impl; [exact Hall'|]. cbn.
      intros p (? & ? & ? & Hb). repeat (split; [done|]).
      eapply Qle_trans; [exact Hb|]. apply Hmono. lia.
    + destruct ps; [done|]. cbn [length]. done.
  - rewrite Hact. split; [exact Hacc|]. split; [done|]. split; [done|].
    split; [done|lia].
Qed.

Lemma trigger_spec x0 y0 clock eff ticks draws :
  monotone clock → accepted clock ticks eff →
  accepted clock (trigger host x0 y0 clock eff ticks draws).1.2
    (trigger host x0 y0 clock eff ticks draws).1.1
  ∧ config (trigger host x0 y0 clock eff ticks draws).1.1 = config eff.
Proof.
  intros Hmono (_ & Hcount & Hsize). unfold trigger.
  match goal with
  | |- context [trigger_loop host ?n x0 y0 ?o clock ticks draws] =>
      destruct (trigger_loop_spec n x0 y0 o clock ticks draws)
        as (Hlen & Ht & Hd & Hall);
        destruct (trigger_loop host n x0 y0 o clock ticks draws)
          as [[ps t'] d']
  end.
  cbn [fst snd particles isActive config lastUpdate opt_size opt_lifetime]
    in *.
  subst t'. split; [|done]. split; [|done]. split; [|done].
  eapply Forall_impl; [exact Hall|]. cbn.
  intros p (_ & _ & Ha & Hr & _ & i & Hi & Hb). rewrite Ha, Hb, Hr.
  split; [lra|]. split; [lra|]. split; [by apply radius_positive|].
  apply Hmono. lia.
Qed.

Lemma apply_op_accepted clock o eff ticks draws :
  monotone clock → accepted clock ticks eff →
  accepted clock (apply_op host clock o (eff, ticks, draws)).1.2
    (apply_op host clock o (eff, ticks, draws)).1.1
  ∧ config (apply_op host clock o (eff, ticks, draws)).1.1 = config eff.
Proof.
  intros Hmono Hacc. destruct o as [x0 y0| |]; cbn [apply_op].
  - by apply trigger_spec.
  - destruct (effect_update_spec clock eff ticks Hmono Hacc) as (? & ? & _).
    destruct (update clock eff ticks) as [[b eff'] t']. done.
  - cbn [fst snd]. split; [|done]. destruct Hacc as (_ & ? & ?).
    split; [|done]. split; [constructor|done].
Qed.

(** X27. An effect built by the constructor and used through [trigger],
    [update] and [dispose], with a clock that never runs backwards: between
    calls every particle has an alpha within [0, 1] and a positive
    radius and was born no later than the present, an inactive effect
    holds no particles, and the configuration is the one the constructor
    built. *)
Theorem effect_stays_well_formed clock c eff0 os ticks draws :
  (∀ i j, (i ≤ j)%nat → clock i <= clock j) →
  new c = Return eff0 →
  let st := apply_ops host clock os (eff0, ticks, draws) in
  well_formed clock st.1.2 st.1.1 ∧ config st.1.1 = config eff0.
Proof.
  intros Hmono Hnew st. subst st.
  assert (H0 : accepted clock ticks eff0).
  { destruct (new_returned c eff0 Hnew) as (? & ? & Hp & Ha & _).
    split; [|done]. split; [rewrite Hp; constructor|done]. }
  clear Hnew. revert eff0 ticks draws H0.
  induction os as [|o os IH]; intros eff ticks draws Hacc.
  - split; [apply Hacc|done].
  - unfold apply_ops. cbn [foldl].
    destruct (apply_op_accepted clock o eff ticks draws Hmono Hacc)
      as [Hacc' Hcfg].
    destruct (apply_op host clock o (eff, ticks, draws)) as [[eff' t'] d'].
    cbn [fst snd] in *. destruct (IH eff' t' d' Hacc') as [Hwf Hc].
    split; [exact Hwf|]. unfold apply_ops in Hc. by rewrite Hc.
Qed.

(** *** Keys of the configuration that are never read *)

Lemma update_alike clock eff eff' ticks :
  alike eff eff' →
  alike (update clock eff ticks).1.2 (update clock eff' ticks).1.2
  ∧ (update clock eff' ticks).1.1 = (update clock eff ticks).1.1
  ∧ (update clock eff' ticks).2 = (update clock eff ticks).2.
Proof.
  intros Hal. pose proof Hal as (Hp & Ha & Hl & Hrest). unfold update.
  rewrite Hp, Ha, Hl. destruct (isActive eff) eqn:Hact; cbn [negb fst snd].
  - destruct (update_each clock _ (particles eff) (S ticks)) as [ps k'].
    cbn [fst snd]. split; [|done]. unfold alike.
    cbn [particles isActive lastUpdate config]. done.
  - split; [exact Hal|done].
Qed.

Lemma trigger_alike x0 y0 clock eff eff' ticks draws :
  alike eff eff' →
  alike (trigger host x0 y0 clock eff ticks draws).1.1
    (trigger host x0 y0 clock eff' ticks draws).1.1
  ∧ (trigger host x0 y0 clock eff' ticks draws).1.2
    = (trigger host x0 y0 clock eff ticks draws).1.2
  ∧ (trigger host x0 y0 clock eff' ticks draws).2
    = (trigger host x0 y0 clock eff ticks draws).2.
Proof.
  intros (Hp & Ha & Hl & Hc & Hs & Hlt & Hcol & Hsp). unfold trigger.
  rewrite Hc, Hs, Hlt, Hcol, Hsp.
  destruct (trigger_loop host _ x0 y0 _ clock ticks draws) as [[ps t'] d'].
  cbn [fst snd]. split; [|done]. unfold alike.
  cbn [particles isActive lastUpdate config]. done.
Qed.

Lemma apply_op_alike clock o eff eff' ticks draws :
  alike eff eff' →
  alike (apply_op host clock o (eff, ticks, draws)).1.1
    (apply_op host clock o (eff', ticks, draws)).1.1
  ∧ (apply_op host clock o (eff', ticks, draws)).1.2
    = (apply_op host clock o (eff, ticks, draws)).1.2
  ∧ (apply_op host clock o (eff', ticks, draws)).2
    = (apply_op host clock o (eff, ticks, draws)).2.
Proof.
  intros Hal. destruct o as [x0 y0| |]; cbn [apply_op].
  - by apply trigger_alike.
  - destruct (update_alike clock eff eff' ticks Hal) as (? & _ & ?).
    destruct (update clock eff ticks) as [[b e1] t1].
    destruct (update clock eff' ticks) as [[b' e1'] t1'].
    done.
  - cbn [fst snd]. split; [|done]. destruct Hal as (? & ? & ? & ?).
    unfold alike, dispose. cbn [particles isActive lastUpdate config]. done.
Qed.

Lemma apply_ops_alike clock os : ∀ ticks draws eff eff',
  alike eff eff' →
  let st := apply_ops host clock os (eff, ticks, draws) in
  let st' := apply_ops host clock os (eff', ticks, draws) in
  particles st'.1.1 = particles st.1.1
  ∧ isActive st'.1.1 = isActive st.1.1
  ∧ lastUpdate st'.1.1 = lastUpdate st.1.1
  ∧ st'.1.2 = st.1.2 ∧ st'.2 = st.2.
Proof.
  induction os as [|o os IH]; intros ticks draws e e' Hal.
  - destruct Hal as (? & ? & ? & _). done.
  - unfold apply_ops. cbn [foldl].
    destruct (apply_op_alike clock o e e' ticks draws Hal) as (Hal' & Ht & Hd).
    destruct (apply_op host clock o (e, ticks, draws)) as [[e1 t1] d1].
    destruct (apply_op host clock o (e', ticks, draws)) as [[e1' t1'] d1'].
    cbn [fst snd] in *. subst t1' d1'. apply (IH t1 d1 e1 e1' Hal').
Qed.

(** X28. The keys [GRAVITY] and [EXPLOSION_RADIUS] of the configuration
    are never read: two effects built from configurations that differ in
    these keys only hold the same particles, with the same positions and
    velocities, after any sequence of [trigger], [update] and [dispose]
    calls. The particles fall with the default gravity, whatever was
    configured. *)
Theorem configured_gravity_is_ignored clock c gravity radius eff os ticks
    draws :
  new c = Return eff →
  ∃ eff',
    new (with_physics gravity radius c) = Return eff'
    ∧ cfg_GRAVITY (config eff') = default_to GRAVITY gravity
    ∧ let st := apply_ops host clock os (eff, ticks, draws) in
      let st' := apply_ops host clock os (eff', ticks, draws) in
      particles st'.1.1 = particles st.1.1
      ∧ isActive st'.1.1 = isActive st.1.1
      ∧ lastUpdate st'.1.1 = lastUpdate st.1.1
      ∧ st'.1.2 = st.1.2 ∧ st'.2 = st.2.
Proof.
  intros Hnew. unfold new in *.
  assert (Hv : validateConfig (with_physics gravity radius c)
               = validateConfig c) by done.
  rewrite Hv. destruct (validateConfig c); [|done]. injection Hnew as <-.
  eexists. split; [reflexivity|]. split; [done|].
  apply apply_ops_alike. done.
Qed.

End Facts.

Lemma constructor_accepts_zero_witness :
  ∃ eff,
    new three_sparks = Return eff
    ∧ particles eff = [] ∧ isActive eff = false ∧ lastUpdate eff = 0
    ∧ cfg_PARTICLE_COUNT (config eff)
      = default_to 50%Z (o_PARTICLE_COUNT three_sparks)
    ∧ cfg_PARTICLE_SIZE (config eff)
      = default_to 3 (o_PARTICLE_SIZE three_sparks)
    ∧ cfg_PARTICLE_LIFETIME (config eff)
      = default_to 1000 (o_PARTICLE_LIFETIME three_sparks).
Proof.
  apply (proj2 (proj2 (constructor_accepts_zero_and_rejects_negatives
                         three_sparks))).
  - intros n [= <-]. lia.
  - intros s [= <-]. apply Qle_refl.
Defined.

Lemma trigger_builds_the_particles_witness :
  let r := trigger sample_host 7 9 sample_clock sample_effect 0 0 in
  let n := Z.to_nat (cfg_PARTICLE_COUNT (config sample_effect)) in
  Z.of_nat (length (particles r.1.1))
  = cfg_PARTICLE_COUNT (config sample_effect)
  ∧ Forall (λ p, x p = 7 ∧ y p = 9 ∧ alpha p = 1 ∧ 0 < radius p
                 ∧ radius p = or_defaultQ (Some (cfg_PARTICLE_SIZE
                                                   (config sample_effect))) 3
                 ∧ ∃ i, (0 ≤ i < 0 + n)%nat ∧ birth p = sample_clock i)
      (particles r.1.1)
  ∧ isActive r.1.1 = true
  ∧ config r.1.1 = config sample_effect
  ∧ lastUpdate r.1.1 = sample_clock (0 + n)%nat
  ∧ r.1.2 = S (0 + n)
  ∧ r.2 = (0 + 3 * n)%nat.
Proof.
  apply (trigger_builds_the_particles sample_host 7 9 sample_clock
           sample_effect 0%nat 0%nat).
  - vm_compute. discriminate.
  - vm_compute. discriminate.
Defined.

(** An effect configured with a particle size of 0 draws particles of
    radius 3. *)
Example zero_size_means_the_default :
  radius <$> particles (trigger sample_host 7 9 sample_clock sample_effect
                          0 0).1.1
  = [3; 3; 3].
Proof. vm_compute. reflexivity. Qed.

Lemma effect_clock_monotone i j :
  (i ≤ j)%nat → sample_clock i <= sample_clock j.
Proof.
  intros Hij. unfold sample_clock.
  assert (inject_Z (Z.of_nat i) <= inject_Z (Z.of_nat j)).
  { rewrite <- Zle_Qle. lia. }
  lra.
Qed.

Lemma effect_stays_well_formed_witness :
  let st :=
    apply_ops sample_host sample_clock
      [Trigger 7 9; Update; Update; Trigger 1 1; Dispose; Update]
      (sample_effect, 0%nat, 0%nat) in
  well_formed sample_clock st.1.2 st.1.1
  ∧ config st.1.1 = config sample_effect.
Proof.
  apply (effect_stays_well_formed sample_host sample_clock three_sparks
           sample_effect
           [Trigger 7 9; Update; Update; Trigger 1 1; Dispose; Update]
           0%nat 0%nat).
  - exact effect_clock_monotone.
  - reflexivity.
Defined.

(** Three particles with a lifetime of 1000 ms, each read 500 ms after
    its birth by the first update, 900 ms by the second and 1300 ms by
    the third, which removes them and leaves the effect inactive. *)
Example third_update_ends_the_effect :
  let st2 :=
    apply_ops sample_host sample_clock [Trigger 7 9; Update; Update]
      (sample_effect, 0%nat, 0%nat) in
  let st3 := apply_op sample_host sample_clock Update st2 in
  length (particles st2.1.1) = 3%nat ∧ isActive st2.1.1 = true
  ∧ particles st3.1.1 = [] ∧ isActive st3.1.1 = false.
Proof. vm_compute. done. Qed.

Lemma configured_gravity_is_ignored_witness :
  ∃ eff',
    new (with_physics (Some 0) (Some 5) three_sparks) = Return eff'
    ∧ cfg_GRAVITY (config eff') = default_to GRAVITY (Some 0)
    ∧ let st :=
        apply_ops sample_host sample_clock [Trigger 7 9; Update]
          (sample_effect, 0%nat, 0%nat) in
      let st' :=
        apply_ops sample_host sample_clock [Trigger 7 9; Update]
          (eff', 0%nat, 0%nat) in
      particles st'.1.1 = particles st.1.1
      ∧ isActive st'.1.1 = isActive st.1.1
      ∧ lastUpdate st'.1.1 = lastUpdate st.1.1
      ∧ st'.1.2 = st.1.2 ∧ st'.2 = st.2.
Proof.
  apply (configured_gravity_is_ignored sample_host sample_clock three_sparks
           (Some 0) (Some 5) sample_effect [Trigger 7 9; Update] 0%nat
           0%nat).
  reflexivity.
Defined.

End ExplosionEffectMore.

(** * The frame rate of GameLoop: what is configured, what is measured *)

Module GameLoopRate.

Import GameLoop GameLoopProofs GameLoopMore.

Open Scope Q_scope.

Section Facts.

Context {G : Type}.

Implicit Types (g : GameLoop G) (upd : Callback G) (s : G).

Lemma loop_retarget target time t g s :
  _loop t (retarget target time g) s
  = let '(g1, s1, evs, r) := _loop t g s in
    (retarget target time g1, s1, evs, r).
Proof.
  unfold _loop.
  cbn [retarget running lastTime frameCount lastFPSUpdate accumulator update
       render set_lastTime set_frameCount set_fps set_lastFPSUpdate
       set_accumulator].
  destruct (running g); cbn [negb]; [|done].
  destruct (Qle_bool 1000 (t - lastFPSUpdate g));
    cbn [retarget running lastTime frameCount lastFPSUpdate accumulator
         update render set_lastTime set_frameCount set_fps set_lastFPSUpdate
         set_accumulator];
    destruct (update_steps (update g) _ s) as [[[acc s1] evs] [e|]];
    try done;
    destruct (render g (acc / FIXED_TIME_STEP) s1) as [s2 [e|]]; done.
Qed.

Lemma frames_retarget target time ts : ∀ g s,
  frames ts (retarget target time g) s
  = let '(g1, s1, evss) := frames ts g s in
    (retarget target time g1, s1, evss).
Proof.
  induction ts as [|t ts IH]; intros g s; cbn [frames]; [done|].
  rewrite loop_retarget. destruct (_loop t g s) as [[[g1 s1] evs] r].
  rewrite IH. by destruct (frames ts g1 s1) as [[g2 s2] evss].
Qed.

Lemma start_retarget target time now g :
  start now (retarget target time g)
  = (retarget target time (start now g).1, (start now g).2).
Proof. unfold start. cbn [retarget running]. by destruct (running g). Qed.

(** X29. The key [targetFPS] of the configuration has no effect on the
    loop: the constructor stores it (60 when it is missing or 0) and the
    frame time computed from it, and nothing reads them. Two loops built
    from configurations that differ in [targetFPS] only, started at the
    same time, invoke the same callbacks with the same arguments on the
    same frames, leave the same game state and report the same FPS. *)
Theorem targetFPS_is_ignored c target g evs0 :
  new (Some c) = (Return g, evs0) →
  ∃ g',
    new (Some (with_targetFPS target c)) = (Return g', evs0)
    ∧ targetFPS g' = match target with
                     | Some q => if Qeq_bool q 0 then 60 else q
                     | None => 60
                     end
    ∧ ∀ now ts s,
        let r := frames ts (start now g).1 s in
        let r' := frames ts (start now g').1 s in
        r'.2 = r.2 ∧ r'.1.2 = r.1.2
        ∧ getFPS r'.1.1 = getFPS r.1.1
        ∧ running r'.1.1 = running r.1.1
        ∧ accumulator r'.1.1 = accumulator r.1.1.
Proof.
  unfold new. cbn [with_targetFPS cfg_canvas cfg_update cfg_render
                   cfg_targetFPS].
  destruct (cfg_canvas c); cbn [negb]; [|done].
  destruct (cfg_update c) as [u|]; [|done].
  destruct (cfg_render c) as [r|]; [|done].
  intros [= <- <-]. eexists. split; [reflexivity|]. split; [done|].
  intros now ts s.
  match goal with
  | |- context [start now (mkGameLoop u r ?tf ?ft 0 0 false 0%Z 0%Z 0)] =>
      change (mkGameLoop u r tf ft 0 0 false 0%Z 0%Z 0)
        with (retarget tf ft
                (mkGameLoop u r
                   (match cfg_targetFPS c with
                    | Some q => if Qeq_bool q 0 then 60 else q
                    | None => 60
                    end)
                   (1000 / match cfg_targetFPS c with
                           | Some q => if Qeq_bool q 0 then 60 else q
                           | None => 60
                           end) 0 0 false 0%Z 0%Z 0))
  end.
  rewrite start_retarget. cbn [fst]. rewrite frames_retarget.
  cbn zeta. by destruct (frames ts _ s) as [[g2 s2] evss].
Qed.

(** *** The FPS counter *)

Lemma loop_counts t g s :
  running g = true →
  let g' := (_loop t g s).1.1.1 in
  (1000 <= t - lastFPSUpdate g →
   fps g' = (frameCount g + 1)%Z ∧ frameCount g' = 0%Z
   ∧ lastFPSUpdate g' = t)
  ∧ (t - lastFPSUpdate g < 1000 →
     fps g' = fps g ∧ frameCount g' = (frameCount g + 1)%Z
     ∧ lastFPSUpdate g' = lastFPSUpdate g)
  ∧ update g' = update g ∧ render g' = render g.
Proof.
  intros Hrun. unfold _loop. rewrite Hrun. cbn [negb].
  cbn [set_lastTime set_frameCount set_fps set_lastFPSUpdate set_accumulator
       lastFPSUpdate frameCount fps update render accumulator].
  destruct (Qle_bool 1000 (t - lastFPSUpdate g)) eqn:Hle;
    cbn [set_lastTime set_frameCount set_fps set_lastFPSUpdate
         set_accumulator lastFPSUpdate frameCount fps update render
         accumulator].
  - apply Qle_bool_iff in Hle.
    destruct (update_steps (update g) _ s) as [[[acc s1] evs] [e|]].
    + cbn. split; [done|]. split; [intros; lra|done].
    + destruct (render g (acc / FIXED_TIME_STEP) s1) as [s2 [e|]]; cbn;
        (split; [done|]; split; [intros; lra|done]).
  - assert (Hlt : t - lastFPSUpdate g < 1000).
    { apply Qnot_le_lt. intros Hc%Qle_bool_iff. congruence. }
    destruct (update_steps (update g) _ s) as [[[acc s1] evs] [e|]].
    + cbn. split; [intros; lra|]. done.
    + destruct (render g (acc / FIXED_TIME_STEP) s1) as [s2 [e|]]; cbn;
        (split; [intros; lra|]; done).
Qed.

Lemma loop_stays_running t g s :
  running g = true →
  (∀ dt s0, (update g dt s0).2 = None) →
  (∀ a s0, (render g a s0).2 = None) →
  running (_loop t g s).1.1.1 = true.
Proof.
  intros Hrun Hu Hr.
  destruct (loop_running t g s Hrun) as (g1 & _ & _ & _ & Hrun1 & _ & Heq).
  rewrite Heq. clear Heq.
  pose proof (update_steps_never_throws (update g) (accumulator g1) s Hu)
    as Hth.
  destruct (update_steps (update g) (accumulator g1) s)
    as [[[acc s1] evs] [e|]]; [done|].
  specialize (Hr (acc / FIXED_TIME_STEP) s1).
  destruct (render g (acc / FIXED_TIME_STEP) s1) as [s2 [e|]]; done.
Qed.

Lemma frames_snoc ts t : ∀ g s,
  (frames (ts ++ [t]) g s).1.1
  = (_loop t (frames ts g s).1.1 (frames ts g s).1.2).1.1.1.
Proof.
  induction ts as [|t0 ts IH]; intros g s; cbn [app frames].
  - cbn [fst snd]. by destruct (_loop t g s) as [[[g1 s1] evs] r].
  - destruct (_loop t0 g s) as [[[g1 s1] evs] r]. specialize (IH g1 s1).
    destruct (frames (ts ++ [t]) g1 s1) as [[g2 s2] evss].
    destruct (frames ts g1 s1) as [[g3 s3] evss3]. exact IH.
Qed.

Lemma frames_within_window ts : ∀ g s,
  running g = true →
  (∀ dt s0, (update g dt s0).2 = None) →
  (∀ a s0, (render g a s0).2 = None) →
  Forall (λ t, t - lastFPSUpdate g < 1000) ts →
  let g' := (frames ts g s).1.1 in
  running g' = true ∧ update g' = update g ∧ render g' = render g
  ∧ fps g' = fps g
  ∧ frameCount g' = (frameCount g + Z.of_nat (length ts))%Z
  ∧ lastFPSUpdate g' = lastFPSUpdate g.
Proof.
  induction ts as [|t ts IH]; intros g s Hrun Hu Hr Hall; cbn [frames].
  - cbn [fst length]. repeat (split; [done|]). split; [lia|done].
  - apply Forall_cons in Hall as [Ht Hall].
    pose proof (loop_stays_running t g s Hrun Hu Hr) as Hrun1.
    destruct (loop_counts t g s Hrun) as (_ & Hin & Hu1 & Hr1).
    destruct (Hin Ht) as (Hf & Hc & Hl). clear Hin.
    destruct (_loop t g s) as [[[g1 s1] evs] r]. cbn [fst] in *.
    destruct (IH g1 s1 Hrun1) as (? & Hu2 & Hr2 & Hf2 & Hc2 & Hl2).
    { intros dt s0. rewrite Hu1. apply Hu. }
    { intros a s0. rewrite Hr1. apply Hr. }
    { by rewrite Hl. }
    destruct (frames ts g1 s1) as [[g2 s2] evss]. cbn [fst length] in *.
    rewrite Hu2, Hr2, Hf2, Hc2, Hl2, Hu1, Hr1, Hf, Hc, Hl.
    repeat (split; [done|]). split; [lia|done].
Qed.

(** X30. The FPS that [getFPS] reports is a count of frames, not a rate:
    on a running loop whose callbacks do not throw, it keeps its value
    while frames arrive less than 1000 ms after the last reading was
    taken, and the first frame that arrives 1000 ms or more after it sets
    it to the number of frames counted since, that frame included,
    however long the interval was. *)
Theorem getFPS_counts_the_frames_of_a_window early t g s :
  running g = true →
  (∀ dt s0, (update g dt s0).2 = None) →
  (∀ a s0, (render g a s0).2 = None) →
  Forall (λ t0, t0 - lastFPSUpdate g < 1000) early →
  1000 <= t - lastFPSUpdate g →
  getFPS (frames early g s).1.1 = getFPS g
  ∧ getFPS (frames (early ++ [t]) g s).1.1
    = (frameCount g + Z.of_nat (length early) + 1)%Z
  ∧ frameCount (frames (early ++ [t]) g s).1.1 = 0%Z
  ∧ lastFPSUpdate (frames (early ++ [t]) g s).1.1 = t.
Proof.
  intros Hrun Hu Hr Hall Ht.
  destruct (frames_within_window early g s Hrun Hu Hr Hall)
    as (Hrun1 & _ & _ & Hf & Hc & Hl).
  split; [exact Hf|]. rewrite frames_snoc.
  destruct (loop_counts t (frames early g s).1.1 (frames early g s).1.2 Hrun1)
    as (Hout & _).
  rewrite Hl in Hout. destruct (Hout Ht) as (Hf2 & Hc2 & Hl2).
  unfold getFPS. rewrite Hf2, Hc2, Hl2, Hc. done.
Qed.

End Facts.

Lemma targetFPS_is_ignored_witness :
  ∃ g',
    new (Some (with_targetFPS (Some 30) counting_config))
    = (Return g', [addEventListener])
    ∧ targetFPS g' = (if Qeq_bool 30 0 then 60 else 30)
    ∧ ∀ now ts s,
        let r := frames ts (start now unstarted).1 s in
        let r' := frames ts (start now g').1 s in
        r'.2 = r.2 ∧ r'.1.2 = r.1.2
        ∧ getFPS r'.1.1 = getFPS r.1.1
        ∧ running r'.1.1 = running r.1.1
        ∧ accumulator r'.1.1 = accumulator r.1.1.
Proof.
  apply (targetFPS_is_ignored counting_config (Some 30) unstarted
           [addEventListener]).
  reflexivity.
Defined.

(** A loop configured for 30 frames per second makes three updates of
    1/60 s on a frame of 50 ms, as one configured for 60 does. *)
Example thirty_fps_steps_like_sixty :
  ∀ g', (new (Some (with_targetFPS (Some 30) counting_config))).1
        = Return g' →
  (frames [50] (start 0 g').1 0%nat).1.2 = 3%nat.
Proof. intros g' [= <-]. vm_compute. reflexivity. Qed.

Lemma getFPS_counts_witness :
  getFPS (frames [400; 800] sample_loop 0%nat).1.1 = getFPS sample_loop
  ∧ getFPS (frames ([400; 800] ++ [1200]) sample_loop 0%nat).1.1
    = (frameCount sample_loop + Z.of_nat (length [400; 800]) + 1)%Z
  ∧ frameCount (frames ([400; 800] ++ [1200]) sample_loop 0%nat).1.1 = 0%Z
  ∧ lastFPSUpdate (frames ([400; 800] ++ [1200]) sample_loop 0%nat).1.1
    = 1200.
Proof.
  apply (getFPS_counts_the_frames_of_a_window [400; 800] 1200 sample_loop
           0%nat).
  - reflexivity.
  - intros dt s0. reflexivity.
  - intros a s0. reflexivity.
  - repeat constructor.
  - vm_compute. discriminate.
Defined.

(** Three frames in 1.2 seconds are reported as 3 FPS. *)
Example three_frames_in_a_long_window :
  getFPS (frames [400; 800; 1200] sample_loop 0%nat).1.1 = 3%Z.
Proof. vm_compute. reflexivity. Qed.

End GameLoopRate.
